(** * terabox-downloader: the URL extractor, the spooled transfer engine and
      the delivery orchestrator of [bot.py], embedded and verified.

    Modelling conventions.
    - A Python [str] is a sequence of Unicode code points: [pystr := list N].
      Literals are written [py "..."].
    - A decoded JSON payload is a tagged tree; a [dict] is the list of its
      items in insertion order (the order [dict.values()] iterates in), so
      keys are pairwise distinct in every well-formed payload.
    - Byte counts are [Z].  The percentages [int(a * 100 / total)] and
      [int(a / (1024*1024))] go through Python's true division: the exact
      quotient is rounded to the nearest double (53 significant bits, ties
      to even) and [int] truncates the double.  [PyDiv.int_truediv] computes
      just that, so a total above [2^46] bytes can show 100% before the last
      byte has arrived, as it does in Python.
    - The body of an HTTP response is the list of items the chunk iterator
      yields: data chunks, or a transport fault that the iterator raises. *)

From Stdlib Require Import ZArith NArith List Bool Lia Ascii Sorted.
From Stdlib Require Strings.String.
Import String.StringSyntax.
Delimit Scope string_scope with string.
From Stdlib Require Import Strings.Byte.
Import ListNotations.
Local Open Scope Z_scope.

(* ------------------------------------------------------------------ *)
(** ** Python strings *)

Module PyStr.

Definition pystr := list N.

Definition py (s : String.string) : pystr :=
  map N_of_ascii (String.list_ascii_of_string s).
Arguments py s%_string.

Fixpoint eqb (a b : pystr) : bool :=
  match a, b with
  | [], [] => true
  | x :: a', y :: b' => N.eqb x y && eqb a' b'
  | _, _ => false
  end.

(** [s.startswith(p)] *)
Fixpoint startswith (p s : pystr) : bool :=
  match p, s with
  | [], _ => true
  | x :: p', y :: s' => N.eqb x y && startswith p' s'
  | _ :: _, [] => false
  end.

(** [s[len(p):]] when [s.startswith(p)] *)
Fixpoint strip_prefix (p s : pystr) : option pystr :=
  match p, s with
  | [], _ => Some s
  | x :: p', y :: s' => if N.eqb x y then strip_prefix p' s' else None
  | _ :: _, [] => None
  end.

(** The class [\s] of a [str] pattern: [Py_UNICODE_ISSPACE]. *)
Definition isspace (c : N) : bool :=
  ((9 <=? c) && (c <=? 13) || (28 <=? c) && (c <=? 32) ||
   (c =? 133) || (c =? 160) || (c =? 5760) ||
   (8192 <=? c) && (c <=? 8202) || (c =? 8232) || (c =? 8233) ||
   (c =? 8239) || (c =? 8287) || (c =? 12288))%N.

(** The longest run matched by [[^\s]*] at the head of [s]. *)
Fixpoint nonspace_run (s : pystr) : pystr :=
  match s with
  | [] => []
  | c :: s' => if isspace c then [] else c :: nonspace_run s'
  end.

(** Truth value of an [Optional[str]]: [None] and [""] are falsy. *)
Definition truthy (o : option pystr) : bool :=
  match o with
  | Some (_ :: _) => true
  | _ => false
  end.

End PyStr.
Import PyStr.

(* ------------------------------------------------------------------ *)
(** ** The regular expression [GENERIC_URL_RX = https?://[^\s]+] *)

Module Rx.

(** One alternative of [https?]: the scheme text [pre] (which ends in
    [://]) followed by one or more non-whitespace characters. *)
Definition scheme_at (pre s : pystr) : option pystr :=
  match strip_prefix pre s with
  | Some rest =>
      match nonspace_run rest with
      | [] => None
      | run => Some (pre ++ run)
      end
  | None => None
  end.

(** The match anchored at the head of [s].  The optional [s] is greedy:
    the engine tries [https://] first and backtracks to [http://]. *)
Definition match_at (s : pystr) : option pystr :=
  match scheme_at (py "https://") s with
  | Some m => Some m
  | None => scheme_at (py "http://") s
  end.

(** [GENERIC_URL_RX.search(s)], as [m.group(0)] of the leftmost match. *)
Fixpoint search (s : pystr) : option pystr :=
  match match_at s with
  | Some m => Some m
  | None =>
      match s with
      | [] => None
      | _ :: s' => search s'
      end
  end.

End Rx.

(* ------------------------------------------------------------------ *)
(** ** Decoded JSON payloads *)

#[local] Unset Elimination Schemes.
Inductive json :=
| JNull
| JBool (b : bool)
| JInt (n : Z)
| JFloat (literal : pystr)
| JStr (s : pystr)
| JList (items : list json)
| JDict (items : list (pystr * json)).
#[local] Set Elimination Schemes.

(** [d.get(key)] on the items of a dict. *)
Fixpoint dict_get (d : list (pystr * json)) (key : pystr) : option json :=
  match d with
  | [] => None
  | (k, v) :: d' => if PyStr.eqb k key then Some v else dict_get d' key
  end.

Definition KNOWN_FIELDS : list pystr :=
  [py "download"; py "url"; py "link"; py "download_url"].

Definition http : pystr := py "http".

(** [isinstance(val, str) and val.startswith("http")] *)
Definition http_string (val : option json) : option pystr :=
  match val with
  | Some (JStr s) => if startswith http s then Some s else None
  | _ => None
  end.

(** The loop of lines 161-164 over the known keys. *)
Fixpoint known_field (d : list (pystr * json)) (keys : list pystr)
  : option pystr :=
  match keys with
  | [] => None
  | key :: keys' =>
      match http_string (dict_get d key) with
      | Some val => Some val
      | None => known_field d keys'
      end
  end.

(** The nested function [find] of [extract_url].  The two inner loops
    return the first truthy [find(v)] and fall through to [None]. *)
Fixpoint find (obj : json) : option pystr :=
  match obj with
  | JStr s =>
      if startswith http s then Some s else Rx.search s
  | JDict items =>
      (fix values (l : list (pystr * json)) : option pystr :=
         match l with
         | [] => None
         | (_, v) :: l' =>
             let r := find v in
             if truthy r then r else values l'
         end) items
  | JList items =>
      (fix elems (l : list json) : option pystr :=
         match l with
         | [] => None
         | v :: l' =>
             let r := find v in
             if truthy r then r else elems l'
         end) items
  | _ => None
  end.

Definition extract_url (api_data : json) : option pystr :=
  match api_data with
  | JStr s => Rx.search s
  | JDict items =>
      match known_field items KNOWN_FIELDS with
      | Some val => Some val
      | None => find (JDict items)
      end
  | _ => None
  end.

(** *** The search as the specification words it *)

(** Every string value of a payload, depth first: the values of a mapping
    in declared key order, the elements of a sequence in index order. *)
Fixpoint strings_dfs (obj : json) : list pystr :=
  match obj with
  | JStr s => [s]
  | JDict items =>
      (fix values (l : list (pystr * json)) : list pystr :=
         match l with
         | [] => []
         | (_, v) :: l' => strings_dfs v ++ values l'
         end) items
  | JList items =>
      (fix elems (l : list json) : list pystr :=
         match l with
         | [] => []
         | v :: l' => strings_dfs v ++ elems l'
         end) items
  | _ => []
  end.

(** A string qualifies when it starts with [http] or holds a match of the
    generic URL pattern. *)
Definition qualifies (s : pystr) : bool :=
  startswith http s || match Rx.search s with Some _ => true | None => false end.

(** What a qualifying string yields: itself when it starts with [http],
    the matched URL otherwise. *)
Definition url_of (s : pystr) : option pystr :=
  if startswith http s then Some s else Rx.search s.

Fixpoint first_some {A B} (f : A -> option B) (l : list A) : option B :=
  match l with
  | [] => None
  | x :: l' => match f x with Some y => Some y | None => first_some f l' end
  end.

(** The first qualifying string value, whole. *)
Definition first_qualifying (obj : json) : option pystr :=
  List.find qualifies (strings_dfs obj).

(** A known field that holds a string starting with [http]. *)
Definition holds_http (d : list (pystr * json)) (key val : pystr) : Prop :=
  dict_get d key = Some (JStr val) /\ startswith http val = true.

(** No known field of a mapping payload holds such a string; other
    payloads have no fields at all. *)
Definition no_top_level_match (payload : json) : Prop :=
  match payload with
  | JDict d =>
      forall key, In key KNOWN_FIELDS -> forall val, ~ holds_http d key val
  | _ => True
  end.

Definition is_string (payload : json) : bool :=
  match payload with JStr _ => true | _ => false end.

(** *** Induction over payloads, through the nested lists *)

Section JsonInd.
Variable P : json -> Prop.
Hypothesis HNull : P JNull.
Hypothesis HBool : forall b, P (JBool b).
Hypothesis HInt : forall n, P (JInt n).
Hypothesis HFloat : forall l, P (JFloat l).
Hypothesis HStr : forall s, P (JStr s).
Hypothesis HList : forall items, Forall P items -> P (JList items).
Hypothesis HDict :
  forall items, Forall (fun kv => P (snd kv)) items -> P (JDict items).

Fixpoint json_ind (j : json) : P j :=
  match j with
  | JNull => HNull
  | JBool b => HBool b
  | JInt n => HInt n
  | JFloat l => HFloat l
  | JStr s => HStr s
  | JList items =>
      HList items
        ((fix all (l : list json) : Forall P l :=
            match l with
            | [] => Forall_nil _
            | v :: l' => Forall_cons v (json_ind v) (all l')
            end) items)
  | JDict items =>
      HDict items
        ((fix all (l : list (pystr * json))
            : Forall (fun kv => P (snd kv)) l :=
            match l with
            | [] => Forall_nil _
            | kv :: l' =>
                Forall_cons (P := fun kv => P (snd kv)) kv
                  (json_ind (snd kv)) (all l')
            end) items)
  end.
End JsonInd.

(* ------------------------------------------------------------------ *)
(** ** Exceptions *)

(** The messaging-platform call that raised. *)
Inductive site := AtArchiveSend | AtCopy | AtRequesterSend | AtEdit.

Inductive exn :=
| StatusError (status : Z)
    (** [RuntimeError("Download failed, status: ...")] *)
| TooLargeDeclared (total limit : Z)
    (** [RuntimeError("File too large: {total} bytes (limit {max_size})")] *)
| TooLargeStreamed (downloaded limit : Z)
    (** [RuntimeError("File too large (downloaded ... > limit ...)")] *)
| TransportError
    (** raised by [session.get] or by the chunk iterator *)
| ClosedFile
    (** [ValueError]: I/O operation on a closed file *)
| PlatformError (at_site : site).

Definition is_too_large (e : exn) : bool :=
  match e with
  | TooLargeDeclared _ _ | TooLargeStreamed _ _ => true
  | _ => false
  end.

(* ------------------------------------------------------------------ *)
(** ** [tempfile.SpooledTemporaryFile] *)

Module Spooled.

Record t := mk {
  max_size : Z;          (** memory ceiling; 0 means never roll over *)
  content : list byte;
  pos : nat;             (** the file position, for reads and writes *)
  rolled : bool;         (** backed by a disk file rather than by memory *)
  closed : bool
}.

Definition create (max_size : Z) : t :=
  mk max_size [] 0 false false.

(** [f.write(data)]: overwrite at the position (padding a gap with zero
    bytes), advance it, then roll over to disk once past the ceiling. *)
Definition write (f : t) (data : list byte) : exn + t :=
  if closed f then inl ClosedFile
  else
    let pos' := (pos f + length data)%nat in
    let content' :=
      firstn (pos f) (content f)
      ++ repeat x00 (pos f - length (content f))
      ++ data
      ++ skipn pos' (content f) in
    let rolled' :=
      rolled f
      || (negb (max_size f =? 0) && (Z.of_nat pos' >? max_size f)) in
    inr (mk (max_size f) content' pos' rolled' (closed f)).

(** [f.seek(offset)] *)
Definition seek (f : t) (offset : nat) : exn + t :=
  if closed f then inl ClosedFile
  else inr (mk (max_size f) (content f) offset (rolled f) (closed f)).

(** [f.read()]: everything from the position to the end. *)
Definition read (f : t) : exn + (list byte * t) :=
  if closed f then inl ClosedFile
  else inr (skipn (pos f) (content f),
            mk (max_size f) (content f)
               (Nat.max (pos f) (length (content f))) (rolled f) (closed f)).

(** [f.close()]; closing twice is allowed. *)
Definition close (f : t) : t :=
  mk (max_size f) (content f) (pos f) (rolled f) true.

End Spooled.

(* ------------------------------------------------------------------ *)
(** ** The spooled transfer engine: [download_into_spooled_file] *)

Record ProgressEvent := mkEvent {
  percent : Z;
  bytesTransferred : Z;
  totalBytes : Z
}.

(** What [resp.content.iter_chunked] yields next. *)
Inductive item :=
| Data (chunk : list byte)
| Fault.

(** The response to the GET request.  [name_hint] stands for the outcome
    of lines 238-248 (content-disposition, URL path, generated name). *)
Record response := mkResponse {
  status : Z;
  content_length : option Z;
  content_type : option pystr;
  name_hint : pystr;
  body : list item
}.

(** [resp.content_length or 0] *)
Definition advertised (resp : response) : Z :=
  match content_length resp with
  | Some n => n
  | None => 0
  end.

(** Python's [int(a / b)] on ints: true division rounds the exact quotient
    correctly to a double, [int] truncates it. *)
Module PyDiv.

(** [2^e] when [e >= 0], else 1: what exponent [e] multiplies the divisor by. *)
Definition up (e : Z) : Z := 2 ^ Z.max 0 e.
(** [2^(-e)] when [e < 0], else 1: what it multiplies the dividend by. *)
Definition down (e : Z) : Z := 2 ^ Z.max 0 (- e).

(** The integer part of [(a / b) * 2^(-e)]. *)
Definition scaled (a b e : Z) : Z := (a * down e) / (b * up e).

(** The exponent [e] of the double nearest to [a / b], for [a, b > 0]: the
    one that puts [(a / b) * 2^(-e)] in [[2^52, 2^53)]. *)
Definition exponent (a b : Z) : Z :=
  let e0 := Z.log2 a - Z.log2 b - 52 in
  if scaled a b e0 <? 2 ^ 52 then e0 - 1 else e0.

(** [n / d] rounded to the nearest integer, a tie going to the even one. *)
Definition round_half_even (n d : Z) : Z :=
  let q := n / d in
  let r := n mod d in
  if (d <? 2 * r) || ((d =? 2 * r) && Z.odd q) then q + 1 else q.

(** The 53-bit significand of that double: [a / b] is rounded to
    [mantissa * 2^exponent]. *)
Definition mantissa (a b : Z) : Z :=
  let e := exponent a b in
  round_half_even (a * down e) (b * up e).

(** [int(x)] for the double [x = m * 2^e >= 0]. *)
Definition trunc (m e : Z) : Z := (m * up e) / down e.

(** [int(a / b)] for two Python ints.  The sign is that of the quotient and
    [int] truncates towards zero.  [b = 0] raises [ZeroDivisionError] in
    Python; both callers divide by a non-zero number ([total] under
    [if total:], and the constant [1024 * 1024]).  A quotient of [2^1024]
    or more raises [OverflowError]; a byte count cannot come near it, and
    the exponent is left unbounded here.  Below [2^(-1022)] a double has
    fewer than 53 bits, and [int] gives 0 either way. *)
Definition int_truediv (a b : Z) : Z :=
  if (a =? 0) || (b =? 0) then 0
  else Z.sgn a * Z.sgn b
       * trunc (mantissa (Z.abs a) (Z.abs b)) (exponent (Z.abs a) (Z.abs b)).

End PyDiv.

(** Lines 259-262: [int(downloaded * 100 / total)] if [total], else
    [min(99, int(downloaded / (1024 * 1024)))]. *)
Definition percent_of (total downloaded : Z) : Z :=
  if total =? 0 then Z.min 99 (PyDiv.int_truediv downloaded (1024 * 1024))
  else PyDiv.int_truediv (downloaded * 100) total.

(** Line 263. *)
Definition should_emit (percent last_percent : Z) : bool :=
  negb (percent =? last_percent)
  && ((percent mod 2 =? 0) || (percent =? 0) || (percent =? 100)).

(** The eager check of line 236. *)
Definition declared_too_large (max_size total : Z) : bool :=
  negb (max_size =? 0) && negb (total =? 0) && (total >? max_size).

(** Strictly increasing even values above [lo]. *)
Fixpoint ascending (lo : Z) (l : list Z) : Prop :=
  match l with
  | [] => True
  | x :: l' => lo < x /\ x mod 2 = 0 /\ ascending x l'
  end.

(** Line 257. *)
Definition over_limit (max_size total downloaded : Z) : bool :=
  negb (max_size =? 0) && (total =? 0) && (downloaded >? max_size).

(** How the streaming loop of lines 252-268 ends. *)
Record stream_end := mkStreamEnd {
  raised : option exn;
  buffer : Spooled.t;            (** the state [tmp] is left in *)
  received : Z;                  (** [downloaded] *)
  progress : list ProgressEvent; (** the calls of [status_edit_cb], in order *)
  chunks_read : nat              (** items pulled from the iterator *)
}.

Definition emit (e : ProgressEvent) (r : stream_end) : stream_end :=
  mkStreamEnd (raised r) (buffer r) (received r) (e :: progress r)
              (chunks_read r).

Definition pulled (r : stream_end) : stream_end :=
  mkStreamEnd (raised r) (buffer r) (received r) (progress r)
              (S (chunks_read r)).

Fixpoint stream_chunks (max_size total : Z) (items : list item)
    (tmp : Spooled.t) (downloaded last_percent : Z) : stream_end :=
  match items with
  | [] => mkStreamEnd None tmp downloaded [] 0
  | Fault :: _ => mkStreamEnd (Some TransportError) tmp downloaded [] 1
  | Data [] :: _ => mkStreamEnd None tmp downloaded [] 1
  | Data chunk :: rest =>
      match Spooled.write tmp chunk with
      | inl e => mkStreamEnd (Some e) tmp downloaded [] 1
      | inr tmp' =>
          let downloaded' := downloaded + Z.of_nat (length chunk) in
          if over_limit max_size total downloaded' then
            mkStreamEnd (Some (TooLargeStreamed downloaded' max_size))
                        tmp' downloaded' [] 1
          else
            let percent := percent_of total downloaded' in
            if should_emit percent last_percent then
              pulled (emit (mkEvent percent downloaded' total)
                        (stream_chunks max_size total rest tmp' downloaded'
                           percent))
            else
              pulled (stream_chunks max_size total rest tmp' downloaded'
                        last_percent)
      end
  end.

(** The tuple a successful call returns next to [tmp]:
    [(downloaded, ctype or None, filename_hint)]. *)
Record transfer_result := mkResult {
  total_bytes : Z;
  ctype : option pystr;
  filename_hint : pystr
}.

(** One call of [download_into_spooled_file].  [tmp] is the object created
    at line 228, in the state the call leaves it; a successful call returns
    a reference to that same object. *)
Record download_run := mkRun {
  returned : exn + transfer_result;
  tmp : Spooled.t;
  events : list ProgressEvent;
  pulls : nat
}.

(** [ctype or None] *)
Definition or_none (h : option pystr) : option pystr :=
  if truthy h then h else None.

Definition download_into_spooled_file (reply : exn + response)
    (spooled_limit_mb max_size : Z) : download_run :=
  let spooled_limit := spooled_limit_mb * 1024 * 1024 in
  let tmp := Spooled.create spooled_limit in
  match reply with
  | inl e => mkRun (inl e) tmp [] 0
  | inr resp =>
      if negb (status resp =? 200) then
        mkRun (inl (StatusError (status resp))) tmp [] 0
      else
        let total := advertised resp in
        if declared_too_large max_size total
        then mkRun (inl (TooLargeDeclared total max_size)) tmp [] 0
        else
          let s := stream_chunks max_size total (body resp) tmp 0 (-1) in
          match raised s with
          | Some e => mkRun (inl e) (buffer s) (progress s) (chunks_read s)
          | None =>
              let final := mkEvent 100 (received s) total in
              match Spooled.seek (buffer s) 0 with
              | inl e =>
                  mkRun (inl e) (buffer s) (progress s ++ [final])
                        (chunks_read s)
              | inr tmp' =>
                  mkRun (inr (mkResult (received s)
                                (or_none (content_type resp))
                                (name_hint resp)))
                        tmp' (progress s ++ [final]) (chunks_read s)
              end
          end
  end.

(** The data chunks the iterator delivers: every non-empty chunk up to the
    first empty chunk, the first fault, or the end of the body. *)
Fixpoint delivered (items : list item) : list (list byte) :=
  match items with
  | Data (b :: chunk) :: rest => (b :: chunk) :: delivered rest
  | _ => []
  end.

(** Their bytes, in order. *)
Definition body_bytes (items : list item) : list byte :=
  concat (delivered items).

(** The byte count of a run of chunks: the sum of their lengths. *)
Definition size (chunks : list (list byte)) : Z :=
  Z.of_nat (list_sum (map (@length byte) chunks)).

(** A buffer under population: open, positioned at its end. *)
Definition appending (f : Spooled.t) : Prop :=
  Spooled.closed f = false /\
  Spooled.pos f = length (Spooled.content f).

(** One read pass: seek to the start, then read to the end. *)
Definition read_pass (f : Spooled.t) : exn + (list byte * Spooled.t) :=
  match Spooled.seek f 0 with
  | inl e => inl e
  | inr f' => Spooled.read f'
  end.

(** No transport fault before the stream ends. *)
Fixpoint fault_free (items : list item) : bool :=
  match items with
  | [] => true
  | Fault :: _ => false
  | Data [] :: _ => true
  | Data _ :: rest => fault_free rest
  end.

(* ------------------------------------------------------------------ *)
(** ** The messaging platform and the pipeline's world *)

Inductive chat :=
| Requester                 (** [message.chat.id] *)
| Archive (dc : pystr).     (** the dumb channel *)

Inductive caption := SavedForUser | HereIsYourFile.

(** The texts the status message is edited to. *)
Inductive status_text :=
| CouldNotParseRaw (snippet : pystr)
| CouldNotParse
| Downloading (percent downloaded total : Z)
| DownloadingBytes (downloaded : Z)
| DownloadFailed (e : exn)
| UploadingToDumb
| CopyingToYou
| DoneArchived
| UploadingToYou
| DoneDirect
| UploadFailed (e : exn).

(** Calls on the Pyrogram client. *)
Inductive call :=
| EditText (t : status_text)
| SendVideo (to : chat) (data : list byte) (c : caption)
| SendDocument (to : chat) (data : list byte) (c : caption)
| CopyMessage (from_dc : pystr).

Definition site_of (c : call) : site :=
  match c with
  | EditText _ => AtEdit
  | SendVideo (Archive _) _ _ | SendDocument (Archive _) _ _ => AtArchiveSend
  | SendVideo Requester _ _ | SendDocument Requester _ _ => AtRequesterSend
  | CopyMessage _ => AtCopy
  end.

(** What the pipeline does to its surroundings, in order. *)
Inductive op :=
| Platform (c : call)
| FileSeek (offset : nat)
| FileClose.

(** The platform decides which calls it rejects; a rejected call raises. *)
Definition platform := call -> bool.

Record world := mkWorld {
  spooled : option Spooled.t;
    (** the [SpooledTemporaryFile] this pipeline run created, if any *)
  log : list op;
  resolved_links : Z;
  uploaded_files : Z
}.

Definition world0 : world := mkWorld None [] 0 0.

(** *** State that survives a raise *)

Definition M (A : Type) : Type := world -> (exn + A) * world.

Definition ret {A} (a : A) : M A := fun w => (inr a, w).

Definition raise {A} (e : exn) : M A := fun w => (inl e, w).

Definition bind {A B} (m : M A) (k : A -> M B) : M B :=
  fun w =>
    match m w with
    | (inr a, w') => k a w'
    | (inl e, w') => (inl e, w')
    end.

(** [try: m  except Exception as e: h e] *)
Definition try_except {A} (m : M A) (h : exn -> M A) : M A :=
  fun w =>
    match m w with
    | (inr a, w') => (inr a, w')
    | (inl e, w') => h e w'
    end.

(** [try: m  finally: c]; a raise in [c] replaces the pending outcome. *)
Definition try_finally {A} (m : M A) (c : M unit) : M A :=
  fun w =>
    match m w with
    | (r, w') =>
        match c w' with
        | (inr _, w'') => (r, w'')
        | (inl e, w'') => (inl e, w'')
        end
    end.

Declare Scope py_scope.
Delimit Scope py_scope with py.
Notation "x <- m ;; k" := (bind m (fun x => k))
  (at level 61, m at next level, right associativity) : py_scope.
Notation "m ;; k" := (bind m (fun _ => k))
  (at level 61, right associativity) : py_scope.
Local Open Scope py_scope.

Definition record (o : op) : M unit :=
  fun w => (inr tt, mkWorld (spooled w) (w.(log) ++ [o])
                            (resolved_links w) (uploaded_files w)).

Definition set_spooled (f : Spooled.t) : M unit :=
  fun w => (inr tt, mkWorld (Some f) (log w)
                            (resolved_links w) (uploaded_files w)).

(** Run a file operation on the pipeline's spooled file. *)
Definition on_file {A} (f : Spooled.t -> exn + (A * Spooled.t)) : M A :=
  fun w =>
    match spooled w with
    | None => (inl ClosedFile, w)
    | Some file =>
        match f file with
        | inl e => (inl e, w)
        | inr (a, file') =>
            (inr a, mkWorld (Some file') (log w)
                            (resolved_links w) (uploaded_files w))
        end
    end.

Definition file_seek (offset : nat) : M unit :=
  record (FileSeek offset) ;;
  on_file (fun f =>
    match Spooled.seek f offset with
    | inl e => inl e
    | inr f' => inr (tt, f')
    end).

Definition file_read : M (list byte) := on_file Spooled.read.

Definition file_close : M unit :=
  record FileClose ;;
  on_file (fun f => inr (tt, Spooled.close f)).

Definition platform_call (p : platform) (c : call) : M unit :=
  record (Platform c) ;;
  if p c then raise (PlatformError (site_of c)) else ret tt.

Definition edit_text (p : platform) (t : status_text) : M unit :=
  platform_call p (EditText t).

(** The upload call the handler makes for a payload. *)
Definition upload_call (video : bool) (to : chat) (data : list byte)
    (c : caption) : call :=
  if video then SendVideo to data c else SendDocument to data c.

(** [client.send_video] / [client.send_document] on the file object: the
    client reads it from its position to its end and uploads those bytes. *)
Definition send (p : platform) (is_video : bool) (to : chat) (c : caption)
  : M unit :=
  data <- file_read ;;
  platform_call p (upload_call is_video to data c).

Inductive stat_key := ResolvedLinks | UploadedFiles.

Definition stat_incr (k : stat_key) (inc : Z) : M unit :=
  fun w =>
    (inr tt,
     match k with
     | ResolvedLinks =>
         mkWorld (spooled w) (log w) (resolved_links w + inc)
                 (uploaded_files w)
     | UploadedFiles =>
         mkWorld (spooled w) (log w) (resolved_links w)
                 (uploaded_files w + inc)
     end).

(** [download_status_cb]: it swallows every failure of its one edit. *)
Definition download_status_cb (p : platform) (e : ProgressEvent) : M unit :=
  try_except
    (if negb (totalBytes e =? 0) && (totalBytes e >? 0) then
       edit_text p (Downloading (percent e) (bytesTransferred e)
                                (totalBytes e))
     else edit_text p (DownloadingBytes (bytesTransferred e)))
    (fun _ => ret tt).

Fixpoint each {A} (f : A -> M unit) (l : list A) : M unit :=
  match l with
  | [] => ret tt
  | x :: l' => f x ;; each f l'
  end.

(** The call at lines 426-432 seen from the handler: the buffer comes into
    being, the progress callback has run for every event, and the call has
    returned or raised. *)
Definition await_download (p : platform) (reply : exn + response)
    (spooled_limit_mb max_size : Z) : M transfer_result :=
  let run := download_into_spooled_file reply spooled_limit_mb max_size in
  set_spooled (tmp run) ;;
  each (download_status_cb p) (events run) ;;
  match returned run with
  | inl e => raise e
  | inr r => ret r
  end.

(** Lines 438-445; [video_ext] is the outcome of the extension test. *)
Definition is_video (content_type : option pystr) (video_ext : bool) : bool :=
  if truthy content_type
     && match content_type with
        | Some t => startswith (py "video") t
        | None => false
        end
  then true else video_ext.

(** Lines 447-505 of [text_handler].  The upload progress callbacks only
    schedule status edits whose failures are swallowed; they are left out. *)
Definition deliver (p : platform) (dc : option pystr) (video : bool)
  : M unit :=
  try_finally
    (try_except
       (file_seek 0 ;;
        match dc with
        | Some (c :: ch) =>
            let dc := c :: ch in
            edit_text p UploadingToDumb ;;
            send p video (Archive dc) SavedForUser ;;
            edit_text p CopyingToYou ;;
            try_except
              (platform_call p (CopyMessage dc))
              (fun _ =>
                 file_seek 0 ;;
                 send p video Requester HereIsYourFile) ;;
            stat_incr UploadedFiles 1 ;;
            edit_text p DoneArchived
        | _ =>
            edit_text p UploadingToYou ;;
            file_seek 0 ;;
            send p video Requester HereIsYourFile ;;
            stat_incr UploadedFiles 1 ;;
            edit_text p DoneDirect
        end)
       (fun e => edit_text p (UploadFailed e)))
    (try_except file_close (fun _ => ret tt)).

(** What the handler reads from its surroundings. *)
Record config := mkConfig {
  TMP_SPOOL_LIMIT_MB : Z;
  MAX_FILE_SIZE : Z;
  dumb_channel : option pystr;           (** [db_get("dumb_channel")] *)
  video_ext : bool;
  fetch : pystr -> exn + response        (** the GET of the direct URL *)
}.

(** [text_handler] from line 403 on, given the resolver's payload. *)
Definition text_handler (cfg : config) (p : platform) (api_data : json)
  : M unit :=
  match extract_url api_data with
  | Some (c :: u) =>
      let direct := c :: u in
      stat_incr ResolvedLinks 1 ;;
      r <- try_except
             (r <- await_download p (fetch cfg direct)
                     (TMP_SPOOL_LIMIT_MB cfg) (MAX_FILE_SIZE cfg) ;;
              ret (Some r))
             (fun e => edit_text p (DownloadFailed e) ;; ret None) ;;
      match r with
      | None => ret tt
      | Some r =>
          deliver p (dumb_channel cfg)
                  (is_video (ctype r) (video_ext cfg))
      end
  | _ =>
      match api_data with
      | JStr s => edit_text p (CouldNotParseRaw (firstn 1000 s))
      | _ => edit_text p CouldNotParse
      end
  end.

(** A platform that rejects the copy and nothing else. *)
Definition rejects_copy : platform :=
  fun c => match c with CopyMessage _ => true | _ => false end.

(** *** Reading a log *)

(** The payloads of the uploads made to the requester's chat, in order. *)
Fixpoint requester_uploads (l : list op) : list (list byte) :=
  match l with
  | [] => []
  | Platform (SendVideo Requester data _) :: l'
  | Platform (SendDocument Requester data _) :: l' =>
      data :: requester_uploads l'
  | _ :: l' => requester_uploads l'
  end.

(** The errors shown to the user in a status text, in order. *)
Fixpoint surfaced_errors (l : list op) : list exn :=
  match l with
  | [] => []
  | Platform (EditText (UploadFailed e)) :: l'
  | Platform (EditText (DownloadFailed e)) :: l' =>
      e :: surfaced_errors l'
  | _ :: l' => surfaced_errors l'
  end.

(** A status edit, as opposed to an upload, a copy or a file operation. *)
Definition is_status_edit (o : op) : bool :=
  match o with
  | Platform (EditText _) => true
  | _ => false
  end.

(** A computation that never loses the pipeline's spooled file. *)
Definition keeps_file {A} (m : M A) : Prop :=
  forall w, spooled w <> None -> spooled (snd (m w)) <> None.

(* ------------------------------------------------------------------ *)
(** ** Vocabulary for further properties *)

(** A well-formed match of the URL pattern: a scheme, then a non-empty
    run free of whitespace. *)
Definition url_shaped (m : pystr) : Prop :=
  exists scheme run,
    m = scheme ++ run /\
    (scheme = py "http://" \/ scheme = py "https://") /\
    run <> [] /\
    forallb (fun c => negb (isspace c)) run = true.

(** Nothing follows, or whitespace does. *)
Definition ends_at_space (post : pystr) : Prop :=
  match post with
  | [] => True
  | c :: _ => isspace c = true
  end.

(** The spool ceiling in bytes for a limit given in MiB (line 227). *)
Definition spool_limit (spooled_limit_mb : Z) : Z :=
  spooled_limit_mb * 1024 * 1024.

(** A buffer under population whose backing agrees with its size: on disk
    exactly when a non-zero ceiling has been passed. *)
Definition spill_inv (f : Spooled.t) : Prop :=
  appending f /\
  Spooled.rolled f =
  negb (Spooled.max_size f =? 0)
  && (Z.of_nat (length (Spooled.content f)) >? Spooled.max_size f).

(** The payloads uploaded to the archive channel, in order. *)
Fixpoint archive_uploads (l : list op) : list (list byte) :=
  match l with
  | [] => []
  | Platform (SendVideo (Archive _) data _) :: l'
  | Platform (SendDocument (Archive _) data _) :: l' =>
      data :: archive_uploads l'
  | _ :: l' => archive_uploads l'
  end.

(** An operation that involves the archive channel: an upload to it or a
    copy out of it. *)
Definition touches_archive (o : op) : bool :=
  match o with
  | Platform (SendVideo (Archive _) _ _)
  | Platform (SendDocument (Archive _) _ _)
  | Platform (CopyMessage _) => true
  | _ => false
  end.

(** A computation that leaves the count of resolved links alone. *)
Definition keeps_resolved {A} (m : M A) : Prop :=
  forall w, resolved_links (snd (m w)) = resolved_links w.

(** A status edit that reports download progress. *)
Definition is_progress_edit (o : op) : bool :=
  match o with
  | Platform (EditText (Downloading _ _ _))
  | Platform (EditText (DownloadingBytes _)) => true
  | _ => false
  end.

(** A computation that leaves the bytes of the spooled file alone. *)
Definition keeps_content {A} (m : M A) : Prop :=
  forall w f,
    spooled w = Some f ->
    exists f',
      spooled (snd (m w)) = Some f' /\
      Spooled.content f' = Spooled.content f.

(* ------------------------------------------------------------------ *)
(** ** More of Python's [str] *)

From Stdlib Require DecimalString DecimalZ.

Module PyStrOps.

(** [s.lstrip()] *)
Fixpoint lstrip (s : pystr) : pystr :=
  match s with
  | [] => []
  | c :: s' => if isspace c then lstrip s' else s
  end.

(** [s.strip()] *)
Definition strip (s : pystr) : pystr :=
  rev (lstrip (rev (lstrip s))).

Definition comma : N := 44.

(** [s.split(",")]: the pieces between commas; never an empty list. *)
Fixpoint split_comma (s : pystr) : list pystr :=
  match s with
  | [] => [[]]
  | c :: s' =>
      if N.eqb c comma then [] :: split_comma s'
      else match split_comma s' with
           | piece :: pieces => (c :: piece) :: pieces
           | [] => [[c]]
           end
  end.

(** [",".join(pieces)] *)
Fixpoint join_comma (pieces : list pystr) : pystr :=
  match pieces with
  | [] => []
  | [piece] => piece
  | piece :: pieces' => piece ++ comma :: join_comma pieces'
  end.

(** [s.split(maxsplit=1)]: the first whitespace-free word and, when
    something other than whitespace follows it, the rest of the string
    from there to its end. *)
Definition split_maxsplit1 (s : pystr) : list pystr :=
  match lstrip s with
  | [] => []
  | s1 =>
      let word := nonspace_run s1 in
      match lstrip (skipn (length word) s1) with
      | [] => [word]
      | rest => [word; rest]
      end
  end.

(** [str(n)] for an [int]: decimal digits, with a minus sign when
    negative. *)
Definition str (n : Z) : pystr :=
  py (DecimalString.NilEmpty.string_of_int (Z.to_int n)).

(** [x in pieces] *)
Definition mem (x : pystr) (pieces : list pystr) : bool :=
  existsb (PyStr.eqb x) pieces.

Definition nonempty (s : pystr) : bool :=
  match s with [] => false | _ => true end.

End PyStrOps.
Import PyStrOps.

(* ------------------------------------------------------------------ *)
(** ** The SQLite store: [settings] and [stats] *)

Module Db.

(** A table [(key TEXT PRIMARY KEY, value ...)]: its rows, at most one
    per key.  Keys and values are texts SQLite can store (well-formed
    Unicode, as message texts are); failures of the database file itself
    are not modelled. *)
Definition table (V : Type) := list (pystr * V).

(** [SELECT value FROM t WHERE key=?] followed by [fetchone()] *)
Fixpoint select {V} (t : table V) (key : pystr) : option V :=
  match t with
  | [] => None
  | (k, v) :: t' => if PyStr.eqb k key then Some v else select t' key
  end.

(** [DELETE FROM t WHERE key=?] *)
Fixpoint delete {V} (t : table V) (key : pystr) : table V :=
  match t with
  | [] => []
  | (k, v) :: t' =>
      if PyStr.eqb k key then delete t' key else (k, v) :: delete t' key
  end.

(** [REPLACE INTO t(key, value) VALUES(?, ?)]: the row of that key goes,
    the new row comes. *)
Definition replace {V} (t : table V) (key : pystr) (v : V) : table V :=
  delete t key ++ [(key, v)].

(** [UPDATE t SET value=? WHERE key=?] *)
Fixpoint update {V} (t : table V) (key : pystr) (v : V) : table V :=
  match t with
  | [] => []
  | (k, v0) :: t' =>
      (k, if PyStr.eqb k key then v else v0) :: update t' key v
  end.

Record t := mk {
  settings : table pystr;
  stats : table Z
}.

(** The tables [init_db] creates when the file has none. *)
Definition empty : t := mk [] [].

Definition db_set (d : t) (key value : pystr) : t :=
  mk (replace (settings d) key value) (stats d).

Definition db_get (d : t) (key : pystr) : option pystr :=
  select (settings d) key.

Definition db_delete (d : t) (key : pystr) : t :=
  mk (delete (settings d) key) (stats d).

(** What SQLite's INTEGER holds; binding a larger [int] raises
    [OverflowError]. *)
Definition int64 (n : Z) : bool :=
  (- 2 ^ 63 <=? n) && (n <? 2 ^ 63).

(** [stat_incr]; [None] when the write raises. *)
Definition stat_incr (d : t) (key : pystr) (inc : Z) : option t :=
  match select (stats d) key with
  | Some row =>
      let val := row + inc in
      if int64 val then Some (mk (settings d) (update (stats d) key val))
      else None
  | None =>
      let val := inc in
      if int64 val then Some (mk (settings d) (stats d ++ [(key, val)]))
      else None
  end.

Definition stat_get (d : t) (key : pystr) : Z :=
  match select (stats d) key with
  | Some row => row
  | None => 0
  end.

(** The primary keys of both tables are what they are declared to be. *)
Definition keys_unique (d : t) : Prop :=
  NoDup (map fst (settings d)) /\ NoDup (map fst (stats d)).

(** Lines 118-121: what importing the module does to the store. *)
Definition startup (API_TEMPLATE : pystr) (d : t) : t :=
  match db_get d (py "api_template") with
  | None => db_set d (py "api_template") API_TEMPLATE
  | Some _ => d
  end.

(** Line 143: the template [call_resolver_api] formats. *)
Definition api_template (API_TEMPLATE : pystr) (d : t) : pystr :=
  match db_get d (py "api_template") with
  | Some (c :: tpl) => c :: tpl
  | _ => API_TEMPLATE
  end.

End Db.

(* ------------------------------------------------------------------ *)
(** ** Administration: [is_admin], [admin_only], the commands,
       [ensure_joined] *)

Module Admin.

(** [is_admin], with the module's [ADMIN_ID] as an argument. *)
Definition is_admin (ADMIN_ID : pystr) (user_id : Z) : bool :=
  if negb (nonempty ADMIN_ID) then false
  else
    let admin_ids :=
      map strip (filter (fun s => nonempty (strip s)) (split_comma ADMIN_ID))
    in
    mem (str user_id) admin_ids.

Record message := mkMessage {
  text : pystr;
  from_user : option Z      (** [message.from_user.id], when there is one *)
}.

Inductive err :=
| ChatNotFound       (** raised by [client.get_chat] *)
| ReplyRejected.     (** raised by [message.reply_text] *)

Inductive reply :=
| NotAuthorized
| UsageDumbChannel
| DumbChannelSet (ch : pystr)
| DumbChannelFailed (e : err)
| DumbChannelRemoved
| UsageForceSub
| ForceSubSet (ch : pystr)
| ForceSubFailed (e : err)
| ForceSubRemoved
| UsageApiTemplate
| ApiTemplateUpdated
| Stats (resolved uploaded : Z).

(** The surroundings of a command: the configured admins and what the
    platform answers. *)
Record env := mkEnv {
  ADMIN_ID : pystr;
  chat_unknown : pystr -> bool;      (** [get_chat] raises *)
  reply_rejected : reply -> bool;    (** [reply_text] raises *)
  member_status : pystr -> Z -> option pystr
    (** the status [get_chat_member] reports; [None] when it raises *)
}.

Record state := mkState {
  db : Db.t;
  sent : list reply          (** the replies attempted, in order *)
}.

Definition H (A : Type) : Type := state -> (err + A) * state.

Definition hret {A} (a : A) : H A := fun s => (inr a, s).

Definition hraise {A} (e : err) : H A := fun s => (inl e, s).

Definition hbind {A B} (m : H A) (k : A -> H B) : H B :=
  fun s =>
    match m s with
    | (inr a, s') => k a s'
    | (inl e, s') => (inl e, s')
    end.

Definition htry {A} (m : H A) (h : err -> H A) : H A :=
  fun s =>
    match m s with
    | (inr a, s') => (inr a, s')
    | (inl e, s') => h e s'
    end.

Declare Scope cmd_scope.
Delimit Scope cmd_scope with cmd.
Notation "m >> k" := (hbind m (fun _ => k))
  (at level 62, right associativity) : cmd_scope.
Local Open Scope cmd_scope.

Definition reply_text (e : env) (r : reply) : H unit :=
  fun s =>
    (if reply_rejected e r then inl ReplyRejected else inr tt,
     mkState (db s) (sent s ++ [r])).

Definition get_chat (e : env) (ch : pystr) : H unit :=
  if chat_unknown e ch then hraise ChatNotFound else hret tt.

Definition on_db (f : Db.t -> Db.t) : H unit :=
  fun s => (inr tt, mkState (f (db s)) (sent s)).

(** [message.text.strip().split(maxsplit=1)] *)
Definition args_of (m : message) : list pystr :=
  split_maxsplit1 (strip (text m)).

Definition set_dumb_channel (e : env) (m : message) : H unit :=
  match args_of m with
  | [_; arg] =>
      let ch := strip arg in
      htry (get_chat e ch >>
            on_db (fun d => Db.db_set d (py "dumb_channel") ch) >>
            reply_text e (DumbChannelSet ch))
           (fun x => reply_text e (DumbChannelFailed x))
  | _ => reply_text e UsageDumbChannel
  end.

Definition remove_dumb_channel (e : env) (m : message) : H unit :=
  on_db (fun d => Db.db_delete d (py "dumb_channel")) >>
  reply_text e DumbChannelRemoved.

Definition set_force_sub (e : env) (m : message) : H unit :=
  match args_of m with
  | [_; arg] =>
      let ch := strip arg in
      htry (get_chat e ch >>
            on_db (fun d => Db.db_set d (py "force_sub") ch) >>
            reply_text e (ForceSubSet ch))
           (fun x => reply_text e (ForceSubFailed x))
  | _ => reply_text e UsageForceSub
  end.

Definition remove_force_sub (e : env) (m : message) : H unit :=
  on_db (fun d => Db.db_delete d (py "force_sub")) >>
  reply_text e ForceSubRemoved.

Definition set_api_template_cmd (e : env) (m : message) : H unit :=
  match args_of m with
  | [_; arg] =>
      let tpl := strip arg in
      on_db (fun d => Db.db_set d (py "api_template") tpl) >>
      reply_text e ApiTemplateUpdated
  | _ => reply_text e UsageApiTemplate
  end.

Definition stats_cmd (e : env) (m : message) : H unit :=
  fun s =>
    let total := Db.stat_get (db s) (py "resolved_links") in
    let uploaded := Db.stat_get (db s) (py "uploaded_files") in
    reply_text e (Stats total uploaded) s.

(** The decorator [admin_only]. *)
Definition admin_only (func : env -> message -> H unit)
    (e : env) (m : message) : H unit :=
  match from_user m with
  | Some uid =>
      if negb (uid =? 0) && is_admin (ADMIN_ID e) uid then func e m
      else reply_text e NotAuthorized
  | None => reply_text e NotAuthorized
  end.

(** The six admin commands as registered, decorator included. *)
Inductive command :=
| SetDumbChannel | RemoveDumbChannel | SetForceSub | RemoveForceSub
| SetApiTemplate | ShowStats.

Definition body_of (c : command) : env -> message -> H unit :=
  match c with
  | SetDumbChannel => set_dumb_channel
  | RemoveDumbChannel => remove_dumb_channel
  | SetForceSub => set_force_sub
  | RemoveForceSub => remove_force_sub
  | SetApiTemplate => set_api_template_cmd
  | ShowStats => stats_cmd
  end.

Definition handle (c : command) : env -> message -> H unit :=
  admin_only (body_of c).

(** A run of commands, each with its message, handled one after the
    other; a handler that raises ends its own run only. *)
Fixpoint handle_all (e : env) (l : list (command * message)) (s : state)
  : state :=
  match l with
  | [] => s
  | (c, m) :: l' => handle_all e l' (snd (handle c e m s))
  end.

Inductive denial :=
| MustJoin        (** "You must join the required channel to use this bot." *)
| CannotVerify.   (** "Cannot verify membership: ..." *)

(** The statuses [ensure_joined] lets through. *)
Definition joined_status (st : pystr) : bool :=
  mem st [py "creator"; py "administrator"; py "member"].

(** [ensure_joined]: [None] lets the user through. *)
Definition ensure_joined (e : env) (d : Db.t) (user_id : Z)
  : option denial :=
  match Db.db_get d (py "force_sub") with
  | Some (c :: fs) =>
      match member_status e (c :: fs) user_id with
      | Some st => if joined_status st then None else Some MustJoin
      | None => Some CannotVerify
      end
  | _ => None
  end.

End Admin.

(* ------------------------------------------------------------------ *)
(** ** Vocabulary for the admin properties *)

(** Whitespace only (possibly nothing). *)
Definition blank (s : pystr) : Prop := forallb isspace s = true.

(** Free of whitespace. *)
Definition solid (s : pystr) : Prop :=
  forallb (fun c => negb (isspace c)) s = true.

(** Non-empty, with no whitespace at either end: what [strip] leaves
    alone. *)
Definition stripped (s : pystr) : Prop := s <> [] /\ strip s = s.

(** One entry of an [ADMIN_ID] list: an id between optional blanks. *)
Definition admin_entry (e : pystr * Z * pystr) : pystr :=
  let '(l, id, r) := e in l ++ str id ++ r.

Definition entry_id (e : pystr * Z * pystr) : Z := snd (fst e).

Definition entry_blanks (e : pystr * Z * pystr) : Prop :=
  blank (fst (fst e)) /\ blank (snd e).

(** The characters of [str(n)]: digits and the minus sign. *)
Definition plain (c : N) : bool :=
  ((48 <=? c) && (c <=? 57) || (c =? 45))%N.

(** A command text: the command word, a gap, the argument, with optional
    blanks around the whole. *)
Definition command_text (lead cmd gap arg trail : pystr) : pystr :=
  lead ++ cmd ++ gap ++ arg ++ trail.

(** The parts of a command text are what their names say. *)
Definition command_parts (lead cmd gap arg trail : pystr) : Prop :=
  blank lead /\ blank trail /\ blank gap /\ gap <> [] /\
  solid cmd /\ cmd <> [] /\ stripped arg.

(** The sender is an admin the decorator lets through. *)
Definition sent_by_admin (e : Admin.env) (m : Admin.message) : Prop :=
  exists uid,
    Admin.from_user m = Some uid /\ uid <> 0 /\
    Admin.is_admin (Admin.ADMIN_ID e) uid = true.

(* ================================================================== *)
(** * Properties *)

(** ** Concrete runs *)

Example extract_url_top_field :
  extract_url (JDict [(py "size", JInt 5); (py "url", JStr (py "ftp://x"));
                      (py "link", JStr (py "https://host/file.mp4"))])
  = Some (py "https://host/file.mp4").
Proof. reflexivity. Qed.

Example extract_url_plain_text :
  extract_url (JStr (py "get it at http://h/p?q=1 now")) =
  Some (py "http://h/p?q=1").
Proof. reflexivity. Qed.

Example search_backtracks_on_optional_s :
  Rx.search (py "https:// http://x") = Some (py "http://x").
Proof. reflexivity. Qed.

(** An unknown total: the heuristic percentage stays at 0 below 1 MiB and
    the only 100% event is the final one. *)
Example progress_unknown_total :
  events (download_into_spooled_file
            (inr (mkResponse 200 None None (py "f")
                    [Data [x01]; Data [x02; x03]])) 16 0)
  = [mkEvent 0 1 0; mkEvent 100 3 0].
Proof. reflexivity. Qed.

(** A fault in mid-stream: the call raises and no final event is sent. *)
Example transport_fault_mid_stream :
  let run := download_into_spooled_file
               (inr (mkResponse 200 (Some 4) None (py "f")
                       [Data [x01; x02]; Fault; Data [x03; x04]])) 16 0 in
  returned run = inl TransportError /\
  events run = [mkEvent 50 2 4] /\
  Spooled.content (tmp run) = [x01; x02].
Proof. repeat split. Qed.

(** Direct mode, everything accepted: one upload, then the close. *)
Example direct_delivery :
  let resp := mkResponse 200 (Some 2) (Some (py "video/mp4")) (py "file.bin")
                [Data [x01; x02]] in
  let cfg := mkConfig 16 0 None false (fun _ => inr resp) in
  log (snd (text_handler cfg (fun _ => false)
              (JDict [(py "download", JStr (py "https://host/file"))])
              world0))
  = [Platform (EditText (Downloading 100 2 2));
     Platform (EditText (Downloading 100 2 2));
     FileSeek 0;
     Platform (EditText UploadingToYou);
     FileSeek 0;
     Platform (SendVideo Requester [x01; x02] HereIsYourFile);
     Platform (EditText DoneDirect);
     FileClose].
Proof. reflexivity. Qed.

(** ** Strings and the URL pattern *)

Lemma pystr_eqb_eq a b : PyStr.eqb a b = true <-> a = b.
Proof.
  revert b; induction a as [|x a IH]; intros [|y b]; simpl;
    try (split; [discriminate | congruence]); try tauto.
  rewrite andb_true_iff, N.eqb_eq, IH.
  split; [intros []|intros [=]]; subst; auto.
Qed.

Lemma startswith_http_nonempty s : startswith http s = true -> s <> [].
Proof. destruct s; [discriminate | congruence]. Qed.

Lemma scheme_at_nonempty pre s m :
  pre <> [] -> Rx.scheme_at pre s = Some m -> m <> [].
Proof.
  unfold Rx.scheme_at. intros Hp.
  destruct (strip_prefix pre s) as [rest|]; [|discriminate].
  destruct (nonspace_run rest); [discriminate|].
  intros [= <-]. destruct pre; [congruence | discriminate].
Qed.

Lemma match_at_nonempty s m : Rx.match_at s = Some m -> m <> [].
Proof.
  unfold Rx.match_at.
  destruct (Rx.scheme_at (py "https://") s) eqn:E.
  - intros [= <-]. eapply scheme_at_nonempty; [|exact E]. discriminate.
  - apply scheme_at_nonempty. discriminate.
Qed.

Lemma search_nonempty s m : Rx.search s = Some m -> m <> [].
Proof.
  induction s as [|c s IH]; cbn [Rx.search].
  - destruct (Rx.match_at []) eqn:E; [|discriminate].
    intros [= <-]. eapply match_at_nonempty; eauto.
  - destruct (Rx.match_at (c :: s)) eqn:E.
    + intros [= <-]. eapply match_at_nonempty; eauto.
    + exact IH.
Qed.

Lemma url_of_nonempty s m : url_of s = Some m -> m <> [].
Proof.
  unfold url_of. destruct (startswith http s) eqn:E.
  - intros [= <-]. now apply startswith_http_nonempty.
  - apply search_nonempty.
Qed.

Lemma truthy_url_of s : truthy (url_of s) = true <-> url_of s <> None.
Proof.
  destruct (url_of s) as [m|] eqn:E; simpl.
  - apply url_of_nonempty in E. destruct m; [congruence|].
    split; [discriminate | reflexivity].
  - split; [discriminate | congruence].
Qed.

(** ** The URL extractor *)

Lemma first_some_app {A B} (f : A -> option B) l1 l2 :
  first_some f (l1 ++ l2) =
  match first_some f l1 with Some y => Some y | None => first_some f l2 end.
Proof.
  induction l1 as [|x l1 IH]; simpl; [reflexivity|].
  destruct (f x); [reflexivity | exact IH].
Qed.

Lemma first_some_nonempty l m :
  first_some url_of l = Some m -> m <> [].
Proof.
  induction l as [|s l IH]; simpl; [discriminate|].
  destruct (url_of s) eqn:E; [|exact IH].
  intros [= <-]. eapply url_of_nonempty; eauto.
Qed.

Lemma truthy_first_some l :
  truthy (first_some url_of l) = true <-> first_some url_of l <> None.
Proof.
  destruct (first_some url_of l) as [m|] eqn:E; simpl.
  - apply first_some_nonempty in E. destruct m; [congruence|].
    split; [discriminate | reflexivity].
  - split; [discriminate | congruence].
Qed.

(** The recursive [find] is the left-to-right scan of the depth-first
    string sequence. *)
Lemma find_strings_dfs obj :
  find obj = first_some url_of (strings_dfs obj).
Proof.
  induction obj as [| | | |s|items IH|items IH] using json_ind;
    try reflexivity.
  - cbn [find strings_dfs first_some]. unfold url_of.
    destruct (startswith http s); [reflexivity|].
    destruct (Rx.search s); reflexivity.
  - cbn [find strings_dfs].
    induction IH as [|v l Hv _ IHl]; [reflexivity|].
    rewrite first_some_app, IHl, Hv.
    destruct (truthy (first_some url_of (strings_dfs v))) eqn:T.
    + apply truthy_first_some in T.
      destruct (first_some url_of (strings_dfs v)); congruence.
    + destruct (first_some url_of (strings_dfs v)) eqn:E; [|reflexivity].
      assert (truthy (first_some url_of (strings_dfs v)) = true)
        by (apply truthy_first_some; congruence).
      rewrite E in *. congruence.
  - cbn [find strings_dfs].
    induction IH as [|[k v] l Hv _ IHl]; [reflexivity|].
    cbn [snd] in Hv.
    rewrite first_some_app, IHl, Hv.
    destruct (truthy (first_some url_of (strings_dfs v))) eqn:T.
    + apply truthy_first_some in T.
      destruct (first_some url_of (strings_dfs v)); congruence.
    + destruct (first_some url_of (strings_dfs v)) eqn:E; [|reflexivity].
      assert (truthy (first_some url_of (strings_dfs v)) = true)
        by (apply truthy_first_some; congruence).
      rewrite E in *. congruence.
Qed.

Lemma http_string_holds d key val :
  http_string (dict_get d key) = Some val <-> holds_http d key val.
Proof.
  unfold http_string, holds_http.
  destruct (dict_get d key) as [[| | | |s| |]|]; try (split; [discriminate | intros [[=] _]]).
  destruct (startswith http s) eqn:E.
  - split; [intros [= <-]; auto | intros [[= <-] _]; reflexivity].
  - split; [discriminate | intros [[= <-] ?]; congruence].
Qed.

Lemma http_string_none d key :
  http_string (dict_get d key) = None <-> forall val, ~ holds_http d key val.
Proof.
  split.
  - intros H val Hv. apply http_string_holds in Hv. congruence.
  - intros H. destruct (http_string (dict_get d key)) as [val|] eqn:E;
      [|reflexivity].
    apply http_string_holds in E. now apply H in E.
Qed.

Lemma known_field_none d keys :
  (forall key, In key keys -> forall val, ~ holds_http d key val) ->
  known_field d keys = None.
Proof.
  induction keys as [|k keys IH]; intros H; simpl; [reflexivity|].
  assert (E : http_string (dict_get d k) = None)
    by (apply http_string_none, H; now left).
  rewrite E. apply IH. intros key Hin. apply H. now right.
Qed.

Lemma known_field_nth d keys i key val :
  nth_error keys i = Some key ->
  holds_http d key val ->
  (forall j key', (j < i)%nat -> nth_error keys j = Some key' ->
     forall val', ~ holds_http d key' val') ->
  known_field d keys = Some val.
Proof.
  revert i. induction keys as [|k keys IH]; intros [|i] Hn Hv Hbefore;
    try discriminate; simpl in *.
  - injection Hn as ->. apply http_string_holds in Hv. now rewrite Hv.
  - assert (E : http_string (dict_get d k) = None).
    { apply http_string_none. apply (Hbefore 0%nat k); [lia | reflexivity]. }
    rewrite E. apply (IH i); auto.
    intros j key' Hj Hnj. apply (Hbefore (S j) key'); [lia | exact Hnj].
Qed.

(** C6. For every mapping payload in which at least one of the known
    fields [download], [url], [link], [download_url] holds a string that
    starts with [http], [extract_url] returns the value of the first such
    field in that fixed order: whatever the later known fields hold, and
    whatever the recursive search would have found. *)
Theorem extract_url_known_field_precedence :
  forall (d : list (pystr * json)) (i : nat) (key val : pystr),
    nth_error KNOWN_FIELDS i = Some key ->
    holds_http d key val ->
    (forall j key', (j < i)%nat -> nth_error KNOWN_FIELDS j = Some key' ->
       forall val', ~ holds_http d key' val') ->
    extract_url (JDict d) = Some val.
Proof.
  intros d i key val Hn Hv Hbefore. unfold extract_url.
  now rewrite (known_field_nth d KNOWN_FIELDS i key val Hn Hv Hbefore).
Qed.

(** A payload whose [url] and [link] both qualify, whose [download] is not
    a string, and whose first value holds a nested URL the recursive search
    would return: [url] wins. *)
Lemma extract_url_known_field_precedence_witness :
  extract_url
    (JDict [(py "mirrors", JList [JStr (py "https://nested/first")]);
            (py "link", JStr (py "https://host/by-link"));
            (py "download", JInt 7);
            (py "url", JStr (py "http://host/by-url"))])
  = Some (py "http://host/by-url").
Proof.
  apply (extract_url_known_field_precedence _ 1%nat (py "url")).
  - reflexivity.
  - split; reflexivity.
  - intros j key' Hj Hn val' [Hget _].
    destruct j as [|j]; [|lia].
    injection Hn as <-. vm_compute in Hget. discriminate.
Defined.

Lemma qualifies_url_of s : qualifies s = true <-> url_of s <> None.
Proof.
  unfold qualifies, url_of. destruct (startswith http s); cbn.
  - split; [discriminate | reflexivity].
  - destruct (Rx.search s); split; congruence.
Qed.

(** Scanning for the first URL a string yields is finding the first
    qualifying string and taking what it yields. *)
Lemma first_some_url_of l :
  first_some url_of l =
  match List.find qualifies l with
  | Some s => url_of s
  | None => None
  end.
Proof.
  induction l as [|s l IH]; [reflexivity|]. cbn [first_some List.find].
  destruct (qualifies s) eqn:Q.
  - apply qualifies_url_of in Q. destruct (url_of s); congruence.
  - destruct (url_of s) eqn:U; [|exact IH].
    assert (qualifies s = true) by (apply qualifies_url_of; congruence).
    congruence.
Qed.

(** C4 (as amended). For every mapping payload with no top-level
    known-field match, [extract_url] searches the string values depth first
    (mapping values in declared key order, sequence elements in index
    order) for the first one that starts with [http] or holds a match of
    the generic URL pattern, and returns what that string yields: the
    string itself when it starts with [http], the URL matched inside it
    otherwise; nothing when no string qualifies.  For every other payload
    that is not a string (a top-level sequence, number, boolean or null) it
    returns nothing. *)
Theorem extract_url_depth_first :
  forall payload : json,
    is_string payload = false ->
    no_top_level_match payload ->
    extract_url payload =
    match payload with
    | JDict _ =>
        match first_qualifying payload with
        | Some s => url_of s
        | None => None
        end
    | _ => None
    end.
Proof.
  intros [| | | |s|items|d] Hs Hno; try reflexivity; [discriminate|].
  unfold extract_url, first_qualifying.
  rewrite (known_field_none d KNOWN_FIELDS Hno), <- first_some_url_of.
  apply find_strings_dfs.
Qed.

Lemma extract_url_depth_first_witness :
  extract_url
    (JDict [(py "ok", JBool true);
            (py "data", JList [JInt 1;
               JDict [(py "note", JStr (py "no link here"));
                      (py "u", JStr (py "see https://h/a b"))];
               JStr (py "http://later")])])
  = Some (py "https://h/a").
Proof.
  rewrite extract_url_depth_first.
  - reflexivity.
  - reflexivity.
  - intros key Hin val [Hget _].
    repeat (destruct Hin as [<-|Hin]; [vm_compute in Hget; discriminate|]).
    destruct Hin.
Defined.

(** C4 as stated fails on a top-level sequence: its first string value
    starts with [http], yet [extract_url] returns nothing. *)
Lemma extract_url_top_level_sequence :
  let payload := JList [JStr (py "http://host/file")] in
  is_string payload = false /\
  no_top_level_match payload /\
  first_qualifying payload = Some (py "http://host/file") /\
  extract_url payload = None.
Proof. repeat split. Qed.

(* ------------------------------------------------------------------ *)
(** ** The spooled buffer *)

Lemma write_appending f data :
  appending f ->
  exists f',
    Spooled.write f data = inr f' /\
    Spooled.content f' = Spooled.content f ++ data /\
    appending f'.
Proof.
  intros [Hc Hp]. unfold Spooled.write. rewrite Hc, Hp.
  eexists; split; [reflexivity|]. unfold appending; cbn.
  rewrite firstn_all, Nat.sub_diag, skipn_all2 by lia. cbn.
  rewrite app_nil_r, length_app. auto.
Qed.

Lemma create_appending m : appending (Spooled.create m).
Proof. split; reflexivity. Qed.

Lemma size_nil : size [] = 0.
Proof. reflexivity. Qed.

Lemma size_cons c cs : size (c :: cs) = Z.of_nat (length c) + size cs.
Proof. unfold size, list_sum; cbn [map fold_right]. lia. Qed.

Lemma size_concat cs : size cs = Z.of_nat (length (concat cs)).
Proof.
  induction cs as [|c cs IH]; [reflexivity|].
  rewrite size_cons, IH. cbn [concat]. rewrite length_app. lia.
Qed.

(** ** The streaming loop *)

Lemma stream_chunks_data max_size total b chunk rest tmp d lp :
  stream_chunks max_size total (Data (b :: chunk) :: rest) tmp d lp =
  match Spooled.write tmp (b :: chunk) with
  | inl e => mkStreamEnd (Some e) tmp d [] 1
  | inr tmp' =>
      let d' := d + Z.of_nat (length (b :: chunk)) in
      if over_limit max_size total d' then
        mkStreamEnd (Some (TooLargeStreamed d' max_size)) tmp' d' [] 1
      else
        let percent := percent_of total d' in
        if should_emit percent lp then
          pulled (emit (mkEvent percent d' total)
                    (stream_chunks max_size total rest tmp' d' percent))
        else pulled (stream_chunks max_size total rest tmp' d' lp)
  end.
Proof. reflexivity. Qed.

(** Case analysis on one turn of the loop over an appending buffer. *)
Ltac stream_turn IH :=
  match goal with
  | Happ : appending ?tmp
    |- context [stream_chunks ?m ?t (Data (?b :: ?c) :: ?rest) ?tmp ?d ?lp] =>
      let tmp' := fresh "tmp'" in
      let Hw := fresh "Hw" in
      let Hc := fresh "Hc" in
      let Happ' := fresh "Happ'" in
      let Hover := fresh "Hover" in
      let Hemit := fresh "Hemit" in
      rewrite stream_chunks_data;
      destruct (write_appending tmp (b :: c) Happ) as (tmp' & Hw & Hc & Happ');
      rewrite Hw; cbv zeta;
      destruct (over_limit m t (d + Z.of_nat (length (b :: c)))) eqn:Hover;
      [|destruct (should_emit
                    (percent_of t (d + Z.of_nat (length (b :: c)))) lp)
          eqn:Hemit];
      cbn [raised buffer received progress chunks_read pulled emit]
  end.

Lemma stream_appending max_size total items :
  forall tmp d lp,
    appending tmp ->
    appending (buffer (stream_chunks max_size total items tmp d lp)).
Proof.
  induction items as [|[[|b c]|] rest IH]; intros tmp d lp Happ.
  - exact Happ.
  - exact Happ.
  - stream_turn IH; auto.
  - exact Happ.
Qed.

(** The byte count grows by exactly what the buffer grows by. *)
Lemma stream_received max_size total items :
  forall tmp d lp,
    appending tmp ->
    let s := stream_chunks max_size total items tmp d lp in
    received s - d =
    Z.of_nat (length (Spooled.content (buffer s)))
    - Z.of_nat (length (Spooled.content tmp)).
Proof.
  induction items as [|[[|b c]|] rest IH]; intros tmp d lp Happ; cbv zeta.
  - cbn. lia.
  - cbn. lia.
  - stream_turn IH.
    + rewrite Hc, length_app. lia.
    + specialize (IH tmp' (d + Z.of_nat (length (b :: c)))
                    (percent_of total (d + Z.of_nat (length (b :: c))))
                    Happ').
      cbv zeta in IH. rewrite Hc, length_app in IH. lia.
    + specialize (IH tmp' (d + Z.of_nat (length (b :: c))) lp Happ').
      cbv zeta in IH. rewrite Hc, length_app in IH. lia.
  - cbn. lia.
Qed.

(** A loop that ends without raising has written every delivered chunk. *)
Lemma stream_success_content max_size total items :
  forall tmp d lp,
    appending tmp ->
    let s := stream_chunks max_size total items tmp d lp in
    raised s = None ->
    Spooled.content (buffer s) = Spooled.content tmp ++ body_bytes items /\
    received s = d + size (delivered items).
Proof.
  unfold body_bytes.
  induction items as [|[[|b c]|] rest IH]; intros tmp d lp Happ; cbv zeta.
  - cbn. intros _. rewrite app_nil_r. split; [reflexivity | lia].
  - cbn. intros _. rewrite app_nil_r. split; [reflexivity | lia].
  - cbn [delivered concat].
    stream_turn IH; try discriminate; intros Hr;
      apply IH in Hr; auto; destruct Hr as [-> ->];
      rewrite Hc, <- app_assoc, size_cons; (split; [reflexivity | lia]).
  - cbn. discriminate.
Qed.

(** Without the reactive check the loop can only stop on a fault. *)
Lemma stream_no_limit max_size total items :
  (forall d, over_limit max_size total d = false) ->
  forall tmp d lp,
    appending tmp ->
    let s := stream_chunks max_size total items tmp d lp in
    (fault_free items = true -> raised s = None) /\
    (forall e, raised s = Some e -> e = TransportError).
Proof.
  intros Hno.
  induction items as [|[[|b c]|] rest IH]; intros tmp d lp Happ; cbv zeta.
  - cbn. split; [reflexivity | discriminate].
  - cbn. split; [reflexivity | discriminate].
  - cbn [fault_free].
    stream_turn IH; [now rewrite Hno in Hover| |]; apply IH; auto.
  - cbn. split; [discriminate | now intros e [= <-]].
Qed.

Lemma over_limit_advertised max_size total d :
  total <> 0 -> over_limit max_size total d = false.
Proof.
  intros H. unfold over_limit. apply Z.eqb_neq in H. rewrite H.
  now rewrite andb_false_r.
Qed.

(* ------------------------------------------------------------------ *)
(** ** [download_into_spooled_file] *)

Lemma seek_open f offset :
  Spooled.closed f = false ->
  Spooled.seek f offset =
  inr (Spooled.mk (Spooled.max_size f) (Spooled.content f) offset
                  (Spooled.rolled f) false).
Proof. intros H. unfold Spooled.seek. now rewrite H. Qed.

Lemma read_pass_open f :
  Spooled.closed f = false ->
  read_pass f =
  inr (Spooled.content f,
       Spooled.mk (Spooled.max_size f) (Spooled.content f)
                  (length (Spooled.content f)) (Spooled.rolled f) false).
Proof.
  intros H. unfold read_pass. rewrite (seek_open f 0 H).
  unfold Spooled.read. cbn. reflexivity.
Qed.

(** What a call that returned must have gone through. *)
Lemma download_returned reply mb max_size r :
  let run := download_into_spooled_file reply mb max_size in
  returned run = inr r ->
  exists resp,
    reply = inr resp /\
    status resp = 200 /\
    declared_too_large max_size (advertised resp) = false /\
    let s := stream_chunks max_size (advertised resp) (body resp)
               (Spooled.create (mb * 1024 * 1024)) 0 (-1) in
    raised s = None /\
    r = mkResult (received s) (or_none (content_type resp)) (name_hint resp) /\
    tmp run = Spooled.mk (Spooled.max_size (buffer s))
                (Spooled.content (buffer s)) 0
                (Spooled.rolled (buffer s)) false /\
    events run = progress s ++ [mkEvent 100 (received s) (advertised resp)] /\
    pulls run = chunks_read s.
Proof.
  cbv zeta. unfold download_into_spooled_file.
  destruct reply as [e|resp]; [discriminate|].
  destruct (status resp =? 200) eqn:Hst; [|discriminate]. cbn [negb].
  apply Z.eqb_eq in Hst.
  destruct (declared_too_large max_size (advertised resp)) eqn:Heager;
    [discriminate|].
  set (s := stream_chunks _ _ _ _ _ _).
  assert (Happ : appending (buffer s))
    by (apply stream_appending, create_appending).
  destruct (raised s) eqn:Hr; [discriminate|].
  rewrite (seek_open _ 0 (proj1 Happ)). cbn [returned tmp events pulls].
  intros [= <-]. exists resp. repeat split; auto.
Qed.

(** A call on a 200 response that passes the eager check and whose loop
    does not raise returns. *)
Lemma download_returns resp mb max_size :
  status resp = 200 ->
  declared_too_large max_size (advertised resp) = false ->
  let s := stream_chunks max_size (advertised resp) (body resp)
             (Spooled.create (mb * 1024 * 1024)) 0 (-1) in
  raised s = None ->
  returned (download_into_spooled_file (inr resp) mb max_size) =
  inr (mkResult (received s) (or_none (content_type resp)) (name_hint resp)).
Proof.
  cbv zeta. unfold download_into_spooled_file.
  intros Hst Heager Hr. rewrite Hst, Z.eqb_refl. cbn [negb].
  rewrite Heager, Hr.
  rewrite (seek_open _ 0
             (proj1 (stream_appending _ _ _ _ _ _ (create_appending _)))).
  reflexivity.
Qed.

(** C5. With a limit [N > 0] and an advertised content-length above [N],
    the transfer of a 200 response fails with the too-large error before
    anything is pulled from the body: no chunk is read, the buffer is
    empty, and no progress event has been emitted. *)
Theorem declared_length_over_limit_fails_eagerly :
  forall (resp : response) (mb N total : Z),
    0 < N ->
    status resp = 200 ->
    content_length resp = Some total ->
    N < total ->
    let run := download_into_spooled_file (inr resp) mb N in
    returned run = inl (TooLargeDeclared total N) /\
    pulls run = 0%nat /\
    Spooled.content (tmp run) = [] /\
    events run = [].
Proof.
  intros resp mb N total HN Hst Hlen Hgt. cbv zeta.
  unfold download_into_spooled_file, declared_too_large, advertised.
  rewrite Hst, Hlen, Z.eqb_refl. cbn [negb].
  replace (N =? 0) with false by (symmetry; apply Z.eqb_neq; lia).
  replace (total =? 0) with false by (symmetry; apply Z.eqb_neq; lia).
  replace (total >? N) with true by (symmetry; apply Z.gtb_lt; lia).
  cbn. auto.
Qed.

Lemma declared_length_over_limit_fails_eagerly_witness :
  let resp := mkResponse 200 (Some 11) None (py "f.bin")
                [Data [x01; x02; x03]; Data [x04]] in
  returned (download_into_spooled_file (inr resp) 16 10) =
  inl (TooLargeDeclared 11 10).
Proof.
  apply (declared_length_over_limit_fails_eagerly _ 16 10 11);
    [lia | reflexivity | reflexivity | lia].
Defined.

(** C7. A transfer that returns hands over its buffer open and positioned
    at byte 0, and two successive read passes over it (each one a seek to 0
    followed by a read to the end) yield the same bytes both times: the
    bytes of the delivered chunks, in order. *)
Theorem returned_buffer_rewound_and_rereadable :
  forall (resp : response) (mb max_size : Z) (r : transfer_result),
    let run := download_into_spooled_file (inr resp) mb max_size in
    returned run = inr r ->
    Spooled.pos (tmp run) = 0%nat /\
    Spooled.closed (tmp run) = false /\
    exists f1 f2,
      read_pass (tmp run) = inr (body_bytes (body resp), f1) /\
      read_pass f1 = inr (body_bytes (body resp), f2).
Proof.
  intros resp mb max_size r run Hret.
  destruct (download_returned _ _ _ _ Hret)
    as (resp' & [= <-] & _ & _ & Hr & _ & Htmp & _).
  fold run in Htmp. cbv zeta in Hr, Htmp.
  destruct (stream_success_content _ _ _ _ 0 (-1)
              (create_appending (mb * 1024 * 1024)) Hr) as [Hc _].
  cbn [Spooled.create Spooled.content app] in Hc.
  rewrite Htmp, Hc. cbn [Spooled.pos Spooled.closed].
  repeat split.
  eexists _, _. split.
  - rewrite read_pass_open by reflexivity. reflexivity.
  - rewrite read_pass_open by reflexivity. reflexivity.
Qed.

Lemma returned_buffer_rewound_and_rereadable_witness :
  let resp := mkResponse 200 None None (py "f.bin")
                [Data [x01; x02; x03]; Data [x04]; Data []; Data [x05]] in
  let run := download_into_spooled_file (inr resp) 16 0 in
  Spooled.pos (tmp run) = 0%nat /\
  exists f1 f2,
    read_pass (tmp run) = inr ([x01; x02; x03; x04], f1) /\
    read_pass f1 = inr ([x01; x02; x03; x04], f2).
Proof.
  intros resp run.
  destruct (returned_buffer_rewound_and_rereadable resp 16 0
              (mkResult 4 None (py "f.bin")) eq_refl)
    as (Hpos & _ & Hread).
  split; [exact Hpos | exact Hread].
Defined.

(** C10. The byte count a transfer returns is the sum of the lengths of
    the chunks written into the buffer, which is the length of the
    buffer's content, whatever content-length the response declared. *)
Theorem returned_total_is_buffer_length :
  forall (resp : response) (mb max_size : Z) (r : transfer_result),
    let run := download_into_spooled_file (inr resp) mb max_size in
    returned run = inr r ->
    Spooled.content (tmp run) = concat (delivered (body resp)) /\
    total_bytes r = size (delivered (body resp)) /\
    total_bytes r = Z.of_nat (length (Spooled.content (tmp run))).
Proof.
  intros resp mb max_size r run Hret.
  destruct (download_returned _ _ _ _ Hret)
    as (resp' & [= <-] & _ & _ & Hr & -> & Htmp & _).
  fold run in Htmp. cbv zeta in Hr, Htmp.
  destruct (stream_success_content _ _ _ _ 0 (-1)
              (create_appending (mb * 1024 * 1024)) Hr) as [Hc Hd].
  cbn [Spooled.create Spooled.content app] in Hc.
  rewrite Htmp. cbn [Spooled.content total_bytes].
  rewrite Hc, Hd. unfold body_bytes.
  split; [reflexivity|]. split; [reflexivity|]. apply size_concat.
Qed.

Lemma returned_total_is_buffer_length_witness :
  let resp := mkResponse 200 (Some 9) None (py "f.bin")
                [Data [x01; x02; x03]; Data [x04]] in
  let run := download_into_spooled_file (inr resp) 16 0 in
  Spooled.content (tmp run) = [x01; x02; x03; x04] /\
  4 = Z.of_nat (length (Spooled.content (tmp run))).
Proof.
  intros resp run.
  destruct (returned_total_is_buffer_length resp 16 0
              (mkResult 4 None (py "f.bin")) eq_refl)
    as (Hc & _ & Hlen).
  split; [exact Hc | exact Hlen].
Defined.

(** C9. When a non-zero content-length is advertised and does not exceed
    the limit, the loop enforces no limit: a fault-free body is transferred
    whole and the call returns its full byte count, larger than the limit
    or not.  The reactive failure can only come out of a call whose
    advertised total is absent or zero. *)
Theorem advertised_length_disables_reactive_check :
  forall (resp : response) (mb N : Z),
    let run := download_into_spooled_file (inr resp) mb N in
    (status resp = 200 ->
     advertised resp <> 0 ->
     advertised resp <= N ->
     fault_free (body resp) = true ->
     returned run =
     inr (mkResult (size (delivered (body resp)))
                   (or_none (content_type resp)) (name_hint resp))) /\
    (forall d l,
       returned run = inl (TooLargeStreamed d l) -> advertised resp = 0).
Proof.
  intros resp mb N run. split.
  - intros Hst Hadv Hle Hff.
    assert (Heager : declared_too_large N (advertised resp) = false).
    { unfold declared_too_large.
      replace (advertised resp >? N) with false
        by (symmetry; rewrite Z.gtb_ltb; apply Z.ltb_ge; lia).
      now rewrite andb_false_r. }
    pose proof (stream_no_limit N (advertised resp) (body resp)
                  (fun d => over_limit_advertised N _ d Hadv)
                  _ 0 (-1) (create_appending (mb * 1024 * 1024))) as [Hok _].
    specialize (Hok Hff).
    subst run. rewrite (download_returns resp mb N Hst Heager Hok).
    destruct (stream_success_content _ _ _ _ 0 (-1)
                (create_appending (mb * 1024 * 1024)) Hok) as [_ ->].
    reflexivity.
  - intros d l Hret.
    destruct (Z.eq_dec (advertised resp) 0) as [|Hadv]; [assumption|exfalso].
    subst run. unfold download_into_spooled_file in Hret.
    destruct (negb (status resp =? 200)); [discriminate|].
    destruct (declared_too_large N (advertised resp)); [discriminate|].
    pose proof (stream_no_limit N (advertised resp) (body resp)
                  (fun d => over_limit_advertised N _ d Hadv)
                  _ 0 (-1) (create_appending (mb * 1024 * 1024))) as [_ Hf].
    cbv zeta in Hf.
    destruct (raised (stream_chunks N (advertised resp) (body resp)
                        (Spooled.create (mb * 1024 * 1024)) 0 (-1)))
      as [e|] eqn:Hr.
    + specialize (Hf e eq_refl). subst e. discriminate.
    + rewrite seek_open in Hret; [discriminate|].
      apply stream_appending, create_appending.
Qed.

(** A response that advertises 3 bytes under a limit of 4 and delivers 10:
    the transfer returns all 10. *)
Lemma advertised_length_disables_reactive_check_witness :
  let resp := mkResponse 200 (Some 3) None (py "f.bin")
                [Data [x01; x02; x03; x04; x05; x06]; Data [x07; x08; x09; x0a]]
  in
  returned (download_into_spooled_file (inr resp) 16 4) =
  inr (mkResult 10 None (py "f.bin")).
Proof.
  intros resp.
  apply (proj1 (advertised_length_disables_reactive_check resp 16 4));
    [reflexivity | discriminate | cbn; lia | reflexivity].
Defined.

(** ** The reactive limit *)

Lemma over_limit_streamed N d :
  N <> 0 -> over_limit N 0 d = (d >? N).
Proof.
  intros H. unfold over_limit. apply Z.eqb_neq in H. now rewrite H.
Qed.

(** The loop raises at the first delivered chunk that takes the running
    count above the limit, having written that chunk and pulled no more. *)
Lemma stream_first_excess N items :
  N <> 0 ->
  forall tmp d lp k,
    appending tmp ->
    d <= N ->
    (k <= length (delivered items))%nat ->
    (forall j, (j < k)%nat -> d + size (firstn j (delivered items)) <= N) ->
    N < d + size (firstn k (delivered items)) ->
    let s := stream_chunks N 0 items tmp d lp in
    raised s =
      Some (TooLargeStreamed (d + size (firstn k (delivered items))) N) /\
    Spooled.content (buffer s) =
      Spooled.content tmp ++ concat (firstn k (delivered items)) /\
    chunks_read s = k.
Proof.
  intros HN.
  induction items as [|[[|b c]|] rest IH]; intros tmp d lp k Happ Hd Hk Hbefore Hk';
    cbv zeta.
  1,2,4: cbn [delivered length] in Hk; assert (k = 0%nat) as -> by lia;
         cbn [delivered firstn] in Hk'; rewrite size_nil in Hk'; lia.
  cbn [delivered] in *.
  destruct k as [|k]; [cbn [firstn] in Hk'; rewrite size_nil in Hk'; lia|].
  cbn [firstn length] in *. rewrite size_cons in Hk'.
  stream_turn IH.
  - rewrite (over_limit_streamed _ _ HN) in Hover. apply Z.gtb_lt in Hover.
    destruct k as [|k].
    + cbn [firstn concat]. rewrite size_cons, size_nil, Hc, app_nil_r.
      repeat split; try (do 2 f_equal; cbn [length]; lia).
    + specialize (Hbefore 1%nat ltac:(lia)). cbn [firstn] in Hbefore.
      rewrite size_cons, size_nil in Hbefore. cbn [length] in *. lia.
  - rewrite (over_limit_streamed _ _ HN) in Hover.
    rewrite Z.gtb_ltb in Hover. apply Z.ltb_ge in Hover.
    destruct (IH tmp' (d + Z.of_nat (length (b :: c)))
                (percent_of 0 (d + Z.of_nat (length (b :: c)))) k Happ')
      as (Hr & Hcont & Hread); try lia.
    + intros j Hj. specialize (Hbefore (S j) ltac:(lia)).
      cbn [firstn] in Hbefore. rewrite size_cons in Hbefore. lia.
    + rewrite Hr, Hcont, Hread, Hc, size_cons, <- app_assoc.
      repeat split; try (do 2 f_equal; lia).
  - rewrite (over_limit_streamed _ _ HN) in Hover.
    rewrite Z.gtb_ltb in Hover. apply Z.ltb_ge in Hover.
    destruct (IH tmp' (d + Z.of_nat (length (b :: c))) lp k Happ')
      as (Hr & Hcont & Hread); try lia.
    + intros j Hj. specialize (Hbefore (S j) ltac:(lia)).
      cbn [firstn] in Hbefore. rewrite size_cons in Hbefore. lia.
    + rewrite Hr, Hcont, Hread, Hc, size_cons, <- app_assoc.
      repeat split; try (do 2 f_equal; lia).
Qed.

(** While every running count stays within the limit, the loop cannot
    raise the too-large error. *)
Lemma stream_within_limit N items :
  N <> 0 ->
  forall tmp d lp,
    appending tmp ->
    (forall k, (k <= length (delivered items))%nat ->
       d + size (firstn k (delivered items)) <= N) ->
    forall e, raised (stream_chunks N 0 items tmp d lp) = Some e ->
              e = TransportError.
Proof.
  intros HN.
  induction items as [|[[|b c]|] rest IH]; intros tmp d lp Happ Hall e.
  1,2: cbn; discriminate.
  2: cbn; now intros [= <-].
  cbn [delivered length] in Hall.
  assert (H1 := Hall 1%nat ltac:(lia)). cbn [firstn] in H1.
  rewrite size_cons, size_nil in H1.
  assert (Hrest : forall k, (k <= length (delivered rest))%nat ->
            d + Z.of_nat (length (b :: c)) + size (firstn k (delivered rest))
            <= N).
  { intros k Hk. specialize (Hall (S k) ltac:(lia)).
    cbn [firstn] in Hall. rewrite size_cons in Hall. lia. }
  stream_turn IH.
  - rewrite (over_limit_streamed _ _ HN) in Hover. apply Z.gtb_lt in Hover.
    lia.
  - apply IH; auto.
  - apply IH; auto.
Qed.

Lemma declared_too_large_unadvertised N : declared_too_large N 0 = false.
Proof. unfold declared_too_large. cbn. now rewrite andb_false_r. Qed.

(** X20. With a limit [N > 0] and no advertised content-length, the
    transfer of a 200 response fails with the too-large error exactly when
    the running byte count, taken after each delivered chunk, exceeds [N]:
    it fails at the first chunk that takes the count above [N], reporting
    that count, with that chunk the last one written and pulled, and the
    buffer holding every byte up to and including that chunk; and it never
    fails so while every running count stays within [N]. *)
Theorem unadvertised_length_fails_at_first_excess :
  forall (resp : response) (mb N : Z),
    0 < N ->
    status resp = 200 ->
    advertised resp = 0 ->
    let chunks := delivered (body resp) in
    let run := download_into_spooled_file (inr resp) mb N in
    (forall k,
       (k <= length chunks)%nat ->
       (forall j, (j < k)%nat -> size (firstn j chunks) <= N) ->
       N < size (firstn k chunks) ->
       returned run = inl (TooLargeStreamed (size (firstn k chunks)) N) /\
       Spooled.content (tmp run) = concat (firstn k chunks) /\
       pulls run = k) /\
    ((forall k, (k <= length chunks)%nat -> size (firstn k chunks) <= N) ->
     forall e, returned run = inl e -> is_too_large e = false).
Proof.
  intros resp mb N HN Hst Hadv chunks run. subst chunks run. split.
  - intros k Hk Hbefore Hexc.
    destruct (stream_first_excess N (body resp) ltac:(lia)
                (Spooled.create (mb * 1024 * 1024)) 0 (-1) k
                (create_appending _) ltac:(lia) Hk)
      as (Hr & Hc & Hp); [exact Hbefore | lia |].
    unfold download_into_spooled_file.
    rewrite Hst, Z.eqb_refl, Hadv, declared_too_large_unadvertised.
    cbn [negb]. rewrite Hr. cbn [returned tmp pulls]. rewrite Hc, Hp.
    rewrite Z.add_0_l. auto.
  - intros Hall e Hret.
    unfold download_into_spooled_file in Hret.
    rewrite Hst, Z.eqb_refl, Hadv, declared_too_large_unadvertised in Hret.
    cbn [negb] in Hret.
    destruct (raised (stream_chunks N 0 (body resp)
                        (Spooled.create (mb * 1024 * 1024)) 0 (-1)))
      as [e'|] eqn:Hr.
    + apply stream_within_limit in Hr; auto using create_appending; [|lia].
      subst e'. cbn in Hret. now injection Hret as <-.
    + rewrite seek_open in Hret; [discriminate|].
      apply stream_appending, create_appending.
Qed.

(** Chunks of 3, 2 and 1 bytes under a limit of 4: the second chunk takes
    the count to 5 and the transfer fails there. *)
Lemma unadvertised_length_fails_at_first_excess_witness :
  let resp := mkResponse 200 None None (py "f.bin")
                [Data [x01; x02; x03]; Data [x04; x05]; Data [x06]] in
  let run := download_into_spooled_file (inr resp) 16 4 in
  returned run = inl (TooLargeStreamed 5 4) /\
  Spooled.content (tmp run) = [x01; x02; x03; x04; x05] /\
  pulls run = 2%nat.
Proof.
  intros resp run.
  apply (proj1 (unadvertised_length_fails_at_first_excess resp 16 4
                  ltac:(lia) eq_refl eq_refl) 2%nat).
  - cbn. lia.
  - intros j Hj. destruct j as [|[|j]]; cbn; lia.
  - cbn. lia.
Defined.


(* ------------------------------------------------------------------ *)
(** ** Python's [int(a / b)] *)

Module PyDivFacts.
Import PyDiv.



Lemma up_pos e : 0 < up e. Proof. unfold up. apply Z.pow_pos_nonneg; lia. Qed.
Lemma down_pos e : 0 < down e. Proof. unfold down. apply Z.pow_pos_nonneg; lia. Qed.

Lemma scale_rel e e' :
  e <= e' -> down e * up e' = 2 ^ (e' - e) * (down e' * up e).
Proof.
  intros H. unfold up, down. rewrite <- !Z.pow_add_r by lia. f_equal. lia.
Qed.

Lemma scale_rel_ge e e' :
  e < e' -> 2 * (down e' * up e) <= down e * up e'.
Proof.
  intros H. rewrite (scale_rel e e') by lia.
  assert (2 ^ 1 <= 2 ^ (e' - e)) by (apply Z.pow_le_mono_r; lia).
  pose proof (down_pos e'). pose proof (up_pos e). nia.
Qed.

Lemma floor_mono n d n' d' :
  0 < d -> 0 < d' -> n * d' <= n' * d -> n / d <= n' / d'.
Proof.
  intros Hd Hd' H. apply Z.div_le_lower_bound; [lia|].
  pose proof (Z.mul_div_le n d Hd).
  assert (d * (d' * (n / d)) <= d * n') by nia.
  nia.
Qed.

Lemma rhe_bounds n d : n / d <= round_half_even n d <= n / d + 1.
Proof. unfold round_half_even. destruct (_ || _); lia. Qed.

Lemma rhe_mono n d n' d' :
  0 < d -> 0 < d' -> n * d' <= n' * d ->
  round_half_even n d <= round_half_even n' d'.
Proof.
  intros Hd Hd' H.
  pose proof (floor_mono n d n' d' Hd Hd' H) as Hq.
  pose proof (rhe_bounds n d). pose proof (rhe_bounds n' d').
  destruct (Z.eq_dec (n / d) (n' / d')) as [E|E]; [|lia].
  unfold round_half_even in *. rewrite <- E in *.
  pose proof (Z.div_mod n d ltac:(lia)) as Hn.
  pose proof (Z.div_mod n' d' ltac:(lia)) as Hn'.
  pose proof (Z.mod_pos_bound n d Hd). pose proof (Z.mod_pos_bound n' d' Hd').
  rewrite <- E in Hn'.
  set (q := n / d) in *. set (r := n mod d) in *. set (r' := n' mod d') in *.
  assert (Hr : r * d' <= r' * d) by nia.
  destruct ((d <? 2 * r) || ((d =? 2 * r) && Z.odd q)) eqn:U; [|destruct (_ || _); lia].
  assert ((d' <? 2 * r') || ((d' =? 2 * r') && Z.odd q) = true) as ->; [|lia].
  apply orb_true_iff in U. apply orb_true_iff.
  destruct U as [U|U].
  - apply Z.ltb_lt in U. left. apply Z.ltb_lt. nia.
  - apply andb_true_iff in U. destruct U as [U O]. apply Z.eqb_eq in U.
    destruct (Z.ltb_spec d' (2 * r')); [now left|]. right.
    rewrite O, andb_true_r. apply Z.eqb_eq. nia.
Qed.

Lemma div_lt_bound n d k : 0 < d -> n / d < k -> n < k * d.
Proof.
  intros Hd H. pose proof (Z.div_mod n d ltac:(lia)).
  pose proof (Z.mod_pos_bound n d Hd). nia.
Qed.

Lemma div_ge_bound n d k : 0 < d -> k <= n / d -> k * d <= n.
Proof.
  intros Hd H. pose proof (Z.div_mod n d ltac:(lia)).
  pose proof (Z.mod_pos_bound n d Hd). nia.
Qed.

Lemma exponent_normal a b :
  0 < a -> 0 < b ->
  2 ^ 52 * (b * up (exponent a b)) <= a * down (exponent a b)
  /\ a * down (exponent a b) < 2 ^ 53 * (b * up (exponent a b)).
Proof.
  intros Ha Hb.
  pose proof (Z.log2_spec a Ha) as [La Ua].
  pose proof (Z.log2_spec b Hb) as [Lb Ub].
  pose proof (Z.log2_nonneg a) as Na. pose proof (Z.log2_nonneg b) as Nb.
  unfold exponent.
  set (la := Z.log2 a) in *. set (lb := Z.log2 b) in *.
  set (e0 := la - lb - 52).
  rewrite Z.pow_succ_r in Ua, Ub by lia.
  assert (E1 : 2 * 2 ^ la * down e0 = 2 ^ 53 * (2 ^ lb * up e0)).
  { unfold up, down, e0. change 2 with (2 ^ 1) at 1.
    rewrite <- !Z.pow_add_r by lia. f_equal. lia. }
  pose proof (up_pos e0) as HU. pose proof (down_pos e0) as HD.
  pose proof (Z.pow_pos_nonneg 2 la ltac:(lia) Na) as HA.
  pose proof (Z.pow_pos_nonneg 2 lb ltac:(lia) Nb) as HB.
  pose proof (scale_rel (e0 - 1) e0 ltac:(lia)) as R.
  replace (e0 - (e0 - 1)) with 1 in R by lia. change (2 ^ 1) with 2 in R.
  pose proof (up_pos (e0 - 1)) as HU1. pose proof (down_pos (e0 - 1)) as HD1.
  unfold scaled.
  remember (up (e0 - 1)) as U1 eqn:EU1. remember (down (e0 - 1)) as D1 eqn:ED1.
  remember (up e0) as U eqn:EU. remember (down e0) as D eqn:ED.
  remember (2 ^ la) as A eqn:EA. remember (2 ^ lb) as B eqn:EB.
  clear EA EB.
  change (2 ^ 53) with 9007199254740992 in *.
  change (2 ^ 52) with 4503599627370496 in *.
  assert (Hup : a * D < 9007199254740992 * (b * U)).
  { apply Z.lt_le_trans with (2 * A * D).
    - apply Z.mul_lt_mono_pos_r; lia.
    - rewrite E1. apply Z.mul_le_mono_nonneg_l; [lia|].
      apply Z.mul_le_mono_nonneg_r; lia. }
  assert (Hlo : 4503599627370496 * (b * U) < 2 * (a * D)).
  { apply Z.lt_le_trans with (2 * (A * D)).
    - replace (2 * (A * D)) with (4503599627370496 * (2 * B * U)) by lia.
      apply Z.mul_lt_mono_pos_l; [lia|].
      apply Z.mul_lt_mono_pos_r; lia.
    - apply Z.mul_le_mono_nonneg_l; [lia|]. apply Z.mul_le_mono_nonneg_r; lia. }
  assert (HbU : 0 < b * U) by (apply Z.mul_pos_pos; lia).
  destruct (Z.ltb_spec (a * D / (b * U)) 4503599627370496) as [S|S].
  - rewrite <- EU1, <- ED1. clear EU1 ED1 EU ED.
    apply div_lt_bound in S; [|assumption].
    assert (X : a * D1 * U = 2 * (a * D) * U1).
    { replace (a * D1 * U) with (a * (D1 * U)) by ring. rewrite R. ring. }
    split.
    + apply (Z.mul_le_mono_pos_r _ _ U HU). rewrite X.
      replace (4503599627370496 * (b * U1) * U) with (4503599627370496 * (b * U) * U1) by ring.
      apply Z.mul_le_mono_nonneg_r; lia.
    + apply (Z.mul_lt_mono_pos_r U _ _ HU). rewrite X.
      replace (9007199254740992 * (b * U1) * U) with (2 * (4503599627370496 * (b * U)) * U1) by ring.
      apply Z.mul_lt_mono_pos_r; lia.
  - rewrite <- EU, <- ED. split; [|assumption]. apply div_ge_bound in S; assumption.
Qed.

Lemma mantissa_bounds a b :
  0 < a -> 0 < b -> 2 ^ 52 <= mantissa a b <= 2 ^ 53.
Proof.
  intros Ha Hb. destruct (exponent_normal a b Ha Hb) as [L U].
  unfold mantissa. cbv zeta.
  pose proof (up_pos (exponent a b)) as HU.
  assert (Hd : 0 < b * up (exponent a b)) by (apply Z.mul_pos_pos; lia).
  pose proof (rhe_bounds (a * down (exponent a b)) (b * up (exponent a b))) as [B1 B2].
  split.
  - apply Z.le_trans with (2 := B1). apply Z.div_le_lower_bound; [assumption|].
    rewrite (Z.mul_comm _ (2 ^ 52)). exact L.
  - apply Z.le_trans with (1 := B2).
    assert (a * down (exponent a b) / (b * up (exponent a b)) < 2 ^ 53); [|lia].
    apply Z.div_lt_upper_bound; [assumption|]. rewrite (Z.mul_comm _ (2 ^ 53)). exact U.
Qed.

Lemma exponent_mono a b a' b' :
  0 < a -> 0 < b -> 0 < a' -> 0 < b' -> a * b' <= a' * b ->
  exponent a b <= exponent a' b'.
Proof.
  intros Ha Hb Ha' Hb' H.
  destruct (exponent_normal a b Ha Hb) as [L _].
  destruct (exponent_normal a' b' Ha' Hb') as [_ U'].
  destruct (Z.le_gt_cases (exponent a b) (exponent a' b')) as [|G]; [assumption|exfalso].
  pose proof (scale_rel_ge _ _ G) as R.
  pose proof (up_pos (exponent a b)). pose proof (down_pos (exponent a b)).
  pose proof (up_pos (exponent a' b')). pose proof (down_pos (exponent a' b')).
  remember (up (exponent a b)) as U. remember (down (exponent a b)) as D.
  remember (up (exponent a' b')) as U1. remember (down (exponent a' b')) as D1.
  change (2 ^ 53) with (2 * 4503599627370496) in U'.
  change (2 ^ 52) with 4503599627370496 in L.
  remember 4503599627370496 as K.
  assert (HK : 0 < K) by lia.
  clear - Ha Hb Ha' Hb' H L U' R H0 H1 H2 H3 HK.
  assert (S1 : a' * D1 * (b * U) < 2 * K * (b' * U1) * (b * U)).
  { apply Z.mul_lt_mono_pos_r; [apply Z.mul_pos_pos; lia|lia]. }
  assert (S2 : K * (b * U) * (2 * b' * U1) <= a * D * (2 * b' * U1)).
  { apply Z.mul_le_mono_nonneg_r; [|assumption].
    apply Z.mul_nonneg_nonneg; [apply Z.mul_nonneg_nonneg|]; lia. }
  assert (S3 : a * b' * (2 * (D * U1)) <= a' * b * (D1 * U)).
  { apply Z.mul_le_mono_nonneg; try assumption.
    - apply Z.mul_nonneg_nonneg; lia.
    - apply Z.mul_nonneg_nonneg; [lia|]. apply Z.mul_nonneg_nonneg; lia. }
  replace (a * D * (2 * b' * U1)) with (a * b' * (2 * (D * U1))) in S2 by ring.
  replace (a' * b * (D1 * U)) with (a' * D1 * (b * U)) in S3 by ring.
  replace (2 * K * (b' * U1) * (b * U)) with (K * (b * U) * (2 * b' * U1)) in S1 by ring.
  lia.
Qed.

Lemma trunc_nonneg m e : 0 <= m -> 0 <= trunc m e.
Proof.
  intros H. unfold trunc. pose proof (up_pos e). pose proof (down_pos e).
  apply Z.div_pos; [apply Z.mul_nonneg_nonneg|]; lia.
Qed.

(** The truncated rounded quotient grows with the exact quotient. *)
Lemma trunc_round_mono a b a' b' :
  0 < a -> 0 < b -> 0 < a' -> 0 < b' -> a * b' <= a' * b ->
  trunc (mantissa a b) (exponent a b) <= trunc (mantissa a' b') (exponent a' b').
Proof.
  intros Ha Hb Ha' Hb' H.
  pose proof (exponent_mono a b a' b' Ha Hb Ha' Hb' H) as He.
  pose proof (mantissa_bounds a b Ha Hb) as [_ Mu].
  pose proof (mantissa_bounds a' b' Ha' Hb') as [Ml' _].
  pose proof (up_pos (exponent a b)). pose proof (down_pos (exponent a b)).
  pose proof (up_pos (exponent a' b')). pose proof (down_pos (exponent a' b')).
  apply Z.le_lteq in He. destruct He as [He|He].
  - pose proof (scale_rel_ge _ _ He) as R.
    unfold trunc. apply floor_mono; try assumption.
    remember (up (exponent a b)) as U. remember (down (exponent a b)) as D.
    remember (up (exponent a' b')) as U1. remember (down (exponent a' b')) as D1.
    change (2 ^ 53) with (2 * 4503599627370496) in Mu.
    change (2 ^ 52) with 4503599627370496 in Ml'.
    remember 4503599627370496 as K. assert (0 < K) by lia.
    apply Z.le_trans with (2 * K * (U * D1)).
    + replace (mantissa a b * U * D1) with (mantissa a b * (U * D1)) by ring.
      apply Z.mul_le_mono_nonneg_r; [apply Z.mul_nonneg_nonneg; lia|assumption].
    + apply Z.le_trans with (K * (D * U1)).
      * replace (2 * K * (U * D1)) with (K * (2 * (D1 * U))) by ring.
        apply Z.mul_le_mono_nonneg_l; lia.
      * replace (mantissa a' b' * U1 * D) with (mantissa a' b' * (D * U1)) by ring.
        apply Z.mul_le_mono_nonneg_r; [apply Z.mul_nonneg_nonneg; lia|assumption].
  - assert (Hm : mantissa a b <= mantissa a' b').
    { unfold mantissa. cbv zeta. rewrite <- He.
      apply rhe_mono; try (apply Z.mul_pos_pos; lia).
      replace (a * down (exponent a b) * (b' * up (exponent a b)))
        with (a * b' * (down (exponent a b) * up (exponent a b))) by ring.
      replace (a' * down (exponent a b) * (b * up (exponent a b)))
        with (a' * b * (down (exponent a b) * up (exponent a b))) by ring.
      apply Z.mul_le_mono_nonneg_r; [apply Z.mul_nonneg_nonneg; lia|assumption]. }
    rewrite <- He. unfold trunc. apply Z.div_le_mono; [assumption|].
    apply Z.mul_le_mono_nonneg_r; lia.
Qed.

Lemma int_truediv_pos a b :
  0 < a -> 0 < b ->
  int_truediv a b = trunc (mantissa a b) (exponent a b).
Proof.
  intros Ha Hb. unfold int_truediv.
  destruct (Z.eqb_spec a 0); [lia|]. destruct (Z.eqb_spec b 0); [lia|].
  cbn [orb]. rewrite (Z.abs_eq a), (Z.abs_eq b) by lia.
  rewrite (Z.sgn_pos a), (Z.sgn_pos b) by lia. lia.
Qed.

Lemma int_truediv_zero b : int_truediv 0 b = 0.
Proof. reflexivity. Qed.

Lemma int_truediv_nonneg a b : 0 <= a -> 0 < b -> 0 <= int_truediv a b.
Proof.
  intros Ha Hb. destruct (Z.eq_dec a 0) as [->|]; [rewrite int_truediv_zero; lia|].
  rewrite int_truediv_pos by lia. apply trunc_nonneg.
  pose proof (mantissa_bounds a b ltac:(lia) Hb). change (2 ^ 52) with 4503599627370496 in *. lia.
Qed.

(** [int(a / b)] grows with the exact quotient [a / b]. *)
Lemma int_truediv_mono a b a' b' :
  0 <= a -> 0 < b -> 0 < b' -> a * b' <= a' * b ->
  int_truediv a b <= int_truediv a' b'.
Proof.
  intros Ha Hb Hb' H.
  destruct (Z.eq_dec a 0) as [->|Na].
  - rewrite int_truediv_zero. apply int_truediv_nonneg; [|assumption]. nia.
  - assert (0 < a') by nia.
    rewrite !int_truediv_pos by lia. apply trunc_round_mono; lia.
Qed.

(** Equal quotients give equal results. *)
Lemma int_truediv_ratio a b a' b' :
  0 <= a -> 0 < b -> 0 <= a' -> 0 < b' -> a * b' = a' * b ->
  int_truediv a b = int_truediv a' b'.
Proof.
  intros. apply Z.le_antisymm; apply int_truediv_mono; lia.
Qed.

End PyDivFacts.

(* ------------------------------------------------------------------ *)
(** ** Progress events of a transfer with a known total *)

Lemma percent_of_known total d :
  total <> 0 -> percent_of total d = PyDiv.int_truediv (d * 100) total.
Proof.
  intros Ht. unfold percent_of.
  now replace (total =? 0) with false by (symmetry; apply Z.eqb_neq; lia).
Qed.

Lemma percent_of_zero total : percent_of total 0 = 0.
Proof. unfold percent_of. destruct (total =? 0); reflexivity. Qed.

Lemma percent_of_mono total d d' :
  0 < total -> 0 <= d -> d <= d' ->
  percent_of total d <= percent_of total d'.
Proof.
  intros Ht Hd Hle. rewrite !percent_of_known by lia.
  apply PyDivFacts.int_truediv_mono; nia.
Qed.

Lemma percent_of_total total : 0 < total -> percent_of total total = 100.
Proof.
  intros Ht. rewrite percent_of_known by lia.
  now rewrite (PyDivFacts.int_truediv_ratio _ _ 100 1) by lia.
Qed.

Lemma percent_of_le_100 total d :
  0 < total -> 0 <= d -> d <= total -> percent_of total d <= 100.
Proof.
  intros Ht Hd Hle. rewrite <- (percent_of_total total Ht).
  now apply percent_of_mono.
Qed.

(** Up to [2^46] bytes the rounding of the quotient cannot reach 100 before
    the count reaches the total: the largest quotient below 100 is
    [100 - 1/total], and [100 - 2^(-46)] is a double. *)
Lemma percent_of_below total d :
  0 < total -> total <= 2 ^ 46 -> 0 <= d -> d < total ->
  percent_of total d <= 99.
Proof.
  intros Ht Hmax Hd Hlt. rewrite percent_of_known by lia.
  change (2 ^ 46) with 70368744177664 in Hmax.
  apply Z.le_trans
    with (PyDiv.int_truediv (100 * 70368744177664 - 1) 70368744177664).
  - apply PyDivFacts.int_truediv_mono; lia.
  - vm_compute. discriminate.
Qed.

(** Above [2^46] bytes it can: with a total of 15 * 10^15 bytes the
    percentage is 100 one byte short, and with 1000000000000049 bytes the
    count 980000000000048 shows 98 where the exact quotient is below 98. *)
Example percent_of_rounds_to_nearest :
  percent_of 15000000000000000 14999999999999999 = 100 /\
  percent_of 1000000000000049 980000000000048 = 98 /\
  980000000000048 * 100 / 1000000000000049 = 97.
Proof. repeat split. Qed.

Lemma should_emit_true p lp :
  should_emit p lp = true -> p <> lp /\ p mod 2 = 0.
Proof.
  unfold should_emit. rewrite andb_true_iff, negb_true_iff, Z.eqb_neq.
  intros [Hne H]. split; [exact Hne|].
  rewrite !orb_true_iff, !Z.eqb_eq in H.
  destruct H as [[H|H]|H]; [exact H | subst p; reflexivity ..].
Qed.

Lemma should_emit_false p lp :
  should_emit p lp = false -> p mod 2 = 0 -> p = lp.
Proof.
  unfold should_emit. intros H Heven.
  apply Z.eqb_eq in Heven. rewrite Heven in H. cbn [orb] in H.
  rewrite andb_true_r, negb_false_iff in H. now apply Z.eqb_eq.
Qed.

Lemma ascending_weaken lo lo' l : lo' <= lo -> ascending lo l -> ascending lo' l.
Proof. destruct l; cbn; [auto|]. intros ? (? & ? & ?). repeat split; auto; lia. Qed.

(** The events of the loop carry strictly increasing even percentages,
    above the last one emitted before, each the percentage of a running
    count no larger than the final one. *)
Lemma stream_progress_ascending max_size total items :
  0 < total ->
  forall tmp d lp,
    appending tmp ->
    0 <= d ->
    lp <= percent_of total d ->
    let s := stream_chunks max_size total items tmp d lp in
    d <= received s /\
    ascending lp (map percent (progress s)) /\
    Forall (fun p => p <= percent_of total (received s))
           (map percent (progress s)).
Proof.
  intros Ht.
  induction items as [|[[|b c]|] rest IH]; intros tmp d lp Happ Hd Hlp;
    cbv zeta.
  1,2,4: cbn; repeat split; auto; lia.
  assert (Hlen : 0 < Z.of_nat (length (b :: c))) by (cbn [length]; lia).
  stream_turn IH.
  - cbn. repeat split; auto; lia.
  - set (d' := d + Z.of_nat (length (b :: c))) in *.
    destruct (IH tmp' d' (percent_of total d') Happ' ltac:(lia) ltac:(lia))
      as (Hrec & Hasc & Hall).
    apply should_emit_true in Hemit. destruct Hemit as [Hne Heven].
    assert (percent_of total d <= percent_of total d')
      by (apply percent_of_mono; lia).
    cbn [map percent ascending]. repeat split; auto; try lia.
    constructor; [|exact Hall].
    apply percent_of_mono; lia.
  - set (d' := d + Z.of_nat (length (b :: c))) in *.
    assert (percent_of total d <= percent_of total d')
      by (apply percent_of_mono; lia).
    destruct (IH tmp' d' lp Happ' ltac:(lia) ltac:(lia))
      as (Hrec & Hasc & Hall).
    repeat split; auto; lia.
Qed.

(** While the running count stays within the total, the loop emits a 100%
    event exactly when a chunk is still to come, no 100% event was emitted
    before, and the percentage of the final count is 100. *)
Lemma stream_progress_hundred max_size total items :
  0 < total ->
  forall tmp d lp,
    appending tmp ->
    0 <= d ->
    lp <= percent_of total d ->
    let s := stream_chunks max_size total items tmp d lp in
    received s <= total ->
    count_occ Z.eq_dec (map percent (progress s)) 100 =
    if (lp <? 100) && (d <? received s)
       && (percent_of total (received s) =? 100)
    then 1%nat else 0%nat.
Proof.
  intros Ht.
  induction items as [|[[|b c]|] rest IH]; intros tmp d lp Happ Hd Hlp;
    cbv zeta.
  1,2,4: cbn [stream_chunks received progress map count_occ]; intros _;
         now rewrite Z.ltb_irrefl, andb_false_r.
  assert (Hlen : 0 < Z.of_nat (length (b :: c))) by (cbn [length]; lia).
  stream_turn IH.
  - rewrite over_limit_advertised in Hover by lia. discriminate.
  - set (d' := d + Z.of_nat (length (b :: c))) in *.
    intros Hrec.
    destruct (stream_progress_ascending max_size total rest Ht tmp' d'
                (percent_of total d') Happ' ltac:(lia) ltac:(lia))
      as (Hge & _ & _).
    cbv zeta in Hge.
    specialize (IH tmp' d' (percent_of total d') Happ' ltac:(lia)
                  ltac:(lia) Hrec).
    cbn [map percent count_occ]. rewrite IH. clear IH.
    apply should_emit_true in Hemit. destruct Hemit as [Hne _].
    set (n := received (stream_chunks max_size total rest tmp' d'
                          (percent_of total d'))) in *.
    assert (Hn : 0 <= n) by lia.
    pose proof (percent_of_mono total d d' Ht Hd ltac:(lia)) as Hm1.
    pose proof (percent_of_mono total d' n Ht ltac:(lia) Hge) as Hm2.
    pose proof (percent_of_le_100 total n Ht Hn Hrec) as Hm3.
    assert (Hsame : d' = n -> percent_of total n = percent_of total d')
      by (intros <-; reflexivity).
    destruct (Z.eq_dec (percent_of total d') 100);
      repeat match goal with
             | |- context [?x <? ?y] => destruct (Z.ltb_spec x y)
             | |- context [?x =? ?y] => destruct (Z.eqb_spec x y)
             end; cbn [andb]; try reflexivity; try lia.
  - set (d' := d + Z.of_nat (length (b :: c))) in *.
    intros Hrec.
    pose proof (percent_of_mono total d d' Ht Hd ltac:(lia)) as Hm1.
    destruct (stream_progress_ascending max_size total rest Ht tmp' d'
                lp Happ' ltac:(lia) ltac:(lia))
      as (Hge & _ & _).
    cbv zeta in Hge.
    specialize (IH tmp' d' lp Happ' ltac:(lia) ltac:(lia) Hrec).
    rewrite IH. clear IH.
    set (n := received (stream_chunks max_size total rest tmp' d' lp)) in *.
    assert (Hsame : d' = n -> percent_of total n = 100 -> lp = 100).
    { intros <- Hp. rewrite Hp in Hemit.
      symmetry. apply should_emit_false in Hemit; [exact Hemit | reflexivity]. }
    repeat match goal with
           | |- context [?x <? ?y] => destruct (Z.ltb_spec x y)
           | |- context [?x =? ?y] => destruct (Z.eqb_spec x y)
           end; cbn [andb]; try reflexivity; try lia.
Qed.

(** At most [hi/2 - lo/2] even values fit strictly above [lo] and up to
    [hi]. *)
Lemma ascending_length l :
  forall lo hi,
    lo <= hi ->
    ascending lo l ->
    Forall (fun p => p <= hi) l ->
    Z.of_nat (length l) <= hi / 2 - lo / 2.
Proof.
  induction l as [|x l IH]; intros lo hi Hle Hasc Hall.
  - cbn [length]. assert (lo / 2 <= hi / 2) by (apply Z.div_le_mono; lia). lia.
  - destruct Hasc as (Hlt & Heven & Hasc). inversion Hall as [|? ? Hx Hl]; subst.
    specialize (IH x hi Hx Hasc Hl).
    assert (lo / 2 < x / 2).
    { apply Z.div_lt_upper_bound; [lia|].
      pose proof (Z.div_mod x 2 ltac:(lia)). lia. }
    cbn [length]. lia.
Qed.

Lemma ascending_sorted l :
  forall lo hi,
    ascending lo l ->
    Forall (fun p => p <= hi) l ->
    StronglySorted Z.le (l ++ [hi]).
Proof.
  induction l as [|x l IH]; intros lo hi Hasc Hall.
  - cbn. repeat constructor.
  - destruct Hasc as (Hlt & Heven & Hasc). inversion Hall as [|? ? Hx Hl]; subst.
    cbn [app]. constructor; [eapply IH; eauto|].
    apply Forall_app. split; [|repeat constructor; exact Hx].
    clear -Hasc. revert x Hasc.
    induction l as [|y l IHl]; intros x Hasc; [constructor|].
    destruct Hasc as (Hxy & _ & Hasc). constructor; [lia|].
    apply IHl. eapply ascending_weaken; [|exact Hasc]. lia.
Qed.

(** C1 (as amended). For every transfer that returns, whose total is
    known and whose body delivers no more than that total: the percentages
    of the progress events never decrease; the events before the last carry
    strictly increasing even percentages (so each differs from the one
    emitted before it); the last event is the unconditional 100% one; there
    are at most 52 events, whatever the total; and the events at 100% number
    two when the percentage of the delivered count is 100 (the loop's own
    and the final one) and one otherwise.  For a total of at most [2^46]
    bytes that is: two when the body delivers the total exactly, one when
    it falls short. *)
Theorem progress_events_known_total :
  forall (resp : response) (mb max_size total : Z) (r : transfer_result),
    content_length resp = Some total ->
    0 < total ->
    let run := download_into_spooled_file (inr resp) mb max_size in
    returned run = inr r ->
    total_bytes r <= total ->
    let ps := map percent (events run) in
    StronglySorted Z.le ps /\
    ascending (-1) (removelast ps) /\
    last ps 0 = 100 /\
    (length ps <= 52)%nat /\
    count_occ Z.eq_dec ps 100 =
      (if percent_of total (total_bytes r) =? 100 then 2%nat else 1%nat) /\
    (total <= 2 ^ 46 ->
     count_occ Z.eq_dec ps 100 =
       (if total_bytes r =? total then 2%nat else 1%nat)).
Proof.
  intros resp mb max_size total r Hlen Ht run Hret Hle ps.
  destruct (download_returned _ _ _ _ Hret)
    as (resp' & [= <-] & _ & _ & _ & -> & _ & Hev & _).
  fold run in Hev. cbv zeta in Hev.
  assert (Hadv : advertised resp = total) by (unfold advertised; now rewrite Hlen).
  rewrite Hadv in *. cbn [total_bytes] in *.
  set (s := stream_chunks max_size total (body resp)
              (Spooled.create (mb * 1024 * 1024)) 0 (-1)) in *.
  assert (Hlp : -1 <= percent_of total 0)
    by (rewrite percent_of_zero; lia).
  destruct (stream_progress_ascending max_size total (body resp) Ht
              _ 0 (-1) (create_appending (mb * 1024 * 1024)) ltac:(lia) Hlp)
    as (Hge & Hasc & Hall).
  pose proof (stream_progress_hundred max_size total (body resp) Ht
                _ 0 (-1) (create_appending (mb * 1024 * 1024)) ltac:(lia) Hlp
                Hle) as Hcount.
  cbv zeta in Hge, Hasc, Hall, Hcount. fold s in Hge, Hasc, Hall, Hcount.
  assert (Hall' : Forall (fun p => p <= 100) (map percent (progress s))).
  { eapply Forall_impl; [|exact Hall]. cbv beta. intros p Hp.
    etransitivity; [exact Hp|]. apply percent_of_le_100; lia. }
  assert (Hps : ps = map percent (progress s) ++ [100])
    by (subst ps; rewrite Hev, map_app; reflexivity).
  assert (Hhundred : count_occ Z.eq_dec ps 100 =
            (if percent_of total (received s) =? 100 then 2%nat else 1%nat)).
  { rewrite Hps, count_occ_app, Hcount. change (-1 <? 100) with true.
    cbn [andb count_occ].
    destruct (Z.ltb_spec 0 (received s)) as [Hpos|Hzero]; cbn [andb].
    - destruct (percent_of total (received s) =? 100); reflexivity.
    - assert (received s = 0) as -> by lia. now rewrite percent_of_zero. }
  rewrite Hhundred. rewrite Hps. repeat split.
  - eapply ascending_sorted; eauto.
  - now rewrite removelast_last.
  - apply last_last.
  - pose proof (ascending_length _ (-1) 100 ltac:(lia) Hasc Hall') as Hn.
    rewrite length_app. cbn [length]. change (100 / 2 - -1 / 2) with 51 in Hn.
    lia.
  - intros Hmax.
    destruct (Z.eqb_spec (received s) total) as [->|Hne].
    + now rewrite percent_of_total.
    + pose proof (percent_of_below total (received s) Ht Hmax ltac:(lia)
                    ltac:(lia)).
      destruct (Z.eqb_spec (percent_of total (received s)) 100);
        [lia | reflexivity].
Qed.

(** A 7-byte body against an advertised total of 8, in chunks of 1, 2 and
    4 bytes: the events are 12%, 100%. *)
Lemma progress_events_known_total_witness :
  let resp := mkResponse 200 (Some 8) None (py "f.bin")
                [Data [x01]; Data [x02; x03]; Data [x04; x05; x06; x07]] in
  let ps := map percent (events (download_into_spooled_file (inr resp) 16 0))
  in
  StronglySorted Z.le ps /\ (length ps <= 52)%nat /\
  count_occ Z.eq_dec ps 100 = 1%nat.
Proof.
  intros resp ps.
  destruct (progress_events_known_total resp 16 0 8
              (mkResult 7 None (py "f.bin")) eq_refl ltac:(lia) eq_refl
              ltac:(cbn; lia))
    as (Hsorted & _ & _ & Hlen & _ & Hcount).
  split; [exact Hsorted | split; [exact Hlen|]].
  apply Hcount. vm_compute. discriminate.
Defined.

(** C1 as stated fails on the plainest transfer: a body that delivers the
    advertised 4 bytes in one chunk makes the loop emit 100%, and the
    unconditional final event is a second one. *)
Lemma two_hundred_percent_events :
  let resp := mkResponse 200 (Some 4) None (py "f.bin")
                [Data [x01; x02; x03; x04]] in
  let run := download_into_spooled_file (inr resp) 16 0 in
  returned run = inr (mkResult 4 None (py "f.bin")) /\
  events run = [mkEvent 100 4 4; mkEvent 100 4 4] /\
  count_occ Z.eq_dec (map percent (events run)) 100 <> 1%nat.
Proof. repeat split. discriminate. Qed.

(* ------------------------------------------------------------------ *)
(** ** The delivery orchestrator *)

(** C8. In archive mode, once the upload to the archive has gone through
    and the copy to the requester fails, the handler seeks the buffer to 0
    and uploads it to the requester: that is the only upload the requester
    gets, it carries the whole content, and the seek comes right before it.
    The copy's own failure never reaches a status text: the user is shown
    an error only when the fallback upload fails (that failure), or when
    the closing status edit itself is rejected. *)
Theorem copy_failure_falls_back_once :
  forall (p : platform) (c : N) (ch : pystr) (video : bool)
         (w : world) (f : Spooled.t),
    let dc := c :: ch in
    let archived := upload_call video (Archive dc) (Spooled.content f)
                      SavedForUser in
    let fallback := upload_call video Requester (Spooled.content f)
                      HereIsYourFile in
    spooled w = Some f ->
    Spooled.closed f = false ->
    p (EditText UploadingToDumb) = false ->
    p archived = false ->
    p (EditText CopyingToYou) = false ->
    p (CopyMessage dc) = true ->
    exists new pre post,
      log (snd (deliver p (Some dc) video w)) = log w ++ new /\
      requester_uploads new = [Spooled.content f] /\
      new = pre ++ [Platform (CopyMessage dc); FileSeek 0; Platform fallback]
                ++ post /\
      surfaced_errors new =
        (if p fallback then [PlatformError AtRequesterSend]
         else if p (EditText DoneArchived) then [PlatformError AtEdit]
         else []).
Proof.
  intros p c ch video [sp lg rl uf] [m content ps rolled cl] dc archived
         fallback Hsp Hcl Hup Harch Hcopying Hcopy.
  cbn in Hsp, Hcl. subst sp cl.
  subst archived fallback dc. cbn [Spooled.content] in *.
  unfold deliver. cbv beta iota zeta.
  set (dc := c :: ch) in *. clearbody dc.
  set (post :=
         if p (upload_call video Requester content HereIsYourFile)
         then [Platform (EditText
                           (UploadFailed (PlatformError AtRequesterSend)));
               FileClose]
         else if p (EditText DoneArchived)
              then [Platform (EditText DoneArchived);
                    Platform (EditText (UploadFailed (PlatformError AtEdit)));
                    FileClose]
              else [Platform (EditText DoneArchived); FileClose]).
  set (pre := [FileSeek 0; Platform (EditText UploadingToDumb);
               Platform (upload_call video (Archive dc) content SavedForUser);
               Platform (EditText CopyingToYou)]).
  exists (pre ++ [Platform (CopyMessage dc); FileSeek 0;
                  Platform (upload_call video Requester content
                              HereIsYourFile)] ++ post), pre, post.
  subst pre post.
  unfold try_finally, try_except, bind, file_seek, file_close, send,
    edit_text, platform_call, file_read, on_file, record, stat_incr, ret,
    raise.
  destruct video; cbn in Harch |- *;
    rewrite Hup; cbn; rewrite Harch; cbn; rewrite Hcopying; cbn;
    rewrite Hcopy; cbn;
    match goal with
    | |- context [p (?send Requester content HereIsYourFile)] =>
        destruct (p (send Requester content HereIsYourFile))
    end; cbn;
    repeat match goal with
           | |- context [if p ?c then _ else _] => destruct (p c); cbn
           end;
    rewrite <- ?app_assoc; cbn; repeat split.
Qed.

Lemma copy_failure_falls_back_once_witness :
  let f := Spooled.mk 16 [x01; x02; x03] 0 false false in
  let w := mkWorld (Some f) [] 1 0 in
  exists new pre post,
    log (snd (deliver rejects_copy (Some (py "@dumb")) true w)) = new /\
    requester_uploads new = [[x01; x02; x03]] /\
    new = pre ++ [Platform (CopyMessage (py "@dumb")); FileSeek 0;
                  Platform (SendVideo Requester [x01; x02; x03] HereIsYourFile)]
              ++ post /\
    surfaced_errors new = [].
Proof.
  intros f w.
  exact (copy_failure_falls_back_once rejects_copy 64%N (py "dumb") true w f
           eq_refl eq_refl eq_refl eq_refl eq_refl eq_refl).
Defined.

(* ------------------------------------------------------------------ *)
(** ** Release of the buffer *)

Lemma keeps_ret {A} (a : A) : keeps_file (ret a).
Proof. intros w H; exact H. Qed.

Lemma keeps_raise {A} e : keeps_file (@raise A e).
Proof. intros w H; exact H. Qed.

Lemma keeps_record o : keeps_file (record o).
Proof. intros w H; exact H. Qed.

Lemma keeps_stat_incr k inc : keeps_file (stat_incr k inc).
Proof. intros w H; destruct k; exact H. Qed.

Lemma keeps_on_file {A} (f : Spooled.t -> exn + (A * Spooled.t)) :
  keeps_file (on_file f).
Proof.
  intros w H. unfold on_file.
  destruct (spooled w) as [file|] eqn:E; [|congruence].
  destruct (f file) as [e|[a file']]; cbn; [|discriminate].
  rewrite E. discriminate.
Qed.

Lemma keeps_bind {A B} (m : M A) (k : A -> M B) :
  keeps_file m -> (forall a, keeps_file (k a)) -> keeps_file (bind m k).
Proof.
  intros Hm Hk w H. unfold bind. specialize (Hm w H).
  destruct (m w) as [[e|a] w']; cbn in *; [exact Hm|].
  now apply Hk.
Qed.

Lemma keeps_try_except {A} (m : M A) (h : exn -> M A) :
  keeps_file m -> (forall e, keeps_file (h e)) -> keeps_file (try_except m h).
Proof.
  intros Hm Hh w H. unfold try_except. specialize (Hm w H).
  destruct (m w) as [[e|a] w']; cbn in *; [|exact Hm].
  now apply Hh.
Qed.

Lemma keeps_platform_call p c : keeps_file (platform_call p c).
Proof.
  apply keeps_bind; [apply keeps_record|]. intros _.
  destruct (p c); [apply keeps_raise | apply keeps_ret].
Qed.

Lemma keeps_file_seek offset : keeps_file (file_seek offset).
Proof.
  apply keeps_bind; [apply keeps_record|]. intros _. apply keeps_on_file.
Qed.

Lemma keeps_send p video to c : keeps_file (send p video to c).
Proof.
  apply keeps_bind; [apply keeps_on_file|]. intros data.
  apply keeps_platform_call.
Qed.

Lemma keeps_edit_text p t : keeps_file (edit_text p t).
Proof. apply keeps_platform_call. Qed.

Create HintDb keeps.

#[local] Hint Resolve keeps_ret keeps_raise keeps_record keeps_stat_incr
  keeps_platform_call keeps_edit_text keeps_file_seek keeps_send : keeps.

(** Walk a computation built from the primitives above. *)
Ltac keeps :=
  repeat first
    [ solve [auto with keeps]
    | apply keeps_bind; [|intros ?]
    | apply keeps_try_except; [|intros ?] ].

(** The cleanup of the [finally] clause closes the buffer. *)
Lemma cleanup_closes w f :
  spooled w = Some f ->
  exists w',
    try_except file_close (fun _ => ret tt) w = (inr tt, w') /\
    spooled w' = Some (Spooled.close f) /\
    log w' = log w ++ [FileClose].
Proof.
  intros H. unfold try_except, file_close, bind, record, on_file. cbn.
  rewrite H. eexists. repeat split.
Qed.

(** Once the handler holds a buffer, every way through the upload stage
    ends with that buffer closed. *)
Lemma deliver_closes p dc video w :
  spooled w <> None ->
  exists f,
    spooled (snd (deliver p dc video w)) = Some f /\
    Spooled.closed f = true.
Proof.
  intros H. unfold deliver, try_finally.
  match goal with
  | |- context [match ?body w with _ => _ end] =>
      assert (Hk : keeps_file body)
  end.
  { destruct dc as [[|c ch]|]; keeps. }
  specialize (Hk w H).
  match goal with
  | |- context [match ?body w with _ => _ end] =>
      destruct (body w) as [r w'] eqn:E
  end.
  cbn [snd] in Hk. destruct (spooled w') as [f|] eqn:Hf; [|congruence].
  destruct (cleanup_closes w' f Hf) as (w'' & -> & Hs & _).
  exists (Spooled.close f). split; [exact Hs | reflexivity].
Qed.

Lemma download_status_cb_quiet p e w :
  exists w' o,
    download_status_cb p e w = (inr tt, w') /\
    spooled w' = spooled w /\
    log w' = log w ++ [o] /\
    is_status_edit o = true.
Proof.
  unfold download_status_cb, try_except, edit_text, platform_call, bind,
    record.
  destruct (negb (totalBytes e =? 0) && (totalBytes e >? 0)); cbn;
    match goal with |- context [p ?c] => destruct (p c) end; cbn;
    eexists _, _; repeat split.
Qed.

(** The progress callback never raises, never touches the buffer, and
    only edits the status message. *)
Lemma each_status_quiet p evs :
  forall w,
    exists w' l,
      each (download_status_cb p) evs w = (inr tt, w') /\
      spooled w' = spooled w /\
      log w' = log w ++ l /\
      forallb is_status_edit l = true.
Proof.
  induction evs as [|e evs IH]; intros w; cbn [each].
  - exists w, []. rewrite app_nil_r. repeat split.
  - unfold bind.
    destruct (download_status_cb_quiet p e w) as (w1 & o & -> & H1 & L1 & E1).
    destruct (IH w1) as (w2 & l & -> & H2 & L2 & E2).
    exists w2, (o :: l). repeat split; [congruence | |].
    + rewrite L2, L1, <- app_assoc. reflexivity.
    + cbn [forallb]. now rewrite E1, E2.
Qed.

(** Every exit of the handler on a download that raised: the handler only
    edits the status message, and the buffer stays as the failed call left
    it, neither read nor closed. *)
Lemma text_handler_after_failed_download cfg p api_data c u e :
  extract_url api_data = Some (c :: u) ->
  let run := download_into_spooled_file (fetch cfg (c :: u))
               (TMP_SPOOL_LIMIT_MB cfg) (MAX_FILE_SIZE cfg) in
  returned run = inl e ->
  let w := snd (text_handler cfg p api_data world0) in
  spooled w = Some (tmp run) /\
  forallb is_status_edit (log w) = true.
Proof.
  intros Hurl run Hret w.
  assert (H : exists l rl uf,
             forallb is_status_edit l = true /\
             w = mkWorld (Some (tmp run)) l rl uf).
  { subst w. unfold text_handler. rewrite Hurl. unfold await_download.
    fold run. unfold bind, try_except, stat_incr, set_spooled.
    cbn [world0 spooled log resolved_links uploaded_files].
    match goal with
    | |- context [each ?cb ?evs ?w] =>
        destruct (each_status_quiet p evs w) as (w1 & l & -> & Hs & Hl & He)
    end.
    rewrite Hret. unfold raise, edit_text, platform_call, bind, record, ret.
    destruct w1 as [sp lg rl uf]. cbn in Hs, Hl |- *. subst sp lg.
    exists (l ++ [Platform (EditText (DownloadFailed e))]), rl, uf.
    split; [rewrite forallb_app, He; reflexivity|].
    destruct (p (EditText (DownloadFailed e))); reflexivity. }
  destruct H as (l & rl & uf & He & ->). split; [reflexivity | exact He].
Qed.

(** A buffer under population is open: the one a failed call leaves behind
    has not been closed by the call either. *)
Lemma failed_download_leaves_buffer_open reply mb max_size e :
  let run := download_into_spooled_file reply mb max_size in
  returned run = inl e ->
  Spooled.closed (tmp run) = false.
Proof.
  cbv zeta. unfold download_into_spooled_file.
  destruct reply as [e'|resp]; [reflexivity|].
  destruct (negb (status resp =? 200)); [reflexivity|].
  destruct (declared_too_large max_size (advertised resp)); [reflexivity|].
  pose proof (stream_appending max_size (advertised resp) (body resp)
                _ 0 (-1) (create_appending (mb * 1024 * 1024))) as [Hc _].
  destruct (raised _); [intros _; exact Hc|].
  rewrite seek_open by exact Hc. discriminate.
Qed.

(** Every exit of the handler after a download that returned leaves the
    buffer closed: success, upload failure, copy-fallback failure. *)
Lemma text_handler_closes_after_download cfg p api_data c u r :
  extract_url api_data = Some (c :: u) ->
  returned (download_into_spooled_file (fetch cfg (c :: u))
              (TMP_SPOOL_LIMIT_MB cfg) (MAX_FILE_SIZE cfg)) = inr r ->
  exists f,
    spooled (snd (text_handler cfg p api_data world0)) = Some f /\
    Spooled.closed f = true.
Proof.
  intros Hurl Hret. unfold text_handler. rewrite Hurl.
  unfold bind at 1. cbn [stat_incr].
  unfold bind at 1. unfold try_except, bind at 1, await_download.
  unfold bind at 1. cbn [set_spooled].
  unfold bind at 1.
  match goal with
  | |- context [each ?cb ?evs ?w] =>
      destruct (each_status_quiet p evs w) as (w1 & l & -> & Hs & _)
  end.
  rewrite Hret. cbn [ret].
  apply deliver_closes. rewrite Hs. discriminate.
Qed.

(** C2, at the exit the code misses.  A body of 3 + 2 bytes with no
    advertised length, under a limit of 4: the transfer raises mid-stream,
    the handler reports the failure and returns, and the buffer it created
    is left open, holding the 5 bytes written; no close was issued. *)
Theorem size_breach_leaves_buffer_open :
  let resp := mkResponse 200 None None (py "file.mp4")
                [Data [x01; x02; x03]; Data [x04; x05]] in
  let cfg := mkConfig 16 4 None true (fun _ => inr resp) in
  let api_data := JDict [(py "download", JStr (py "https://host/file.mp4"))] in
  text_handler cfg (fun _ => false) api_data world0 =
  (inr tt,
   mkWorld
     (Some (Spooled.mk (16 * 1024 * 1024) [x01; x02; x03; x04; x05] 5
                       false false))
     [Platform (EditText (DownloadingBytes 3));
      Platform (EditText (DownloadFailed (TooLargeStreamed 5 4)))]
     1 0).
Proof. reflexivity. Qed.

(* ================================================================== *)
(** * Further properties of the code *)

(** ** What the URL pattern matches *)

Lemma strip_prefix_app p s rest :
  strip_prefix p s = Some rest -> s = p ++ rest.
Proof.
  revert s. induction p as [|x p IH]; intros [|y s]; cbn; try discriminate.
  - now intros [= <-].
  - now intros [= <-].
  - destruct (N.eqb_spec x y); [|discriminate]. subst y.
    intros H. now rewrite (IH _ H).
Qed.

Lemma nonspace_run_split s :
  exists post,
    s = nonspace_run s ++ post /\
    forallb (fun c => negb (isspace c)) (nonspace_run s) = true /\
    ends_at_space post.
Proof.
  induction s as [|c s (post & Hs & Hall & Hpost)]; cbn [nonspace_run].
  - exists []. repeat split.
  - destruct (isspace c) eqn:E.
    + exists (c :: s). repeat split. exact E.
    + exists post. cbn [app forallb]. rewrite E, Hall. repeat split.
      * now rewrite <- Hs.
      * exact Hpost.
Qed.

Lemma scheme_at_shape pre s m :
  pre = py "http://" \/ pre = py "https://" ->
  Rx.scheme_at pre s = Some m ->
  url_shaped m /\ exists post, s = m ++ post /\ ends_at_space post.
Proof.
  unfold Rx.scheme_at. intros Hpre.
  destruct (strip_prefix pre s) as [rest|] eqn:E; [|discriminate].
  apply strip_prefix_app in E.
  destruct (nonspace_run_split rest) as (post & Hrest & Hall & Hpost).
  destruct (nonspace_run rest) as [|c run] eqn:R; [discriminate|].
  intros [= <-]. split.
  - exists pre, (c :: run). repeat split; auto. discriminate.
  - exists post. split; [|exact Hpost].
    rewrite E, Hrest at 1. now rewrite app_assoc.
Qed.

Lemma match_at_shape s m :
  Rx.match_at s = Some m ->
  url_shaped m /\ exists post, s = m ++ post /\ ends_at_space post.
Proof.
  unfold Rx.match_at.
  destruct (Rx.scheme_at (py "https://") s) eqn:E.
  - intros [= <-]. eapply scheme_at_shape; [|exact E]. now right.
  - apply scheme_at_shape. now left.
Qed.

Lemma search_shape s :
  forall m,
    Rx.search s = Some m ->
    exists pre post,
      s = pre ++ m ++ post /\
      url_shaped m /\
      ends_at_space post /\
      forall k, (k < length pre)%nat -> Rx.match_at (skipn k s) = None.
Proof.
  induction s as [|c s IH]; intros m; cbn [Rx.search].
  - destruct (Rx.match_at []) eqn:E; [|discriminate].
    intros [= <-]. apply match_at_shape in E.
    destruct E as (Hshape & post & Hs & Hpost).
    exists [], post. repeat split; auto. cbn. intros k Hk. lia.
  - destruct (Rx.match_at (c :: s)) eqn:E.
    + intros [= <-]. apply match_at_shape in E.
      destruct E as (Hshape & post & Hs & Hpost).
      exists [], post. repeat split; auto. cbn. intros k Hk. lia.
    + intros H. destruct (IH m H) as (pre & post & Hs & Hshape & Hpost & Hleft).
      exists (c :: pre), post. repeat split; auto.
      * cbn [app]. now rewrite <- Hs.
      * intros [|k] Hk; [exact E|]. cbn [skipn]. apply Hleft.
        cbn [length] in Hk. lia.
Qed.

(** X1. When [GENERIC_URL_RX.search] finds a match in a string, the match
    is a piece of that string made of [http://] or [https://] and a
    non-empty run without whitespace; it runs up to the next whitespace or
    the end of the string; and no match of the pattern begins further
    left. *)
Theorem search_leftmost_whole_url :
  forall (s m : pystr),
    Rx.search s = Some m ->
    exists pre post,
      s = pre ++ m ++ post /\
      url_shaped m /\
      ends_at_space post /\
      forall k, (k < length pre)%nat -> Rx.match_at (skipn k s) = None.
Proof. intros s m. apply search_shape. Qed.

Lemma search_leftmost_whole_url_witness :
  exists pre post,
    py "get http://h/p?q=1 now" = pre ++ py "http://h/p?q=1" ++ post /\
    url_shaped (py "http://h/p?q=1") /\
    ends_at_space post.
Proof.
  destruct (search_leftmost_whole_url (py "get http://h/p?q=1 now")
              (py "http://h/p?q=1") eq_refl)
    as (pre & post & Hs & Hshape & Hpost & _).
  exists pre, post. repeat split; assumption.
Defined.

(** ** What [extract_url] returns *)

Lemma url_shaped_http m : url_shaped m -> startswith http m = true.
Proof.
  intros (scheme & run & -> & [-> | ->] & _); reflexivity.
Qed.

Lemma search_http s m : Rx.search s = Some m -> startswith http m = true.
Proof.
  intros H. destruct (search_shape s m H) as (_ & _ & _ & Hshape & _).
  now apply url_shaped_http.
Qed.

Lemma first_some_url_of_http l u :
  first_some url_of l = Some u -> startswith http u = true.
Proof.
  induction l as [|s l IH]; cbn [first_some]; [discriminate|].
  destruct (url_of s) as [v|] eqn:E; [|exact IH].
  intros [= <-]. unfold url_of in E.
  destruct (startswith http s) eqn:S.
  - now injection E as <-.
  - now apply search_http in E.
Qed.

Lemma known_field_http d keys u :
  known_field d keys = Some u -> startswith http u = true.
Proof.
  induction keys as [|k keys IH]; cbn [known_field]; [discriminate|].
  destruct (http_string (dict_get d k)) as [v|] eqn:E; [|exact IH].
  intros [= <-]. apply http_string_holds in E. apply E.
Qed.

(** X2. Whatever the payload, a URL that [extract_url] returns starts
    with [http]: it is never empty and never a string of another
    scheme. *)
Theorem extract_url_starts_with_http :
  forall (payload : json) (u : pystr),
    extract_url payload = Some u -> startswith http u = true.
Proof.
  intros [| | | |s|items|d] u; cbn [extract_url]; try discriminate.
  - apply search_http.
  - destruct (known_field d KNOWN_FIELDS) as [v|] eqn:E.
    + intros [= <-]. eapply known_field_http; eauto.
    + rewrite find_strings_dfs. apply first_some_url_of_http.
Qed.

Lemma extract_url_starts_with_http_witness :
  startswith http (py "https://h/a") = true.
Proof.
  exact (extract_url_starts_with_http
           (JDict [(py "url", JStr (py "ftp://x"));
                   (py "data", JList [JStr (py "see https://h/a b")])])
           (py "https://h/a") eq_refl).
Defined.

(* ------------------------------------------------------------------ *)
(** ** The transfer engine without a limit *)

Lemma over_limit_unlimited total d : over_limit 0 total d = false.
Proof. reflexivity. Qed.

Lemma stream_no_limit_fault max_size total items :
  (forall d, over_limit max_size total d = false) ->
  forall tmp d lp,
    appending tmp ->
    fault_free items = false ->
    raised (stream_chunks max_size total items tmp d lp) = Some TransportError.
Proof.
  intros Hno.
  induction items as [|[[|b c]|] rest IH]; intros tmp d lp Happ;
    cbn [fault_free]; try discriminate.
  - stream_turn IH; [now rewrite Hno in Hover| |]; intros Hf; now apply IH.
  - reflexivity.
Qed.

(** Without the reactive check the buffer ends up holding every delivered
    chunk, fault or not. *)
Lemma stream_no_limit_content max_size total items :
  (forall d, over_limit max_size total d = false) ->
  forall tmp d lp,
    appending tmp ->
    Spooled.content (buffer (stream_chunks max_size total items tmp d lp)) =
    Spooled.content tmp ++ body_bytes items.
Proof.
  intros Hno. unfold body_bytes.
  induction items as [|[[|b c]|] rest IH]; intros tmp d lp Happ.
  1,2,4: cbn; now rewrite app_nil_r.
  cbn [delivered concat].
  stream_turn IH; [now rewrite Hno in Hover| |];
    rewrite IH by assumption; rewrite Hc, <- app_assoc; reflexivity.
Qed.

(** X3. With [max_size = 0] ("0 means no limit") no size check ever
    fires: on a 200 response the call returns exactly when the body has no
    transport fault, with the byte count of everything delivered, whatever
    length was advertised; otherwise it raises the transport error.  Either
    way the buffer holds every chunk delivered. *)
Theorem unlimited_transfer :
  forall (resp : response) (mb : Z),
    status resp = 200 ->
    let run := download_into_spooled_file (inr resp) mb 0 in
    returned run =
      (if fault_free (body resp)
       then inr (mkResult (size (delivered (body resp)))
                          (or_none (content_type resp)) (name_hint resp))
       else inl TransportError) /\
    Spooled.content (tmp run) = body_bytes (body resp).
Proof.
  intros resp mb Hst run. subst run.
  pose proof (stream_no_limit_content 0 (advertised resp) (body resp)
                (over_limit_unlimited _) _ 0 (-1)
                (create_appending (mb * 1024 * 1024))) as Hc.
  cbn [Spooled.create Spooled.content app] in Hc.
  unfold download_into_spooled_file. rewrite Hst, Z.eqb_refl. cbn [negb].
  change (declared_too_large 0 (advertised resp)) with false. cbv iota.
  destruct (fault_free (body resp)) eqn:Hff.
  - pose proof (stream_no_limit 0 (advertised resp) (body resp)
                  (over_limit_unlimited _) _ 0 (-1)
                  (create_appending (mb * 1024 * 1024))) as [Hok _].
    specialize (Hok Hff). cbv zeta in Hok. rewrite Hok.
    rewrite seek_open
      by (apply stream_appending, create_appending).
    cbn [returned tmp Spooled.content]. split; [|exact Hc].
    destruct (stream_success_content _ _ _ _ 0 (-1)
                (create_appending (mb * 1024 * 1024)) Hok) as [_ ->].
    reflexivity.
  - rewrite (stream_no_limit_fault 0 (advertised resp) (body resp)
               (over_limit_unlimited _) _ 0 (-1)
               (create_appending (mb * 1024 * 1024)) Hff).
    cbn [returned tmp]. split; [reflexivity | exact Hc].
Qed.

Lemma unlimited_transfer_witness :
  let resp := mkResponse 200 (Some 2) None (py "f")
                [Data [x01; x02; x03]; Fault; Data [x04]] in
  let run := download_into_spooled_file (inr resp) 16 0 in
  returned run = inl TransportError /\
  Spooled.content (tmp run) = [x01; x02; x03].
Proof.
  intros resp run.
  exact (unlimited_transfer resp 16 eq_refl).
Defined.

(* ------------------------------------------------------------------ *)
(** ** What the errors of a transfer tell *)

Lemma stream_raised_kinds max_size total items :
  forall tmp d lp e,
    appending tmp ->
    let s := stream_chunks max_size total items tmp d lp in
    raised s = Some e ->
    (e = TransportError /\ fault_free items = false) \/
    (e = TooLargeStreamed (received s) max_size /\
     over_limit max_size total (received s) = true).
Proof.
  induction items as [|[[|b c]|] rest IH]; intros tmp d lp e Happ; cbv zeta.
  1,2: cbn; discriminate.
  2: cbn; intros [= <-]; now left.
  cbn [fault_free].
  stream_turn IH.
  - intros [= <-]. right. split; [reflexivity | exact Hover].
  - now apply IH.
  - now apply IH.
Qed.

(** X4. Each error that [download_into_spooled_file] raises on a response
    tells the truth.  The status error carries the status of the response,
    which is not 200, and nothing was read.  The declared too-large error
    carries the advertised length and the limit, a non-zero limit that the
    length exceeds, the status was 200 and nothing was read.  The streamed
    too-large error carries the limit and a count over it; that count is
    exactly the number of bytes the buffer holds, the status was 200, the
    limit is non-zero and no length was advertised.  The transport error
    comes from a body that faults, after a status of 200. *)
Theorem download_error_is_accurate :
  forall (resp : response) (mb max_size : Z) (e : exn),
    let run := download_into_spooled_file (inr resp) mb max_size in
    returned run = inl e ->
    match e with
    | StatusError st =>
        st = status resp /\ st <> 200 /\ pulls run = 0%nat
    | TooLargeDeclared t l =>
        status resp = 200 /\ t = advertised resp /\ l = max_size /\
        max_size <> 0 /\ max_size < t /\ pulls run = 0%nat
    | TooLargeStreamed d l =>
        status resp = 200 /\ l = max_size /\ max_size <> 0 /\
        advertised resp = 0 /\ max_size < d /\
        d = Z.of_nat (length (Spooled.content (tmp run)))
    | TransportError =>
        status resp = 200 /\ fault_free (body resp) = false
    | _ => True
    end.
Proof.
  intros resp mb max_size e run. subst run.
  unfold download_into_spooled_file.
  destruct (status resp =? 200) eqn:Hst; cbn [negb].
  2: { apply Z.eqb_neq in Hst. cbn. intros [= <-]. auto. }
  apply Z.eqb_eq in Hst.
  destruct (declared_too_large max_size (advertised resp)) eqn:Heager.
  { cbn. intros [= <-].
    unfold declared_too_large in Heager.
    rewrite !andb_true_iff, !negb_true_iff, !Z.eqb_neq in Heager.
    destruct Heager as [[Hm _] Hgt]. apply Z.gtb_lt in Hgt.
    repeat split; auto. }
  set (s := stream_chunks max_size (advertised resp) (body resp)
              (Spooled.create (mb * 1024 * 1024)) 0 (-1)).
  assert (Happ : appending (buffer s))
    by (apply stream_appending, create_appending).
  destruct (raised s) as [e'|] eqn:Hr.
  2: { rewrite seek_open by apply Happ. discriminate. }
  cbn [returned tmp]. intros [= <-].
  destruct (stream_raised_kinds _ _ _ _ 0 (-1) e'
              (create_appending (mb * 1024 * 1024)) Hr) as [[-> Hff]|[-> Hover]].
  - auto.
  - fold s in Hover. unfold over_limit in Hover.
    rewrite !andb_true_iff, negb_true_iff, Z.eqb_neq, Z.eqb_eq in Hover.
    destruct Hover as [[Hm Hadv] Hgt]. apply Z.gtb_lt in Hgt.
    repeat split; auto.
    pose proof (stream_received max_size (advertised resp) (body resp)
                  _ 0 (-1) (create_appending (mb * 1024 * 1024))) as Hrec.
    cbv zeta in Hrec. fold s in Hrec. cbn in Hrec. fold s. lia.
Qed.

(** Chunks of 2 and 4 bytes under a limit of 5, no length advertised: the
    error reports 6 bytes, and 6 bytes are what the buffer holds. *)
Lemma download_error_is_accurate_witness :
  let resp := mkResponse 200 None None (py "f")
                [Data [x01; x02]; Data [x03; x04; x05; x06]] in
  let run := download_into_spooled_file (inr resp) 16 5 in
  returned run = inl (TooLargeStreamed 6 5) /\
  6 = Z.of_nat (length (Spooled.content (tmp run))).
Proof.
  intros resp run.
  pose proof (download_error_is_accurate resp 16 5 (TooLargeStreamed 6 5)
                eq_refl) as H.
  cbv beta iota zeta in H.
  destruct H as (_ & _ & _ & _ & _ & Hlen).
  split; [reflexivity | exact Hlen].
Defined.

(* ------------------------------------------------------------------ *)
(** ** Memory or disk *)

Lemma write_spill f data :
  spill_inv f ->
  exists f',
    Spooled.write f data = inr f' /\
    Spooled.max_size f' = Spooled.max_size f /\
    spill_inv f'.
Proof.
  intros [Happ Hroll].
  destruct (write_appending f data Happ) as (f' & Hw & Hc & Happ').
  exists f'. split; [exact Hw|].
  destruct Happ as [Hcl Hpos]. unfold Spooled.write in Hw.
  rewrite Hcl in Hw. injection Hw as <-. cbn [Spooled.max_size] in *.
  split; [reflexivity|]. split; [exact Happ'|].
  cbn [Spooled.rolled Spooled.max_size Spooled.content] in *.
  rewrite Hc, Hroll, Hpos, <- length_app.
  destruct (Spooled.max_size f =? 0); cbn [negb andb orb]; [reflexivity|].
  rewrite length_app.
  destruct (Z.of_nat (length (Spooled.content f)) >? Spooled.max_size f) eqn:E;
    cbn [orb]; [|reflexivity].
  apply Z.gtb_lt in E. symmetry. apply Z.gtb_lt. lia.
Qed.

Lemma stream_spill max_size total items :
  forall tmp d lp,
    spill_inv tmp ->
    let s := stream_chunks max_size total items tmp d lp in
    spill_inv (buffer s) /\
    Spooled.max_size (buffer s) = Spooled.max_size tmp.
Proof.
  induction items as [|[[|b c]|] rest IH]; intros tmp d lp Hinv; cbv zeta.
  1,2,4: cbn; auto.
  destruct (write_spill tmp (b :: c) Hinv) as (f' & Hw' & Hm & Hinv').
  pose proof (proj1 Hinv) as Happ.
  stream_turn IH; rewrite Hw' in Hw; injection Hw as <-.
  - auto.
  - rewrite <- Hm. now apply IH.
  - rewrite <- Hm. now apply IH.
Qed.

(** X5. However a call of [download_into_spooled_file] ends, the buffer
    it created is backed by disk exactly when the spool limit is non-zero
    and the bytes written exceed [spooled_limit_mb] MiB; with a limit of 0
    it stays in memory whatever its size. *)
Theorem spooled_to_disk_iff_over_limit :
  forall (reply : exn + response) (mb max_size : Z),
    0 <= mb ->
    let run := download_into_spooled_file reply mb max_size in
    Spooled.rolled (tmp run) =
    negb (spool_limit mb =? 0)
    && (Z.of_nat (length (Spooled.content (tmp run))) >? spool_limit mb).
Proof.
  intros reply mb max_size Hmb run. subst run. unfold spool_limit.
  assert (Hinit : spill_inv (Spooled.create (mb * 1024 * 1024))).
  { split; [apply create_appending|]. cbn.
    replace (0 >? mb * 1024 * 1024) with false
      by (symmetry; rewrite Z.gtb_ltb; apply Z.ltb_ge; lia).
    now rewrite andb_false_r. }
  assert (H0 : Spooled.rolled (Spooled.create (mb * 1024 * 1024)) =
               negb (mb * 1024 * 1024 =? 0)
               && (Z.of_nat (length (Spooled.content
                                       (Spooled.create (mb * 1024 * 1024))))
                   >? mb * 1024 * 1024))
    by (apply Hinit).
  unfold download_into_spooled_file.
  destruct reply as [e|resp]; [exact H0|].
  destruct (negb (status resp =? 200)); [exact H0|].
  destruct (declared_too_large max_size (advertised resp)); [exact H0|].
  destruct (stream_spill max_size (advertised resp) (body resp)
              _ 0 (-1) Hinit) as [[Happ Hroll] Hm].
  cbn [Spooled.create Spooled.max_size] in Hm. rewrite Hm in Hroll.
  destruct (raised _); [exact Hroll|].
  rewrite seek_open by apply Happ. exact Hroll.
Qed.

(** A 1 MiB ceiling is not passed by 3 bytes. *)
Lemma spooled_to_disk_iff_over_limit_witness :
  let resp := mkResponse 200 None None (py "f") [Data [x01; x02; x03]] in
  Spooled.rolled (tmp (download_into_spooled_file (inr resp) 1 0)) = false.
Proof.
  intros resp.
  exact (spooled_to_disk_iff_over_limit (inr resp) 1 0 ltac:(lia)).
Defined.

(* ------------------------------------------------------------------ *)
(** ** Progress events of a transfer of unknown length *)

Lemma percent_of_unknown d :
  percent_of 0 d = Z.min 99 (PyDiv.int_truediv d (1024 * 1024)).
Proof. reflexivity. Qed.

Lemma percent_of_unknown_mono d d' :
  0 <= d -> d <= d' -> percent_of 0 d <= percent_of 0 d'.
Proof.
  intros Hd Hle. rewrite !percent_of_unknown.
  assert (PyDiv.int_truediv d (1024 * 1024)
          <= PyDiv.int_truediv d' (1024 * 1024))
    by (apply PyDivFacts.int_truediv_mono; lia).
  lia.
Qed.

Lemma percent_of_unknown_cap d : percent_of 0 d <= 99.
Proof. rewrite percent_of_unknown. lia. Qed.

(** The events of the loop when no total is advertised: strictly
    increasing even percentages, none above 99. *)
Lemma stream_progress_unknown max_size items :
  forall tmp d lp,
    appending tmp ->
    0 <= d ->
    lp <= percent_of 0 d ->
    let s := stream_chunks max_size 0 items tmp d lp in
    ascending lp (map percent (progress s)) /\
    Forall (fun p => p <= 99) (map percent (progress s)).
Proof.
  induction items as [|[[|b c]|] rest IH]; intros tmp d lp Happ Hd Hlp;
    cbv zeta.
  1,2,4: cbn; repeat split; auto.
  assert (Hlen : 0 < Z.of_nat (length (b :: c))) by (cbn [length]; lia).
  stream_turn IH.
  - cbn. auto.
  - set (d' := d + Z.of_nat (length (b :: c))) in *.
    destruct (IH tmp' d' (percent_of 0 d') Happ' ltac:(lia) ltac:(lia))
      as (Hasc & Hall).
    apply should_emit_true in Hemit. destruct Hemit as [Hne Heven].
    assert (percent_of 0 d <= percent_of 0 d')
      by (apply percent_of_unknown_mono; lia).
    cbn [map percent ascending]. repeat split; auto; try lia.
    constructor; [apply percent_of_unknown_cap | exact Hall].
  - set (d' := d + Z.of_nat (length (b :: c))) in *.
    assert (percent_of 0 d <= percent_of 0 d')
      by (apply percent_of_unknown_mono; lia).
    apply (IH tmp' d' lp Happ'); lia.
Qed.

Lemma ascending_even lo l : ascending lo l -> Forall (fun p => p mod 2 = 0) l.
Proof.
  revert lo. induction l as [|x l IH]; intros lo; [constructor|].
  intros (_ & Heven & Hasc). constructor; [exact Heven | eauto].
Qed.

(** X6. For every transfer that returns and had no advertised length,
    the percentages of the progress events never decrease, the loop's own
    events carry strictly increasing even percentages of at most 98, the
    last event is the final 100% one and the only one at 100%, and there
    are at most 51 events, whatever the size of the body. *)
Theorem progress_events_unknown_total :
  forall (resp : response) (mb max_size : Z) (r : transfer_result),
    advertised resp = 0 ->
    let run := download_into_spooled_file (inr resp) mb max_size in
    returned run = inr r ->
    let ps := map percent (events run) in
    StronglySorted Z.le ps /\
    ascending (-1) (removelast ps) /\
    Forall (fun p => p <= 98) (removelast ps) /\
    last ps 0 = 100 /\
    count_occ Z.eq_dec ps 100 = 1%nat /\
    (length ps <= 51)%nat.
Proof.
  intros resp mb max_size r Hadv run Hret ps.
  destruct (download_returned _ _ _ _ Hret)
    as (resp' & [= <-] & _ & _ & _ & _ & _ & Hev & _).
  fold run in Hev. cbv zeta in Hev. rewrite Hadv in Hev.
  set (s := stream_chunks max_size 0 (body resp)
              (Spooled.create (mb * 1024 * 1024)) 0 (-1)) in *.
  destruct (stream_progress_unknown max_size (body resp) _ 0 (-1)
              (create_appending (mb * 1024 * 1024)) ltac:(lia)
              ltac:(rewrite percent_of_zero; lia)) as (Hasc & Hall).
  fold s in Hasc, Hall.
  assert (Hps : ps = map percent (progress s) ++ [100])
    by (subst ps; rewrite Hev, map_app; reflexivity).
  assert (Hall98 : Forall (fun p => p <= 98) (map percent (progress s))).
  { pose proof (ascending_even _ _ Hasc) as Heven.
    rewrite Forall_forall in *. intros p Hp.
    specialize (Hall p Hp). specialize (Heven p Hp). cbv beta in *.
    destruct (Z.eq_dec p 99) as [->|]; [discriminate Heven | lia]. }
  rewrite Hps, removelast_last. repeat split; auto.
  - eapply ascending_sorted; [exact Hasc|].
    eapply Forall_impl; [|exact Hall]. cbv beta. intros; lia.
  - apply last_last.
  - rewrite count_occ_app. cbn [count_occ].
    destruct (Z.eq_dec 100 100); [|congruence].
    rewrite (proj1 (count_occ_not_In Z.eq_dec _ 100)); [reflexivity|].
    intros Hin. rewrite Forall_forall in Hall98.
    specialize (Hall98 100 Hin). cbv beta in Hall98. lia.
  - pose proof (ascending_length _ (-1) 99 ltac:(lia) Hasc Hall) as Hn.
    rewrite length_app. cbn [length]. change (99 / 2 - -1 / 2) with 50 in Hn.
    lia.
Qed.

Lemma progress_events_unknown_total_witness :
  let resp := mkResponse 200 None None (py "f")
                [Data [x01]; Data [x02; x03]] in
  let ps := map percent (events (download_into_spooled_file (inr resp) 16 0))
  in
  count_occ Z.eq_dec ps 100 = 1%nat /\ (length ps <= 51)%nat.
Proof.
  intros resp ps.
  destruct (progress_events_unknown_total resp 16 0
              (mkResult 3 None (py "f")) eq_refl eq_refl)
    as (_ & _ & _ & _ & Hcount & Hlen).
  split; assumption.
Defined.

(* ------------------------------------------------------------------ *)
(** ** Delivery, for every behaviour of the platform *)

(** Unfold the upload stage and split on every answer of the platform. *)
Ltac platform_cases p :=
  unfold deliver, try_finally, try_except, bind, file_seek, file_close, send,
    edit_text, platform_call, file_read, on_file, record, stat_incr, ret,
    raise;
  cbn;
  repeat match goal with
         | |- context [p ?c] => destruct (p c) eqn:?; cbn
         end;
  rewrite <- ?app_assoc; cbn.

(** X7. In direct mode (no dumb channel configured) the handler never
    uploads to an archive and never copies; the requester gets one upload
    of the whole buffer unless the status edit before it is rejected; and
    [uploaded_files] goes up by one exactly when that upload is accepted,
    whether or not the closing status edit succeeds. *)
Theorem direct_mode_delivery :
  forall (p : platform) (video : bool) (w : world) (f : Spooled.t),
    spooled w = Some f ->
    Spooled.closed f = false ->
    let upload := upload_call video Requester (Spooled.content f)
                    HereIsYourFile in
    let w' := snd (deliver p None video w) in
    exists new,
      log w' = log w ++ new /\
      forallb (fun o => negb (touches_archive o)) new = true /\
      requester_uploads new =
        (if p (EditText UploadingToYou) then [] else [Spooled.content f]) /\
      uploaded_files w' =
        uploaded_files w
        + (if p (EditText UploadingToYou) || p upload then 0 else 1).
Proof.
  intros p video [sp lg rl uf] [m content ps rolled cl] Hsp Hcl upload w'.
  cbn in Hsp, Hcl. subst sp cl upload w'. cbn [Spooled.content log].
  destruct video; platform_cases p; eexists; repeat split; lia.
Qed.

Lemma direct_mode_delivery_witness :
  let f := Spooled.mk 16 [x01; x02] 0 false false in
  let w := mkWorld (Some f) [] 1 0 in
  exists new,
    log (snd (deliver (fun _ => false) None true w)) = new /\
    requester_uploads new = [[x01; x02]] /\
    uploaded_files (snd (deliver (fun _ => false) None true w)) = 1.
Proof.
  intros f w.
  destruct (direct_mode_delivery (fun _ => false) true w f eq_refl eq_refl)
    as (new & Hlog & _ & Hup & Hcount).
  exists new. repeat split; assumption.
Defined.

(** X8. In archive mode the archive gets at most one upload, of the whole
    buffer; the requester gets an upload only when the archive upload went
    through and the copy was then rejected; and [uploaded_files] goes up by
    one exactly when the archive upload was accepted and the file then
    reached the requester, by copy or by the fallback upload, whether or
    not the closing status edit succeeds. *)
Theorem archive_mode_delivery :
  forall (p : platform) (c : N) (ch : pystr) (video : bool)
         (w : world) (f : Spooled.t),
    spooled w = Some f ->
    Spooled.closed f = false ->
    let dc := c :: ch in
    let archived := upload_call video (Archive dc) (Spooled.content f)
                      SavedForUser in
    let fallback := upload_call video Requester (Spooled.content f)
                      HereIsYourFile in
    let stored := negb (p (EditText UploadingToDumb)) && negb (p archived)
                  && negb (p (EditText CopyingToYou)) in
    let w' := snd (deliver p (Some dc) video w) in
    exists new,
      log w' = log w ++ new /\
      archive_uploads new =
        (if p (EditText UploadingToDumb) then [] else [Spooled.content f]) /\
      requester_uploads new =
        (if stored && p (CopyMessage dc) then [Spooled.content f] else []) /\
      uploaded_files w' =
        uploaded_files w
        + (if stored && (negb (p (CopyMessage dc)) || negb (p fallback))
           then 1 else 0).
Proof.
  intros p c ch video [sp lg rl uf] [m content ps rolled cl] Hsp Hcl dc
         archived fallback stored w'.
  cbn in Hsp, Hcl. subst sp cl stored archived fallback w' dc.
  cbn [Spooled.content log]. unfold deliver. cbv beta iota zeta.
  set (dc := c :: ch). clearbody dc.
  destruct video; platform_cases p; eexists; repeat split; lia.
Qed.

Lemma archive_mode_delivery_witness :
  let f := Spooled.mk 16 [x01; x02] 0 false false in
  let w := mkWorld (Some f) [] 1 0 in
  let w' := snd (deliver (fun _ => false) (Some (py "@dumb")) false w) in
  exists new,
    log w' = new /\
    archive_uploads new = [[x01; x02]] /\
    requester_uploads new = [] /\
    uploaded_files w' = 1.
Proof.
  intros f w w'.
  exact (archive_mode_delivery (fun _ => false) 64%N (py "dumb") false w f
           eq_refl eq_refl).
Defined.

(* ------------------------------------------------------------------ *)
(** ** The counter of resolved links *)

Lemma resolved_ret {A} (a : A) : keeps_resolved (ret a).
Proof. intros w; reflexivity. Qed.

Lemma resolved_raise {A} e : keeps_resolved (@raise A e).
Proof. intros w; reflexivity. Qed.

Lemma resolved_record o : keeps_resolved (record o).
Proof. intros w; reflexivity. Qed.

Lemma resolved_set_spooled f : keeps_resolved (set_spooled f).
Proof. intros w; reflexivity. Qed.

Lemma resolved_uploaded inc : keeps_resolved (stat_incr UploadedFiles inc).
Proof. intros w; reflexivity. Qed.

Lemma resolved_on_file {A} (f : Spooled.t -> exn + (A * Spooled.t)) :
  keeps_resolved (on_file f).
Proof.
  intros w. unfold on_file. destruct (spooled w) as [file|]; [|reflexivity].
  destruct (f file) as [e|[a file']]; reflexivity.
Qed.

Lemma resolved_bind {A B} (m : M A) (k : A -> M B) :
  keeps_resolved m -> (forall a, keeps_resolved (k a)) ->
  keeps_resolved (bind m k).
Proof.
  intros Hm Hk w. unfold bind. specialize (Hm w).
  destruct (m w) as [[e|a] w']; cbn in *; [exact Hm|].
  now rewrite Hk.
Qed.

Lemma resolved_try_except {A} (m : M A) (h : exn -> M A) :
  keeps_resolved m -> (forall e, keeps_resolved (h e)) ->
  keeps_resolved (try_except m h).
Proof.
  intros Hm Hh w. unfold try_except. specialize (Hm w).
  destruct (m w) as [[e|a] w']; cbn in *; [|exact Hm].
  now rewrite Hh.
Qed.

Lemma resolved_try_finally {A} (m : M A) (c : M unit) :
  keeps_resolved m -> keeps_resolved c -> keeps_resolved (try_finally m c).
Proof.
  intros Hm Hc w. unfold try_finally. specialize (Hm w).
  destruct (m w) as [r w']. specialize (Hc w').
  destruct (c w') as [[e|u] w'']; cbn in *; congruence.
Qed.

Lemma resolved_platform_call p c : keeps_resolved (platform_call p c).
Proof.
  apply resolved_bind; [apply resolved_record|]. intros _.
  destruct (p c); [apply resolved_raise | apply resolved_ret].
Qed.

Lemma resolved_edit_text p t : keeps_resolved (edit_text p t).
Proof. apply resolved_platform_call. Qed.

Lemma resolved_file_seek offset : keeps_resolved (file_seek offset).
Proof.
  apply resolved_bind; [apply resolved_record|]. intros _.
  apply resolved_on_file.
Qed.

Lemma resolved_file_close : keeps_resolved file_close.
Proof.
  apply resolved_bind; [apply resolved_record|]. intros _.
  apply resolved_on_file.
Qed.

Lemma resolved_send p video to c : keeps_resolved (send p video to c).
Proof.
  apply resolved_bind; [apply resolved_on_file|]. intros data.
  apply resolved_platform_call.
Qed.

Create HintDb resolved.

#[local] Hint Resolve resolved_ret resolved_raise resolved_record
  resolved_set_spooled resolved_uploaded resolved_platform_call
  resolved_edit_text resolved_file_seek resolved_file_close resolved_send
  : resolved.

Ltac resolved :=
  repeat first
    [ solve [auto with resolved]
    | apply resolved_bind; [|intros ?]
    | apply resolved_try_except; [|intros ?]
    | apply resolved_try_finally ].

Lemma resolved_deliver p dc video : keeps_resolved (deliver p dc video).
Proof. unfold deliver. destruct dc as [[|c ch]|]; resolved. Qed.

Lemma resolved_each_status p evs :
  keeps_resolved (each (download_status_cb p) evs).
Proof.
  induction evs as [|e evs IH]; cbn [each]; [apply resolved_ret|].
  apply resolved_bind; [|intros _; exact IH].
  unfold download_status_cb.
  destruct (negb (totalBytes e =? 0) && (totalBytes e >? 0)); resolved.
Qed.

Lemma resolved_await_download p reply mb max_size :
  keeps_resolved (await_download p reply mb max_size).
Proof.
  unfold await_download.
  apply resolved_bind; [apply resolved_set_spooled|]. intros _.
  apply resolved_bind; [apply resolved_each_status|]. intros _.
  destruct (returned _); [apply resolved_raise | apply resolved_ret].
Qed.

(** X9. One handled payload counts as one resolved link exactly when a
    URL was extracted from it, whatever happens afterwards: a download that
    fails, an upload the platform rejects or a status edit that raises
    leave the count at one; a payload without a URL leaves it at zero and
    creates no buffer. *)
Theorem resolved_links_counts_extracted_urls :
  forall (cfg : config) (p : platform) (api_data : json),
    let w := snd (text_handler cfg p api_data world0) in
    resolved_links w = (if truthy (extract_url api_data) then 1 else 0) /\
    (truthy (extract_url api_data) = false ->
     spooled w = None /\ uploaded_files w = 0).
Proof.
  intros cfg p api_data w. subst w. unfold text_handler.
  assert (Hnone : forall t,
            let w := snd (edit_text p t world0) in
            resolved_links w = 0 /\ spooled w = None /\ uploaded_files w = 0).
  { intros t. unfold edit_text, platform_call, bind, record. cbn.
    destruct (p (EditText t)); cbn; auto. }
  destruct (extract_url api_data) as [[|c u]|] eqn:Hurl; cbn [truthy];
    [ destruct api_data; (split; [|intros _]); apply Hnone
    |
    | destruct api_data; (split; [|intros _]); apply Hnone ].
  split; [|discriminate].
  unfold bind at 1. cbn [stat_incr world0 spooled log resolved_links
                         uploaded_files].
  match goal with
  | |- resolved_links (snd (?k ?w0)) = _ =>
      assert (Hk : keeps_resolved k)
  end.
  { apply resolved_bind.
    - apply resolved_try_except.
      + apply resolved_bind; [apply resolved_await_download|].
        intros r. apply resolved_ret.
      + intros e. resolved.
    - intros [r|]; [apply resolved_deliver | apply resolved_ret]. }
  rewrite Hk. reflexivity.
Qed.

(* ------------------------------------------------------------------ *)
(** ** The handler after a failed download *)

Lemma download_status_cb_progress p e w :
  exists w' o,
    download_status_cb p e w = (inr tt, w') /\
    spooled w' = spooled w /\
    uploaded_files w' = uploaded_files w /\
    log w' = log w ++ [o] /\
    is_progress_edit o = true.
Proof.
  unfold download_status_cb, try_except, edit_text, platform_call, bind,
    record.
  destruct (negb (totalBytes e =? 0) && (totalBytes e >? 0)); cbn;
    match goal with |- context [p ?c] => destruct (p c) end; cbn;
    eexists _, _; repeat split.
Qed.

Lemma each_status_progress p evs :
  forall w,
    exists w' l,
      each (download_status_cb p) evs w = (inr tt, w') /\
      spooled w' = spooled w /\
      uploaded_files w' = uploaded_files w /\
      log w' = log w ++ l /\
      forallb is_progress_edit l = true /\
      length l = length evs.
Proof.
  induction evs as [|e evs IH]; intros w; cbn [each].
  - exists w, []. rewrite app_nil_r. repeat split.
  - unfold bind.
    destruct (download_status_cb_progress p e w)
      as (w1 & o & -> & H1 & U1 & L1 & E1).
    destruct (IH w1) as (w2 & l & -> & H2 & U2 & L2 & E2 & N2).
    exists w2, (o :: l). repeat split; try congruence.
    + rewrite L2, L1, <- app_assoc. reflexivity.
    + cbn [forallb]. now rewrite E1, E2.
    + cbn [length]. now rewrite N2.
Qed.

Lemma surfaced_errors_progress l :
  forallb is_progress_edit l = true -> surfaced_errors l = [].
Proof.
  induction l as [|o l IH]; [reflexivity|]. cbn [forallb].
  rewrite andb_true_iff. intros [Ho Hl].
  destruct o as [[[]| | |]| |]; try discriminate; cbn; auto.
Qed.

Lemma surfaced_errors_app l1 l2 :
  surfaced_errors (l1 ++ l2) = surfaced_errors l1 ++ surfaced_errors l2.
Proof.
  induction l1 as [|o l1 IH]; [reflexivity|].
  destruct o as [[[]| | |]| |]; cbn; rewrite ?IH; reflexivity.
Qed.

Lemma is_progress_is_status l :
  forallb is_progress_edit l = true -> forallb is_status_edit l = true.
Proof.
  induction l as [|o l IH]; [reflexivity|]. cbn [forallb].
  rewrite !andb_true_iff. intros [Ho Hl]. split; [|auto].
  destruct o as [[[]| | |]| |]; try discriminate; reflexivity.
Qed.

(** X10. When the download stage raises, for whatever reason, the handler
    shows the user exactly that error and nothing else goes on: besides one
    progress edit per progress event and the failure text it makes no call
    and no file operation, no upload is counted, and the buffer stays as
    the failed call left it, open and never read. *)
Theorem failed_download_is_only_reported :
  forall (cfg : config) (p : platform) (api_data : json) (c : N) (u : pystr)
         (e : exn),
    extract_url api_data = Some (c :: u) ->
    let run := download_into_spooled_file (fetch cfg (c :: u))
                 (TMP_SPOOL_LIMIT_MB cfg) (MAX_FILE_SIZE cfg) in
    returned run = inl e ->
    let w := snd (text_handler cfg p api_data world0) in
    spooled w = Some (tmp run) /\
    Spooled.closed (tmp run) = false /\
    surfaced_errors (log w) = [e] /\
    forallb is_status_edit (log w) = true /\
    length (log w) = S (length (events run)) /\
    uploaded_files w = 0.
Proof.
  intros cfg p api_data c u e Hurl run Hret w.
  assert (H : exists l rl,
             forallb is_progress_edit l = true /\
             length l = length (events run) /\
             w = mkWorld (Some (tmp run))
                   (l ++ [Platform (EditText (DownloadFailed e))]) rl 0).
  { subst w. unfold text_handler. rewrite Hurl. unfold await_download.
    fold run. unfold bind, try_except, stat_incr, set_spooled.
    cbn [world0 spooled log resolved_links uploaded_files].
    match goal with
    | |- context [each ?cb ?evs ?w] =>
        destruct (each_status_progress p evs w)
          as (w1 & l & -> & Hs & Hu & Hl & He & Hn)
    end.
    rewrite Hret. unfold raise, edit_text, platform_call, bind, record, ret.
    destruct w1 as [sp lg rl uf]. cbn in Hs, Hu, Hl |- *. subst sp lg uf.
    exists l, rl. repeat split; auto.
    destruct (p (EditText (DownloadFailed e))); reflexivity. }
  destruct H as (l & rl & He & Hn & ->). cbn [spooled log uploaded_files].
  repeat split.
  - exact (failed_download_leaves_buffer_open _ _ _ e Hret).
  - rewrite surfaced_errors_app, (surfaced_errors_progress l He). reflexivity.
  - rewrite forallb_app, (is_progress_is_status l He). reflexivity.
  - rewrite length_app, Hn. cbn [length]. lia.
Qed.

Lemma failed_download_is_only_reported_witness :
  let resp := mkResponse 503 None None (py "f") [Data [x01]] in
  let cfg := mkConfig 16 0 (Some (py "@dumb")) false (fun _ => inr resp) in
  let w := snd (text_handler cfg (fun _ => false)
                  (JStr (py "try http://h/f")) world0) in
  surfaced_errors (log w) = [StatusError 503] /\ uploaded_files w = 0.
Proof.
  intros resp cfg w.
  destruct (failed_download_is_only_reported cfg (fun _ => false)
              (JStr (py "try http://h/f")) 104%N (py "ttp://h/f")
              (StatusError 503) eq_refl eq_refl)
    as (_ & _ & Herr & _ & _ & Hup).
  split; assumption.
Defined.

(* ------------------------------------------------------------------ *)
(** ** The buffer through the upload stage *)

Lemma content_ret {A} (a : A) : keeps_content (ret a).
Proof. intros w f H; eauto. Qed.

Lemma content_raise {A} e : keeps_content (@raise A e).
Proof. intros w f H; eauto. Qed.

Lemma content_record o : keeps_content (record o).
Proof. intros w f H; cbn; eauto. Qed.

Lemma content_stat_incr k inc : keeps_content (stat_incr k inc).
Proof. intros w f H; destruct k; cbn; eauto. Qed.

Lemma content_bind {A B} (m : M A) (k : A -> M B) :
  keeps_content m -> (forall a, keeps_content (k a)) ->
  keeps_content (bind m k).
Proof.
  intros Hm Hk w f H. unfold bind.
  destruct (Hm w f H) as (f1 & H1 & C1).
  destruct (m w) as [[e|a] w']; cbn in *; [eauto|].
  destruct (Hk a w' f1 H1) as (f2 & H2 & C2).
  exists f2. split; [exact H2 | congruence].
Qed.

Lemma content_try_except {A} (m : M A) (h : exn -> M A) :
  keeps_content m -> (forall e, keeps_content (h e)) ->
  keeps_content (try_except m h).
Proof.
  intros Hm Hh w f H. unfold try_except.
  destruct (Hm w f H) as (f1 & H1 & C1).
  destruct (m w) as [[e|a] w']; cbn in *; [|eauto].
  destruct (Hh e w' f1 H1) as (f2 & H2 & C2).
  exists f2. split; [exact H2 | congruence].
Qed.

Lemma content_seek offset : keeps_content (file_seek offset).
Proof.
  intros w f H. unfold file_seek, bind, record, on_file. cbn. rewrite H.
  unfold Spooled.seek. destruct (Spooled.closed f); cbn; eauto.
Qed.

Lemma content_read : keeps_content file_read.
Proof.
  intros w f H. unfold file_read, on_file. rewrite H.
  unfold Spooled.read. destruct (Spooled.closed f); cbn; eauto.
Qed.

Lemma content_platform_call p c : keeps_content (platform_call p c).
Proof.
  apply content_bind; [apply content_record|]. intros _.
  destruct (p c); [apply content_raise | apply content_ret].
Qed.

Lemma content_edit_text p t : keeps_content (edit_text p t).
Proof. apply content_platform_call. Qed.

Lemma content_send p video to c : keeps_content (send p video to c).
Proof.
  apply content_bind; [apply content_read|]. intros data.
  apply content_platform_call.
Qed.

Create HintDb content.

#[local] Hint Resolve content_ret content_raise content_record
  content_stat_incr content_seek content_platform_call content_edit_text
  content_send : content.

Ltac content :=
  repeat first
    [ solve [auto with content]
    | apply content_bind; [|intros ?]
    | apply content_try_except; [|intros ?] ].

(** The upload stage ends with the close, on a buffer whose bytes it has
    not changed. *)
Lemma deliver_closes_last p dc video w f :
  spooled w = Some f ->
  let w' := snd (deliver p dc video w) in
  exists f' pre,
    spooled w' = Some f' /\
    Spooled.closed f' = true /\
    Spooled.content f' = Spooled.content f /\
    log w' = pre ++ [FileClose].
Proof.
  intros H. cbv zeta. unfold deliver, try_finally.
  match goal with
  | |- context [match ?body w with _ => _ end] =>
      assert (Hk : keeps_content body)
  end.
  { destruct dc as [[|c ch]|]; content. }
  destruct (Hk w f H) as (f1 & H1 & C1).
  match goal with
  | |- context [match ?body w with _ => _ end] =>
      destruct (body w) as [r w1]
  end.
  cbn [snd] in H1.
  destruct (cleanup_closes w1 f1 H1) as (w2 & -> & Hs & Hl).
  exists (Spooled.close f1), (log w1). cbn [snd]. repeat split; auto.
Qed.

(** X11. When the download returns, every way through the rest of the
    handler (success, a rejected upload, a rejected copy and fallback, a
    status edit that raises) ends with the buffer closed, the close being
    the handler's last operation, and with the buffer still holding exactly
    the bytes the download put in it. *)
Theorem returned_download_buffer_closed_intact :
  forall (cfg : config) (p : platform) (api_data : json) (c : N) (u : pystr)
         (r : transfer_result),
    extract_url api_data = Some (c :: u) ->
    let run := download_into_spooled_file (fetch cfg (c :: u))
                 (TMP_SPOOL_LIMIT_MB cfg) (MAX_FILE_SIZE cfg) in
    returned run = inr r ->
    let w := snd (text_handler cfg p api_data world0) in
    exists f pre,
      spooled w = Some f /\
      Spooled.closed f = true /\
      Spooled.content f = Spooled.content (tmp run) /\
      log w = pre ++ [FileClose].
Proof.
  intros cfg p api_data c u r Hurl run Hret w.
  assert (H : exists w1,
             spooled w1 = Some (tmp run) /\
             w = snd (deliver p (dumb_channel cfg)
                        (is_video (ctype r) (video_ext cfg)) w1)).
  { subst w. unfold text_handler. rewrite Hurl. unfold await_download.
    fold run. unfold bind, try_except, stat_incr, set_spooled.
    cbn [world0 spooled log resolved_links uploaded_files].
    match goal with
    | |- context [each ?cb ?evs ?w] =>
        destruct (each_status_progress p evs w) as (w1 & l & -> & Hs & _)
    end.
    rewrite Hret. unfold ret. exists w1. split; [exact Hs | reflexivity]. }
  destruct H as (w1 & Hs & ->).
  exact (deliver_closes_last p _ _ w1 (tmp run) Hs).
Qed.

Lemma returned_download_buffer_closed_intact_witness :
  let resp := mkResponse 200 None None (py "f") [Data [x01; x02]] in
  let cfg := mkConfig 16 0 (Some (py "@dumb")) false (fun _ => inr resp) in
  let w := snd (text_handler cfg rejects_copy
                  (JStr (py "try http://h/f")) world0) in
  exists f pre,
    spooled w = Some f /\
    Spooled.closed f = true /\
    Spooled.content f = [x01; x02] /\
    log w = pre ++ [FileClose].
Proof.
  intros resp cfg w.
  exact (returned_download_buffer_closed_intact cfg rejects_copy
           (JStr (py "try http://h/f")) 104%N (py "ttp://h/f")
           (mkResult 2 None (py "f")) eq_refl eq_refl).
Defined.

(* ------------------------------------------------------------------ *)
(** ** The SQLite store *)

Lemma pystr_eqb_sym a b : PyStr.eqb a b = PyStr.eqb b a.
Proof.
  destruct (PyStr.eqb a b) eqn:E.
  - apply pystr_eqb_eq in E. subst. symmetry. now apply pystr_eqb_eq.
  - destruct (PyStr.eqb b a) eqn:E'; [|reflexivity].
    apply pystr_eqb_eq in E'. subst.
    assert (PyStr.eqb a a = true) by now apply pystr_eqb_eq. congruence.
Qed.

Lemma pystr_eqb_refl a : PyStr.eqb a a = true.
Proof. now apply pystr_eqb_eq. Qed.

Lemma select_app {V} (t1 t2 : Db.table V) key :
  Db.select (t1 ++ t2) key =
  match Db.select t1 key with
  | Some v => Some v
  | None => Db.select t2 key
  end.
Proof.
  induction t1 as [|[k v] t1 IH]; cbn; [reflexivity|].
  destruct (PyStr.eqb k key); [reflexivity | exact IH].
Qed.

Lemma select_delete {V} (t : Db.table V) key key' :
  Db.select (Db.delete t key) key' =
  if PyStr.eqb key key' then None else Db.select t key'.
Proof.
  induction t as [|[k v] t IH]; cbn.
  - now destruct (PyStr.eqb key key').
  - destruct (PyStr.eqb k key) eqn:E.
    + apply pystr_eqb_eq in E. subst k. rewrite IH.
      now destruct (PyStr.eqb key key').
    + cbn. rewrite IH. destruct (PyStr.eqb k key') eqn:E'; [|reflexivity].
      apply pystr_eqb_eq in E'. subst k.
      rewrite pystr_eqb_sym, E. reflexivity.
Qed.

Lemma select_replace {V} (t : Db.table V) key v key' :
  Db.select (Db.replace t key v) key' =
  if PyStr.eqb key key' then Some v else Db.select t key'.
Proof.
  unfold Db.replace. rewrite select_app, select_delete. cbn.
  destruct (PyStr.eqb key key'); [reflexivity|].
  now destruct (Db.select t key').
Qed.

Lemma select_update {V} (t : Db.table V) key v key' :
  Db.select (Db.update t key v) key' =
  match Db.select t key' with
  | Some v0 => Some (if PyStr.eqb key key' then v else v0)
  | None => None
  end.
Proof.
  induction t as [|[k v0] t IH]; cbn; [reflexivity|].
  destruct (PyStr.eqb k key') eqn:E; [|exact IH].
  apply pystr_eqb_eq in E. subst k. now rewrite pystr_eqb_sym.
Qed.

(** X12. The settings table behaves as a map from keys to values:
    [db_get] after [db_set] returns what was set under that key and what
    was there before under any other; after [db_delete] the key is unset
    and the others are as before; neither touches a counter. *)
Theorem settings_set_get_delete :
  forall (d : Db.t) (key value key' : pystr),
    Db.db_get (Db.db_set d key value) key' =
      (if PyStr.eqb key key' then Some value else Db.db_get d key') /\
    Db.db_get (Db.db_delete d key) key' =
      (if PyStr.eqb key key' then None else Db.db_get d key') /\
    Db.stat_get (Db.db_set d key value) key' = Db.stat_get d key' /\
    Db.stat_get (Db.db_delete d key) key' = Db.stat_get d key'.
Proof.
  intros d key value key'. unfold Db.db_get, Db.db_set, Db.db_delete.
  cbn [Db.settings]. rewrite select_replace, select_delete. auto.
Qed.

(** X13. [stat_incr] succeeds exactly when the new count fits SQLite's
    64-bit INTEGER; it then adds [inc] to the counter of that key, a missing
    counter counting as 0, and leaves every other counter and every setting
    as it was. *)
Theorem stat_incr_adds :
  forall (d : Db.t) (key : pystr) (inc : Z),
    match Db.stat_incr d key inc with
    | Some d' =>
        Db.int64 (Db.stat_get d key + inc) = true /\
        (forall key',
           Db.stat_get d' key' =
           if PyStr.eqb key key' then Db.stat_get d key + inc
           else Db.stat_get d key') /\
        (forall key', Db.db_get d' key' = Db.db_get d key')
    | None => Db.int64 (Db.stat_get d key + inc) = false
    end.
Proof.
  intros d key inc. unfold Db.stat_incr, Db.stat_get, Db.db_get.
  destruct (Db.select (Db.stats d) key) as [row|] eqn:E.
  - destruct (Db.int64 (row + inc)) eqn:R; [|reflexivity].
    cbn [Db.stats Db.settings]. repeat split; auto.
    intros key'. rewrite select_update.
    destruct (PyStr.eqb key key') eqn:K.
    + apply pystr_eqb_eq in K. subst key'. now rewrite E.
    + now destruct (Db.select (Db.stats d) key').
  - rewrite Z.add_0_l. destruct (Db.int64 inc) eqn:R; [|reflexivity].
    cbn [Db.stats Db.settings]. repeat split; auto.
    intros key'. rewrite select_app. cbn.
    destruct (PyStr.eqb key key') eqn:K.
    + apply pystr_eqb_eq in K. subst key'. now rewrite E.
    + now destruct (Db.select (Db.stats d) key').
Qed.

Lemma delete_keys {V} (t : Db.table V) key k :
  In k (map fst (Db.delete t key)) ->
  In k (map fst t) /\ k <> key.
Proof.
  induction t as [|[k0 v] t IH]; cbn; [tauto|].
  destruct (PyStr.eqb k0 key) eqn:E.
  - intros H. apply IH in H. tauto.
  - cbn. intros [<-|H].
    + split; [now left|]. intros ->. now rewrite pystr_eqb_refl in E.
    + apply IH in H. tauto.
Qed.

Lemma delete_nodup {V} (t : Db.table V) key :
  NoDup (map fst t) -> NoDup (map fst (Db.delete t key)).
Proof.
  induction t as [|[k v] t IH]; cbn; [auto|].
  intros H. inversion H as [|? ? Hnotin Hrest]; subst.
  destruct (PyStr.eqb k key); [auto|].
  cbn. constructor; [|auto].
  intros Hin. apply delete_keys in Hin. tauto.
Qed.

Lemma update_keys {V} (t : Db.table V) key v :
  map fst (Db.update t key v) = map fst t.
Proof.
  induction t as [|[k v0] t IH]; cbn; [reflexivity|]. now rewrite IH.
Qed.

Lemma select_none_notin {V} (t : Db.table V) key :
  Db.select t key = None -> ~ In key (map fst t).
Proof.
  induction t as [|[k v] t IH]; cbn; [tauto|].
  destruct (PyStr.eqb k key) eqn:E; [discriminate|].
  intros H [->|Hin]; [now rewrite pystr_eqb_refl in E | now apply IH].
Qed.

Lemma nodup_snoc {A} (l : list A) x :
  NoDup l -> ~ In x l -> NoDup (l ++ [x]).
Proof.
  intros Hl Hx. induction Hl as [|y l Hy Hl IH]; cbn.
  - repeat constructor. tauto.
  - constructor.
    + rewrite in_app_iff. cbn. intros [H|[H|[]]]; [tauto|].
      subst. apply Hx. now left.
    + apply IH. intros H. apply Hx. now right.
Qed.

(** X14. Every write keeps one row per key in both tables, as their
    PRIMARY KEY declares: [db_set], [db_delete] and a successful
    [stat_incr] never leave two rows under one key. *)
Theorem writes_keep_keys_unique :
  forall (d : Db.t) (key value : pystr) (inc : Z),
    Db.keys_unique d ->
    Db.keys_unique (Db.db_set d key value) /\
    Db.keys_unique (Db.db_delete d key) /\
    (forall d', Db.stat_incr d key inc = Some d' -> Db.keys_unique d').
Proof.
  intros d key value inc [Hs Hc]. unfold Db.keys_unique.
  repeat split; cbn [Db.db_set Db.db_delete Db.settings Db.stats]; auto.
  - unfold Db.replace. rewrite map_app. cbn.
    apply nodup_snoc; [now apply delete_nodup|].
    intros Hin. apply delete_keys in Hin. tauto.
  - now apply delete_nodup.
  - unfold Db.stat_incr in H.
    destruct (Db.select (Db.stats d) key);
      match type of H with
      | (if ?c then _ else _) = _ => destruct c; [|discriminate]
      end; injection H as <-; exact Hs.
  - unfold Db.stat_incr in H.
    destruct (Db.select (Db.stats d) key) eqn:E;
      match type of H with
      | (if ?c then _ else _) = _ => destruct c; [|discriminate]
      end; injection H as <-; cbn [Db.stats].
    + now rewrite update_keys.
    + rewrite map_app. cbn. apply nodup_snoc; [exact Hc|].
      now apply select_none_notin.
Qed.

Lemma writes_keep_keys_unique_witness :
  Db.keys_unique (Db.db_set Db.empty (py "dumb_channel") (py "@c")).
Proof.
  exact (proj1 (writes_keep_keys_unique Db.empty (py "dumb_channel")
                  (py "@c") 1 (conj (NoDup_nil _) (NoDup_nil _)))).
Defined.

(* ------------------------------------------------------------------ *)
(** ** [strip], [split] and [str] *)

Lemma lstrip_blank_app l s : blank l -> lstrip (l ++ s) = lstrip s.
Proof.
  unfold blank. induction l as [|c l IH]; cbn; [reflexivity|].
  rewrite andb_true_iff. intros [-> Hl]. auto.
Qed.

Lemma lstrip_suffix s :
  exists l, blank l /\ s = l ++ lstrip s.
Proof.
  induction s as [|c s (l & Hl & Hs)]; cbn [lstrip].
  - exists []. split; reflexivity.
  - destruct (isspace c) eqn:E.
    + exists (c :: l). split; [unfold blank; cbn; now rewrite E|].
      cbn. now rewrite <- Hs.
    + exists []. split; reflexivity.
Qed.

Lemma lstrip_length s : (length (lstrip s) <= length s)%nat.
Proof.
  destruct (lstrip_suffix s) as (l & _ & Hs).
  rewrite Hs at 2. rewrite length_app. lia.
Qed.

Lemma lstrip_fixed s :
  length (lstrip s) = length s -> lstrip s = s.
Proof.
  destruct (lstrip_suffix s) as (l & _ & Hs). intros Hlen.
  rewrite Hs in Hlen at 2. rewrite length_app in Hlen.
  destruct l; [now rewrite Hs at 2 | cbn in Hlen; lia].
Qed.

Lemma lstrip_head c s : isspace c = false -> lstrip (c :: s) = c :: s.
Proof. intros H. cbn. now rewrite H. Qed.

Lemma lstrip_fixed_head c s : lstrip (c :: s) = c :: s -> isspace c = false.
Proof.
  cbn. destruct (isspace c); [|reflexivity]. intros H.
  pose proof (lstrip_length s) as Hl. rewrite H in Hl. cbn in Hl. lia.
Qed.

(** A stripped string starts and ends with something other than
    whitespace. *)
Lemma stripped_ends s :
  stripped s -> lstrip s = s /\ lstrip (rev s) = rev s.
Proof.
  intros [Hne Hs]. unfold strip in Hs.
  pose proof (lstrip_length s) as H1.
  pose proof (lstrip_length (rev (lstrip s))) as H2.
  assert (Hlen : length (rev (lstrip (rev (lstrip s)))) = length s)
    by now rewrite Hs.
  rewrite !length_rev in *.
  assert (E1 : lstrip s = s) by (apply lstrip_fixed; lia).
  split; [exact E1|]. rewrite E1 in *. apply lstrip_fixed.
  rewrite length_rev. lia.
Qed.

Lemma stripped_app_r s r :
  stripped s -> lstrip (s ++ r) = s ++ r.
Proof.
  intros Hs. destruct (stripped_ends s Hs) as [H1 _].
  destruct s as [|c s]; [now destruct Hs|].
  apply lstrip_fixed_head in H1. cbn [app]. now apply lstrip_head.
Qed.

Lemma blank_rev l : blank l -> blank (rev l).
Proof.
  unfold blank. rewrite !forallb_forall. intros H c Hc.
  apply H. now apply in_rev.
Qed.

(** [strip] removes the blanks around a stripped core and nothing else. *)
Lemma strip_padded l core r :
  blank l -> blank r -> stripped core -> strip (l ++ core ++ r) = core.
Proof.
  intros Hl Hr Hc. unfold strip.
  rewrite (lstrip_blank_app l _ Hl), (stripped_app_r core r Hc).
  rewrite rev_app_distr, (lstrip_blank_app _ _ (blank_rev r Hr)).
  destruct (stripped_ends core Hc) as [_ ->]. apply rev_involutive.
Qed.

Lemma strip_stripped s : stripped s -> strip s = s.
Proof. now intros [_ H]. Qed.

Lemma solid_stripped s : s <> [] -> solid s -> stripped s.
Proof.
  intros Hne Hs. split; [exact Hne|]. unfold strip.
  assert (Hl : forall t, t <> [] -> solid t -> lstrip t = t).
  { intros [|c t] Ht Hsolid; [congruence|]. apply lstrip_head.
    unfold solid in Hsolid. cbn in Hsolid.
    apply andb_true_iff in Hsolid. now apply negb_true_iff. }
  rewrite (Hl s Hne Hs).
  assert (Hrev : solid (rev s)).
  { unfold solid in *. rewrite forallb_forall in *. intros c Hc.
    apply Hs. now apply in_rev. }
  rewrite Hl; [apply rev_involutive | | exact Hrev].
  intros E. apply Hne. rewrite <- (rev_involutive s), E. reflexivity.
Qed.

(** [split(",")] undoes [",".join] on pieces free of commas. *)
Lemma split_join pieces :
  pieces <> [] ->
  Forall (fun p => ~ In comma p) pieces ->
  split_comma (join_comma pieces) = pieces.
Proof.
  assert (Hone : forall p, ~ In comma p -> split_comma p = [p]).
  { induction p as [|c p IH]; intros Hp; [reflexivity|]. cbn.
    destruct (N.eqb_spec c comma) as [->|_]; [exfalso; apply Hp; now left|].
    rewrite IH; [reflexivity|]. intros H. apply Hp. now right. }
  assert (Happ : forall p rest,
            ~ In comma p ->
            split_comma (p ++ comma :: rest) = p :: split_comma rest).
  { induction p as [|c p IH]; intros rest Hp; [reflexivity|]. cbn.
    destruct (N.eqb_spec c comma) as [->|_]; [exfalso; apply Hp; now left|].
    rewrite IH; [reflexivity|]. intros H. apply Hp. now right. }
  induction pieces as [|p pieces IH]; intros Hne Hall; [congruence|].
  inversion Hall as [|? ? Hp Hrest]; subst.
  destruct pieces as [|q pieces]; [now apply Hone|].
  change (join_comma (p :: q :: pieces))
    with (p ++ comma :: join_comma (q :: pieces)).
  rewrite Happ by exact Hp. rewrite IH; [reflexivity | discriminate | exact Hrest].
Qed.

Lemma plain_not_space c : plain c = true -> isspace c = false.
Proof.
  unfold plain. rewrite orb_true_iff, andb_true_iff, !N.leb_le, N.eqb_eq.
  intros H.
  assert (E : (c = 45 \/ c = 48 \/ c = 49 \/ c = 50 \/ c = 51 \/ c = 52 \/
               c = 53 \/ c = 54 \/ c = 55 \/ c = 56 \/ c = 57)%N) by lia.
  repeat destruct E as [->|E]; try reflexivity. now subst.
Qed.

Lemma plain_not_comma c : plain c = true -> c <> comma.
Proof. intros H ->. discriminate H. Qed.

Lemma str_uint_plain d :
  forallb plain (py (DecimalString.NilEmpty.string_of_uint d)) = true.
Proof. induction d; cbn; auto. Qed.

Lemma str_plain n : forallb plain (str n) = true.
Proof.
  unfold str. destruct (Z.to_int n) as [d|d];
    cbn [DecimalString.NilEmpty.string_of_int].
  - apply str_uint_plain.
  - change (forallb plain
              (45%N :: py (DecimalString.NilEmpty.string_of_uint d)) = true).
    cbn. apply str_uint_plain.
Qed.

Lemma str_nonempty n : str n <> [].
Proof.
  unfold str. destruct n as [|p|p]; cbn [Z.to_int]; try discriminate.
  pose proof (DecimalPos.Unsigned.to_uint_nonnil p) as H.
  cbn [DecimalString.NilEmpty.string_of_int].
  destruct (Pos.to_uint p); [congruence | discriminate ..].
Qed.

Lemma py_inj s s' : py s = py s' -> s = s'.
Proof.
  unfold py. revert s'. induction s as [|a s IH]; intros [|a' s']; cbn;
    try discriminate; [reflexivity|].
  intros [= Ha Hs]. f_equal; [|now apply IH].
  rewrite <- (ascii_N_embedding a), <- (ascii_N_embedding a'). now rewrite Ha.
Qed.

Lemma str_inj n n' : str n = str n' -> n = n'.
Proof.
  unfold str. intros H. apply py_inj in H.
  apply DecimalZ.to_int_inj.
  assert (E : Some (Z.to_int n) = Some (Z.to_int n'))
    by (rewrite <- !DecimalString.NilEmpty.isi; now rewrite H).
  now injection E.
Qed.

Lemma str_stripped n : stripped (str n).
Proof.
  apply solid_stripped; [apply str_nonempty|].
  pose proof (str_plain n) as H. unfold solid.
  rewrite forallb_forall in *. intros c Hc.
  apply negb_true_iff, plain_not_space. auto.
Qed.

Lemma mem_in x pieces : mem x pieces = true <-> In x pieces.
Proof.
  unfold mem. rewrite existsb_exists. split.
  - intros (y & Hy & E). apply pystr_eqb_eq in E. now subst.
  - intros H. exists x. split; [exact H | apply pystr_eqb_refl].
Qed.

(* ------------------------------------------------------------------ *)
(** ** Who is an admin *)

Lemma blank_no_comma l : blank l -> ~ In comma l.
Proof.
  unfold blank. rewrite forallb_forall. intros H Hin.
  specialize (H comma Hin). discriminate H.
Qed.

Lemma str_no_comma n : ~ In comma (str n).
Proof.
  pose proof (str_plain n) as H. rewrite forallb_forall in H.
  intros Hin. specialize (H comma Hin). discriminate H.
Qed.

Lemma admin_entry_no_comma e : entry_blanks e -> ~ In comma (admin_entry e).
Proof.
  destruct e as [[l id] r]. intros [Hl Hr]. cbn in *.
  rewrite !in_app_iff. intros [H|[H|H]].
  - now apply (blank_no_comma l).
  - now apply (str_no_comma id).
  - now apply (blank_no_comma r).
Qed.

Lemma admin_entry_strip e : entry_blanks e -> strip (admin_entry e) = str (entry_id e).
Proof.
  destruct e as [[l id] r]. intros [Hl Hr]. cbn in *.
  apply strip_padded; auto using str_stripped.
Qed.

Lemma join_comma_nonempty p pieces :
  p <> [] -> join_comma (p :: pieces) <> [].
Proof.
  intros Hp. destruct pieces; cbn; [exact Hp|].
  destruct p; [congruence | discriminate].
Qed.

(** X15. When [ADMIN_ID] is a comma-separated list of user ids, each
    with any blanks around it, [is_admin] accepts exactly the ids listed:
    blanks do not matter, and no id outside the list passes. *)
Theorem is_admin_accepts_exactly_the_listed_ids :
  forall (entries : list (pystr * Z * pystr)) (user_id : Z),
    Forall entry_blanks entries ->
    Admin.is_admin (join_comma (map admin_entry entries)) user_id = true
    <-> In user_id (map entry_id entries).
Proof.
  intros entries uid Hall. unfold Admin.is_admin.
  destruct entries as [|e entries]; [cbn; split; [discriminate | tauto]|].
  set (pieces := map admin_entry (e :: entries)).
  assert (Hne : nonempty (join_comma pieces) = true).
  { destruct (join_comma pieces) eqn:E; [|reflexivity]. exfalso.
    revert E. apply join_comma_nonempty.
    destruct e as [[l id] r]. cbn. intros E.
    apply app_eq_nil in E. destruct E as [_ E].
    apply app_eq_nil in E. destruct E as [E _].
    now apply (str_nonempty id). }
  rewrite Hne. cbn [negb].
  rewrite split_join.
  2: discriminate.
  2: { subst pieces. apply Forall_map. eapply Forall_impl; [|exact Hall].
       apply admin_entry_no_comma. }
  assert (Hfilter : filter (fun s => nonempty (strip s)) pieces = pieces).
  { subst pieces. apply forallb_filter_id. rewrite forallb_forall.
    intros p Hp. apply in_map_iff in Hp. destruct Hp as (x & <- & Hx).
    rewrite Forall_forall in Hall. rewrite (admin_entry_strip x (Hall x Hx)).
    pose proof (str_nonempty (entry_id x)). now destruct (str (entry_id x)). }
  rewrite Hfilter, mem_in. subst pieces. rewrite map_map.
  rewrite Forall_forall in Hall. split.
  - intros Hin. apply in_map_iff in Hin. destruct Hin as (x & Hx & Hmem).
    rewrite (admin_entry_strip x (Hall x Hmem)) in Hx.
    apply str_inj in Hx. subst uid. now apply in_map.
  - intros Hin. apply in_map_iff in Hin. destruct Hin as (x & <- & Hmem).
    apply in_map_iff. exists x. split; [|exact Hmem].
    now apply admin_entry_strip, Hall.
Qed.

Lemma is_admin_accepts_exactly_the_listed_ids_witness :
  Admin.is_admin (py " 12,7 ,-3") 7 = true <-> In 7 [12; 7; -3].
Proof.
  apply (is_admin_accepts_exactly_the_listed_ids
           [(py " ", 12, py ""); (py "", 7, py " "); (py "", -3, py "")] 7).
  repeat constructor.
Defined.

(* ------------------------------------------------------------------ *)
(** ** Parsing a command *)

Lemma lstrip_fixed_app s t : s <> [] -> lstrip s = s -> lstrip (s ++ t) = s ++ t.
Proof.
  intros Hne H. destruct s as [|c s]; [congruence|].
  apply lstrip_fixed_head in H. cbn [app]. now apply lstrip_head.
Qed.

Lemma solid_lstrip s : solid s -> lstrip s = s.
Proof.
  destruct s as [|c s]; [reflexivity|]. unfold solid. cbn [forallb].
  rewrite andb_true_iff, negb_true_iff. intros [Hc _]. now apply lstrip_head.
Qed.

Lemma nonspace_run_solid cmd gap rest :
  solid cmd -> blank gap -> gap <> [] ->
  nonspace_run (cmd ++ gap ++ rest) = cmd.
Proof.
  intros Hc Hg Hne. induction cmd as [|c cmd IH]; cbn.
  - destruct gap as [|g gap]; [congruence|]. cbn.
    unfold blank in Hg. cbn in Hg. apply andb_true_iff in Hg.
    destruct Hg as [-> _]. reflexivity.
  - unfold solid in Hc. cbn in Hc. apply andb_true_iff in Hc.
    destruct Hc as [Hc Hrest]. apply negb_true_iff in Hc. rewrite Hc.
    f_equal. now apply IH.
Qed.

Lemma args_of_command_text lead cmd gap arg trail from :
  command_parts lead cmd gap arg trail ->
  Admin.args_of
    (Admin.mkMessage (command_text lead cmd gap arg trail) from)
  = [cmd; arg].
Proof.
  intros (Hlead & Htrail & Hgap & Hgne & Hcmd & Hcne & Harg).
  unfold Admin.args_of, command_text. cbn [Admin.text].
  destruct (stripped_ends arg Harg) as [Ha Hra].
  assert (Hane : arg <> []) by apply Harg.
  set (X := cmd ++ gap ++ arg).
  assert (HX : lstrip X = X)
    by (apply lstrip_fixed_app; [exact Hcne | now apply solid_lstrip]).
  assert (HrX : lstrip (rev X) = rev X).
  { subst X. rewrite !rev_app_distr, <- app_assoc.
    apply lstrip_fixed_app; [|exact Hra].
    intros E. apply Hane. rewrite <- (rev_involutive arg), E. reflexivity. }
  assert (Hstrip : strip (lead ++ cmd ++ gap ++ arg ++ trail) = X).
  { unfold strip. rewrite (lstrip_blank_app lead _ Hlead).
    replace (cmd ++ gap ++ arg ++ trail) with (X ++ trail)
      by (subst X; now rewrite <- !app_assoc).
    rewrite (lstrip_fixed_app X trail); [| |exact HX].
    2: { subst X. destruct cmd; [congruence | discriminate]. }
    rewrite rev_app_distr, (lstrip_blank_app _ _ (blank_rev trail Htrail)).
    rewrite HrX. apply rev_involutive. }
  rewrite Hstrip. unfold split_maxsplit1. rewrite HX.
  assert (HXne : X <> [])
    by (subst X; destruct cmd; [congruence | discriminate]).
  destruct X as [|x X'] eqn:EX; [congruence|]. rewrite <- EX.
  subst X. rewrite (nonspace_run_solid cmd gap arg Hcmd Hgap Hgne).
  rewrite EX at 1. rewrite <- EX.
  rewrite skipn_app, skipn_all, Nat.sub_diag. cbn [skipn app].
  rewrite (lstrip_blank_app gap arg Hgap), Ha.
  destruct arg; [congruence | reflexivity].
Qed.

(* ------------------------------------------------------------------ *)
(** ** The admin commands *)

(** X16. Messages from senders who are not admins change nothing: after
    any run of admin commands none of which comes from a listed admin (a
    message without sender and one from user id 0 count as such, listed or
    not), the store is what it was and each message got the one reply
    "not authorized". *)
Theorem non_admins_change_nothing :
  forall (e : Admin.env) (l : list (Admin.command * Admin.message))
         (s : Admin.state),
    (forall c m uid,
       In (c, m) l -> Admin.from_user m = Some uid ->
       uid = 0 \/ Admin.is_admin (Admin.ADMIN_ID e) uid = false) ->
    Admin.db (Admin.handle_all e l s) = Admin.db s /\
    Admin.sent (Admin.handle_all e l s) =
      Admin.sent s ++ repeat Admin.NotAuthorized (length l).
Proof.
  intros e l. induction l as [|[c m] l IH]; intros s Hall; cbn.
  - now rewrite app_nil_r.
  - assert (Hstep : snd (Admin.handle c e m s) =
                    Admin.mkState (Admin.db s)
                      (Admin.sent s ++ [Admin.NotAuthorized])).
    { unfold Admin.handle, Admin.admin_only.
      destruct (Admin.from_user m) as [uid|] eqn:Hfrom; [|reflexivity].
      destruct (Hall c m uid (or_introl eq_refl) Hfrom) as [->|Hno].
      - reflexivity.
      - rewrite Hno, andb_false_r. reflexivity. }
    rewrite Hstep. destruct (IH (Admin.mkState (Admin.db s)
                                   (Admin.sent s ++ [Admin.NotAuthorized])))
      as [Hdb Hsent].
    { intros c' m' uid Hin. apply (Hall c' m' uid). now right. }
    rewrite Hdb, Hsent. cbn. now rewrite <- app_assoc.
Qed.

Lemma non_admins_change_nothing_witness :
  let e := Admin.mkEnv (py "7") (fun _ => false) (fun _ => false)
             (fun _ _ => None) in
  let s := Admin.mkState Db.empty [] in
  let l := [(Admin.RemoveDumbChannel, Admin.mkMessage (py "/remove_dumb_channel") (Some 8));
            (Admin.SetApiTemplate, Admin.mkMessage (py "/set_api_template x") None)] in
  Admin.db (Admin.handle_all e l s) = Db.empty.
Proof.
  intros e s l.
  apply (non_admins_change_nothing e l s).
  intros c m uid [[= <- <-]|[[= <- <-]|[]]]; cbn; intros [= <-].
  right. reflexivity.
Defined.

(** X17. [/set_dumb_channel <arg>] from an admin stores exactly the
    argument, stripped of the blanks around it, when the platform knows the
    chat, and leaves the store as it was when it does not.  The setting is
    stored before the confirmation is sent, so it stays stored when that
    reply is rejected, in which case the admin is also told that setting
    failed. *)
Theorem set_dumb_channel_stores_argument :
  forall (e : Admin.env) (s : Admin.state) (from : option Z)
         (lead cmd gap arg trail : pystr),
    let m := Admin.mkMessage (command_text lead cmd gap arg trail) from in
    sent_by_admin e m ->
    command_parts lead cmd gap arg trail ->
    let s' := snd (Admin.handle Admin.SetDumbChannel e m s) in
    Admin.db s' =
      (if Admin.chat_unknown e arg then Admin.db s
       else Db.db_set (Admin.db s) (py "dumb_channel") arg) /\
    Admin.sent s' =
      Admin.sent s ++
      (if Admin.chat_unknown e arg
       then [Admin.DumbChannelFailed Admin.ChatNotFound]
       else if Admin.reply_rejected e (Admin.DumbChannelSet arg)
            then [Admin.DumbChannelSet arg;
                  Admin.DumbChannelFailed Admin.ReplyRejected]
            else [Admin.DumbChannelSet arg]).
Proof.
  intros e s from lead cmd gap arg trail m (uid & Hfrom & Hnz & Hadmin)
         Hparts s'.
  subst s'. unfold Admin.handle, Admin.admin_only. rewrite Hfrom, Hadmin.
  replace (uid =? 0) with false by (symmetry; now apply Z.eqb_neq).
  cbn [negb andb Admin.body_of]. unfold Admin.set_dumb_channel. subst m.
  rewrite (args_of_command_text _ _ _ _ _ from Hparts).
  rewrite (strip_stripped arg) by apply Hparts.
  unfold Admin.htry, Admin.hbind, Admin.get_chat, Admin.on_db,
    Admin.reply_text, Admin.hraise, Admin.hret.
  destruct (Admin.chat_unknown e arg); cbn.
  - split; reflexivity.
  - destruct (Admin.reply_rejected e (Admin.DumbChannelSet arg)); cbn;
      rewrite <- ?app_assoc; split; reflexivity.
Qed.

Lemma set_dumb_channel_stores_argument_witness :
  let e := Admin.mkEnv (py "7") (fun _ => false) (fun _ => true)
             (fun _ _ => None) in
  let m := Admin.mkMessage (py " /set_dumb_channel   my channel ") (Some 7) in
  Db.db_get
    (Admin.db (snd (Admin.handle Admin.SetDumbChannel e m
                      (Admin.mkState Db.empty []))))
    (py "dumb_channel")
  = Some (py "my channel").
Proof.
  intros e m.
  destruct (set_dumb_channel_stores_argument e (Admin.mkState Db.empty [])
              (Some 7) (py " ") (py "/set_dumb_channel") (py "   ")
              (py "my channel") (py " "))
    as [Hdb _].
  - exists 7. repeat split. discriminate.
  - repeat split; discriminate.
  - cbv zeta in Hdb. change (command_text _ _ _ _ _)
      with (py " /set_dumb_channel   my channel ") in Hdb.
    fold e m in Hdb. rewrite Hdb. reflexivity.
Defined.

(** X18. The force-sub gate follows the admin commands: after an admin's
    [/set_force_sub <arg>] for a chat the platform knows, [ensure_joined]
    lets a user through exactly when the platform reports that user as
    creator, administrator or member of that chat, and refuses when the
    lookup itself fails; after an admin's [/remove_force_sub] it lets
    everyone through. *)
Theorem force_sub_gate_follows_commands :
  forall (e : Admin.env) (s : Admin.state) (from : option Z)
         (lead cmd gap arg trail other : pystr),
    let m := Admin.mkMessage (command_text lead cmd gap arg trail) from in
    let m' := Admin.mkMessage other from in
    sent_by_admin e m ->
    command_parts lead cmd gap arg trail ->
    Admin.chat_unknown e arg = false ->
    let s1 := snd (Admin.handle Admin.SetForceSub e m s) in
    let s2 := snd (Admin.handle Admin.RemoveForceSub e m' s1) in
    (forall user_id,
       Admin.ensure_joined e (Admin.db s1) user_id =
       match Admin.member_status e arg user_id with
       | Some st =>
           if Admin.joined_status st then None else Some Admin.MustJoin
       | None => Some Admin.CannotVerify
       end) /\
    (forall user_id, Admin.ensure_joined e (Admin.db s2) user_id = None).
Proof.
  intros e s from lead cmd gap arg trail other m m'
         (uid & Hfrom & Hnz & Hadmin) Hparts Hknown s1 s2.
  assert (Hs1 : Admin.db s1 = Db.db_set (Admin.db s) (py "force_sub") arg).
  { subst s1. unfold Admin.handle, Admin.admin_only. rewrite Hfrom, Hadmin.
    replace (uid =? 0) with false by (symmetry; now apply Z.eqb_neq).
    cbn [negb andb Admin.body_of]. unfold Admin.set_force_sub. subst m.
    rewrite (args_of_command_text _ _ _ _ _ from Hparts).
    rewrite (strip_stripped arg) by apply Hparts.
    unfold Admin.htry, Admin.hbind, Admin.get_chat, Admin.on_db,
      Admin.reply_text, Admin.hraise, Admin.hret.
    rewrite Hknown. cbn.
    destruct (Admin.reply_rejected e (Admin.ForceSubSet arg)); reflexivity. }
  assert (Hs2 : Admin.db s2 = Db.db_delete (Admin.db s1) (py "force_sub")).
  { subst s2. unfold Admin.handle, Admin.admin_only.
    change (Admin.from_user m') with from.
    change (Admin.from_user m) with from in Hfrom. rewrite Hfrom, Hadmin.
    replace (uid =? 0) with false by (symmetry; now apply Z.eqb_neq).
    reflexivity. }
  split; intros user_id; unfold Admin.ensure_joined, Db.db_get.
  - rewrite Hs1. cbn [Db.db_set Db.settings]. rewrite select_replace.
    rewrite pystr_eqb_refl.
    destruct arg as [|c arg];
      [destruct Hparts as (_ & _ & _ & _ & _ & _ & Hne & _); congruence|].
    reflexivity.
  - rewrite Hs2. cbn [Db.db_delete Db.settings]. rewrite select_delete.
    now rewrite pystr_eqb_refl.
Qed.

Lemma force_sub_gate_follows_commands_witness :
  let e := Admin.mkEnv (py "7") (fun _ => false) (fun _ => false)
             (fun _ uid => if uid =? 5 then Some (py "member")
                           else Some (py "left")) in
  let m := Admin.mkMessage (py "/set_force_sub @chan") (Some 7) in
  let s1 := snd (Admin.handle Admin.SetForceSub e m
                   (Admin.mkState Db.empty [])) in
  Admin.ensure_joined e (Admin.db s1) 5 = None /\
  Admin.ensure_joined e (Admin.db s1) 6 = Some Admin.MustJoin.
Proof.
  intros e m s1.
  destruct (force_sub_gate_follows_commands e (Admin.mkState Db.empty [])
              (Some 7) (py "") (py "/set_force_sub") (py " ") (py "@chan")
              (py "") (py "/remove_force_sub"))
    as [Hset _].
  - exists 7. repeat split. discriminate.
  - repeat split; discriminate.
  - reflexivity.
  - split; [exact (Hset 5) | exact (Hset 6)].
Defined.

(** What one command can do to the store. *)
Lemma handle_db_shape c e m s :
  let d' := Admin.db (snd (Admin.handle c e m s)) in
  d' = Admin.db s \/
  (exists key value, d' = Db.db_set (Admin.db s) key value) \/
  d' = Db.db_delete (Admin.db s) (py "dumb_channel") \/
  d' = Db.db_delete (Admin.db s) (py "force_sub").
Proof.
  cbv zeta. unfold Admin.handle, Admin.admin_only.
  destruct (Admin.from_user m) as [uid|]; [|now left].
  destruct (negb (uid =? 0) && Admin.is_admin (Admin.ADMIN_ID e) uid);
    [|now left].
  destruct c; cbn [Admin.body_of].
  - unfold Admin.set_dumb_channel.
    destruct (Admin.args_of m) as [|a [|b [|x l]]]; try now left.
    unfold Admin.htry, Admin.hbind, Admin.get_chat, Admin.on_db,
      Admin.reply_text, Admin.hraise, Admin.hret.
    destruct (Admin.chat_unknown e (strip b)); cbn; [now left|].
    right; left. eexists _, _.
    destruct (Admin.reply_rejected e _); reflexivity.
  - right; right; left. reflexivity.
  - unfold Admin.set_force_sub.
    destruct (Admin.args_of m) as [|a [|b [|x l]]]; try now left.
    unfold Admin.htry, Admin.hbind, Admin.get_chat, Admin.on_db,
      Admin.reply_text, Admin.hraise, Admin.hret.
    destruct (Admin.chat_unknown e (strip b)); cbn; [now left|].
    right; left. eexists _, _.
    destruct (Admin.reply_rejected e _); reflexivity.
  - right; right; right. reflexivity.
  - unfold Admin.set_api_template_cmd.
    destruct (Admin.args_of m) as [|a [|b [|x l]]]; try now left.
    right; left. eexists _, _. reflexivity.
  - now left.
Qed.

(** X19. Once the module has started, the stored API template never goes
    missing and no counter moves, whatever admin commands follow, from
    whomever, and however the platform answers: startup installs the
    built-in template only when none is stored, and no command deletes
    it. *)
Theorem api_template_survives_commands :
  forall (API_TEMPLATE : pystr) (d : Db.t) (e : Admin.env)
         (l : list (Admin.command * Admin.message)) (replies : list Admin.reply),
    let s0 := Admin.mkState (Db.startup API_TEMPLATE d) replies in
    let s := Admin.handle_all e l s0 in
    Db.db_get (Admin.db s) (py "api_template") <> None /\
    (Db.db_get d (py "api_template") <> None ->
     Db.startup API_TEMPLATE d = d) /\
    (forall key, Db.stat_get (Admin.db s) key = Db.stat_get d key).
Proof.
  intros API d e l replies s0 s.
  assert (Hstart : Db.db_get (Admin.db s0) (py "api_template") <> None /\
                   forall key, Db.stat_get (Admin.db s0) key = Db.stat_get d key).
  { subst s0. cbn [Admin.db]. unfold Db.startup.
    destruct (Db.db_get d (py "api_template")) eqn:E.
    - split; [congruence | reflexivity].
    - split; [|reflexivity]. unfold Db.db_get, Db.db_set. cbn [Db.settings].
      rewrite select_replace, pystr_eqb_refl. discriminate. }
  split; [|split].
  - subst s. destruct Hstart as [Hstart _]. revert Hstart.
    generalize s0. clear s0.
    induction l as [|[c m] l IH]; intros s0 H0; cbn; [exact H0|].
    apply IH.
    destruct (handle_db_shape c e m s0) as [-> | [[k [v ->]] | [-> | ->]]];
      unfold Db.db_get in *; cbn [Db.db_set Db.db_delete Db.settings].
    + exact H0.
    + rewrite select_replace. destruct (PyStr.eqb k (py "api_template"));
        [discriminate | exact H0].
    + rewrite select_delete. exact H0.
    + rewrite select_delete. exact H0.
  - unfold Db.startup. destruct (Db.db_get d (py "api_template"));
      [reflexivity | congruence].
  - subst s. destruct Hstart as [_ Hstart]. revert Hstart.
    generalize s0. clear s0.
    induction l as [|[c m] l IH]; intros s0 H0; cbn; [exact H0|].
    apply IH. intros key. rewrite <- H0.
    destruct (handle_db_shape c e m s0) as [-> | [[k [v ->]] | [-> | ->]]];
      reflexivity.
Qed.
